(** * Mutual exclusion around a shared vector and a shared output stream

    A model of the three example programs of the repository:
    - the internally synchronized class [Vector] (a [std::vector<int>] and the
      [std::mutex] that guards it) with its worker [func] and its [main];
    - [unscrambled.cpp], where [printString] holds the global [coutMutex]
      while it writes its text to [std::cout] one character at a time;
    - [scrambled.cpp], the same program without the mutex.

    The member functions are given twice: as functions on the shared objects
    in an exception-passing style (what one call does when it runs alone), and
    as thread code for an interleaving machine whose steps are the single
    accesses to the mutex, the vector and the stream.  The two are related by
    the serialisation theorems further down. *)

From Stdlib Require Import ZArith Ascii String DecimalString.
From Stdlib Require DecimalPos DecimalZ.
From stdpp Require Import list.

(** ** The shared objects *)

Abbreviation tid := nat.

(** What the threads share: the mutex ([Vector::mut], or the global
    [coutMutex]) with its owner, the vector [Vector::vec], and the characters
    written to [std::cout] so far. *)
Record shared := Shared {
  mut : option tid;
  vec : list Z;
  cout : list ascii
}.

Definition empty_shared : shared := Shared None [] [].

(** [std::cout << i] for an [int]: its decimal digits. *)
Definition dec (i : Z) : list ascii :=
  list_ascii_of_string (NilZero.string_of_int (Z.to_int i)).

(** The literal [", "] of [Vector::print] and the newline of [std::endl]. *)
Definition sep : list ascii := list_ascii_of_string ", ".
Definition endl : list ascii := ["010"%char].

(** How a call ends. *)
Inductive outcome :=
| Returns (sh : shared)   (* normal return *)
| Throws (sh : shared)    (* an exception leaves the call, the objects being [sh] *)
| Blocks                  (* [lock()] waits for another thread *)
| Undefined.              (* [lock()] by the owner, [unlock()] by a non-owner *)

Definition and_then (o : outcome) (k : shared -> outcome) : outcome :=
  match o with
  | Returns sh => k sh
  | _ => o
  end.

Notation "'let*' x ':=' o 'in' k" := (and_then o (fun x => k))
  (at level 10, x name, o at level 100, k at level 200).

(** [std::mutex::lock] and [std::mutex::unlock], called by thread [t]. *)
Definition mut_lock (t : tid) (sh : shared) : outcome :=
  match mut sh with
  | None => Returns (Shared (Some t) (vec sh) (cout sh))
  | Some u => if decide (u = t) then Undefined else Blocks
  end.

Definition mut_unlock (t : tid) (sh : shared) : outcome :=
  match mut sh with
  | Some u =>
      if decide (u = t) then Returns (Shared None (vec sh) (cout sh))
      else Undefined
  | None => Undefined
  end.

(** [std::vector::push_back] is not synchronised: it finds the end of the
    sequence and then constructs the element there.  [vec_store n i] is the
    second half, for an end found at position [n]. *)
Definition vec_store (n : nat) (i : Z) (sh : shared) : shared :=
  Shared (mut sh) (take n (vec sh) ++ [i]) (cout sh).

(** The whole of [vec.push_back(i)] in one thread.  Growing the vector may
    fail to allocate ([std::bad_alloc]); the vector is then unchanged. *)
Definition vec_push_back (alloc_ok : bool) (i : Z) (sh : shared) : outcome :=
  if alloc_ok then Returns (vec_store (length (vec sh)) i sh) else Throws sh.

(** [std::cout << s]. *)
Definition cout_put (s : list ascii) (sh : shared) : outcome :=
  Returns (Shared (mut sh) (vec sh) (cout sh ++ s)).

(** A range-for over a sequence fixed at loop entry. *)
Fixpoint for_each {A} (l : list A) (body : A -> shared -> outcome)
    (sh : shared) : outcome :=
  match l with
  | [] => Returns sh
  | x :: l' => let* sh1 := body x sh in for_each l' body sh1
  end.

(** ** The member functions of [Vector], one call at a time *)

(** [void Vector::push_back(const int& i)] *)
Definition push_back (alloc_ok : bool) (t : tid) (i : Z) (sh : shared)
    : outcome :=
  let* sh1 := mut_lock t sh in
  let* sh2 := vec_push_back alloc_ok i sh1 in
  mut_unlock t sh2.

(** [void Vector::print()] *)
Definition print (t : tid) (sh : shared) : outcome :=
  let* sh1 := mut_lock t sh in
  let* sh2 := for_each (vec sh1)
                (fun i sh => let* sh' := cout_put (dec i) sh in cout_put sep sh')
                sh1 in
  let* sh3 := cout_put endl sh2 in
  mut_unlock t sh3.

(** The line that [print] writes for a sequence. *)
Definition render (l : list Z) : list ascii :=
  flat_map (fun i => dec i ++ sep) l.

(** ** The interleaving machine *)

(** One instruction is one access to a shared object.  [IPushBack] and
    [IForBegin] leave their local result (the end position found, the bounds
    of the loop) in the instruction that follows them. *)
#[warnings="-register-all"]
Inductive instr :=
| ILock                       (* m.lock() *)
| IUnlock                     (* m.unlock() *)
| IPushBack (i : Z)           (* vec.push_back(i): find the end *)
| IStore (n : nat) (i : Z)    (* vec.push_back(i): construct i at position n *)
| IForBegin                   (* for (auto i : vec): take begin() and end() *)
| IForNext (k n : nat)        (* it != end ?  auto i = *it *)
| IPut (s : list ascii)       (* std::cout << s *)
| ISleep                      (* std::this_thread::sleep_for(...) *)
| ISpawn (c : list instr)     (* std::thread thr(...) *)
| IJoin (u : tid)             (* thr.join() *)
| IReturn (z : Z).            (* return z; from main *)

Abbreviation code := (list instr).

(** Thread [0] is [main]; a spawned thread takes the next free index. *)
Record state := State {
  sh : shared;
  threads : list code;
  exit_status : option Z
}.

Definition resume (t : tid) (k : code) (s : state) (o : outcome) : option state :=
  match o with
  | Returns sh' => Some (State sh' (<[t := k]> (threads s)) (exit_status s))
  | _ => None
  end.

(** Thread [t] executes its next instruction; [None] when it cannot (it is
    finished, blocked on the mutex or on a join, or the process has exited). *)
Definition step (t : tid) (s : state) : option state :=
  match exit_status s, threads s !! t with
  | None, Some (i :: k) =>
      match i with
      | ILock => resume t k s (mut_lock t (sh s))
      | IUnlock => resume t k s (mut_unlock t (sh s))
      | IPushBack x =>
          resume t (IStore (length (vec (sh s))) x :: k) s (Returns (sh s))
      | IStore n x => resume t k s (Returns (vec_store n x (sh s)))
      | IForBegin =>
          resume t (IForNext 0 (length (vec (sh s))) :: k) s (Returns (sh s))
      | IForNext j n =>
          if (j <? n)
          then resume t (IPut (dec (nth j (vec (sh s)) 0%Z)) :: IPut sep
                           :: IForNext (S j) n :: k) s (Returns (sh s))
          else resume t k s (Returns (sh s))
      | IPut str => resume t k s (cout_put str (sh s))
      | ISleep => resume t k s (Returns (sh s))
      | ISpawn c =>
          Some (State (sh s) (<[t := k]> (threads s) ++ [c]) (exit_status s))
      | IJoin u =>
          match threads s !! u with
          | Some [] => resume t k s (Returns (sh s))
          | _ => None
          end
      | IReturn z => Some (State (sh s) (<[t := k]> (threads s)) (Some z))
      end
  | _, _ => None
  end.

(** A schedule names the thread that moves at each step. *)
Fixpoint run (sched : list tid) (s : state) : option state :=
  match sched with
  | [] => Some s
  | t :: sched' =>
      match step t s with
      | Some s' => run sched' s'
      | None => None
      end
  end.

Definition next_instr (t : tid) (s : state) : option instr :=
  match threads s !! t with
  | Some (i :: _) => Some i
  | _ => None
  end.

(** The instructions executed along a schedule, in order. *)
Fixpoint trace (sched : list tid) (s : state) : list (tid * instr) :=
  match sched with
  | [] => []
  | t :: sched' =>
      match step t s, next_instr t s with
      | Some s', Some i => (t, i) :: trace sched' s'
      | _, _ => []
      end
  end.

(** A state is finished when no thread has anything left to do. *)
Definition finished (s : state) : Prop := Forall (fun k => k = []) (threads s).

(** ** Thread code *)

(** The bodies of [Vector::push_back] and [Vector::print]. *)
Definition push_back_body (i : Z) : code := [ILock; IPushBack i; IUnlock].
Definition print_body : code := [ILock; IForBegin; IPut endl; IUnlock].

(** A [main] that starts one thread per entry of [workers], joins them in
    that order and ends with [epilogue]. *)
Definition main_code (workers : list code) (epilogue : code) : code :=
  map ISpawn workers
    ++ map IJoin (seq 1 (length workers))
    ++ epilogue.

Definition boot (m : code) : state := State empty_shared [m] None.

(** ** The programs *)

(** What a worker of the [Vector] program may call. *)
Inductive call :=
| CPushBack (i : Z)    (* vec.push_back(i) *)
| CPrint               (* vec.print() *)
| CSleep.              (* std::this_thread::sleep_for(50ms) *)

Definition call_body (c : call) : code :=
  match c with
  | CPushBack i => push_back_body i
  | CPrint => print_body
  | CSleep => [ISleep]
  end.

Definition client (cs : list call) : code := flat_map call_body cs.

(** [void func(Vector& vec)]: for [i] from 0 to 4, push, sleep, print. *)
Definition func_calls : list call :=
  flat_map (fun i => [CPushBack i; CSleep; CPrint]) [0; 1; 2; 3; 4]%Z.

Definition func : code := client func_calls.

(** [main] of the [Vector] program: three threads run [func] on one
    [Vector]; falling off the end of [main] returns 0. *)
Definition main : code := main_code [func; func; func] [IReturn 0%Z].

(** [unscrambled.cpp]: [printString] under [coutMutex]. *)
Definition put_chars (text : list ascii) : code :=
  flat_map (fun c => [IPut [c]; ISleep]) text.

Definition printString (text : list ascii) : code :=
  [ILock] ++ put_chars text ++ [IUnlock].

Definition messages : list (list ascii) :=
  map list_ascii_of_string ["ABC"; "123"; "xyz"]%string.

Definition main_unscrambled : code :=
  main_code (map printString messages) [IPut endl; IReturn 0%Z].

(** [scrambled.cpp]: the same without the mutex. *)
Definition printString_scrambled (text : list ascii) : code := put_chars text.

Definition main_scrambled : code :=
  main_code (map printString_scrambled messages) [IPut endl; IReturn 0%Z].

(** ** A scheduler *)

(** Round robin: the next thread, counting from [start], that can move. *)
Fixpoint first_enabled (ts : list tid) (s : state) : option (tid * state) :=
  match ts with
  | [] => None
  | t :: ts' =>
      match step t s with
      | Some s' => Some (t, s')
      | None => first_enabled ts' s
      end
  end.

Fixpoint round_robin (fuel : nat) (start : tid) (s : state) : list tid :=
  match fuel with
  | 0 => []
  | S fuel' =>
      match first_enabled (rotate start (seq 0 (length (threads s)))) s with
      | Some (t, s') => t :: round_robin fuel' (S t) s'
      | None => []
      end
  end.

(** The state a schedule leads to (the start state if it cannot be run). *)
Definition outcome_of (sched : list tid) (s : state) : state :=
  default s (run sched s).

(** The spec's reading of a printed sequence: the elements with a separator
    between each two. *)
Fixpoint joined_by_sep (l : list (list ascii)) : list ascii :=
  match l with
  | [] => []
  | [x] => x
  | x :: l' => x ++ sep ++ joined_by_sep l'
  end.

(** The accesses of [Vector::print] to the vector and to [std::cout], and the
    accesses of any member function to the vector. *)
Definition in_print (i : instr) : bool :=
  match i with
  | IForBegin | IForNext _ _ | IPut _ => true
  | _ => false
  end.

Definition touches_vec (i : instr) : bool :=
  match i with
  | IPushBack _ | IStore _ _ | IForBegin | IForNext _ _ => true
  | _ => false
  end.

(** ** Bookkeeping for the proofs *)

(** The threads in the order in which they took the mutex. *)
Definition lock_event (e : tid * instr) : option tid :=
  match e.2 with
  | ILock => Some e.1
  | _ => None
  end.

Definition lock_order (sched : list tid) (s : state) : list tid :=
  omap lock_event (trace sched s).

Definition worker_instr (i : instr) : bool :=
  match i with
  | ISpawn _ | IJoin _ | IReturn _ => false
  | _ => true
  end.

Definition plain (c : code) : Prop := Forall (fun i => worker_instr i = true) c.

(** The programs considered: a [main] that starts the workers, joins them,
    writes [outs] and returns 0. *)
Definition program (workers : list code) (outs : list (list ascii)) : code :=
  main_code workers (map IPut outs ++ [IReturn 0%Z]).

(** Where [main] stands ([p] instructions done) fixes the number of
    threads, the workers already joined and the exit status. *)
Record structure (workers : list code) (outs : list (list ascii))
    (s : state) (p : nat) : Prop := {
  st_main : threads s !! 0 = Some (drop p (program workers outs));
  st_pc : p <= length (program workers outs);
  st_len : length (threads s) = S (p `min` length workers);
  st_plain : forall j w, threads s !! S j = Some w -> plain w;
  st_joined : forall j, j < length workers -> length workers + j < p ->
                        threads s !! S j = Some [];
  st_exit : exit_status s =
            if decide (p = length (program workers outs)) then Some 0%Z
            else None
}.

(** What [main] does next, by position. *)
Inductive main_step (workers : list code) (outs : list (list ascii))
    (s : state) (p : nat) : state -> Prop :=
| ms_spawn c :
    workers !! p = Some c ->
    main_step workers outs s p
      (State (sh s)
         (<[0 := drop (S p) (program workers outs)]> (threads s) ++ [c]) None)
| ms_join j :
    j < length workers -> p = length workers + j ->
    threads s !! S j = Some [] ->
    main_step workers outs s p
      (State (sh s)
         (<[0 := drop (S p) (program workers outs)]> (threads s)) None)
| ms_put j o :
    outs !! j = Some o -> p = 2 * length workers + j ->
    main_step workers outs s p
      (State (Shared (mut (sh s)) (vec (sh s)) (cout (sh s) ++ o))
         (<[0 := drop (S p) (program workers outs)]> (threads s)) None)
| ms_return :
    p = 2 * length workers + length outs ->
    main_step workers outs s p
      (State (sh s)
         (<[0 := drop (S p) (program workers outs)]> (threads s)) (Some 0%Z)).

(** The output that the rest of a critical section produces: the strings of
    its [IPut]s and, for a loop of [print] at position [k], the elements from
    [k] on. *)
Fixpoint owed (v : list Z) (w : code) : list ascii :=
  match w with
  | IPut str :: w' => str ++ owed v w'
  | IForNext k _ :: w' => render (drop k v) ++ owed v w'
  | ISleep :: w' => owed v w'
  | _ => []
  end.

Definition debt (s : state) : list ascii :=
  match mut (sh s) with
  | Some t =>
      match threads s !! t with
      | Some w => owed (vec (sh s)) w
      | None => []
      end
  | None => []
  end.

Inductive phase := New | Busy | Done.

(** Where a thread running [printString m] can stand. *)
Inductive sink_at (m : list ascii) : code -> phase -> Prop :=
| sink_new : sink_at m (printString m) New
| sink_put r : sink_at m (put_chars r ++ [IUnlock]) Busy
| sink_sleep r : sink_at m (ISleep :: put_chars r ++ [IUnlock]) Busy
| sink_done : sink_at m [] Done.

(** Thread [t] writes [msgs[t-1]]. *)
Definition message_of (msgs : list (list ascii)) (t : tid) : list ascii :=
  msgs !!! (t - 1).

(** [main] of [unscrambled.cpp], for any list of texts. *)
Definition unscrambled (msgs : list (list ascii)) : code :=
  program (map printString msgs) [endl].

(** The invariant of [unscrambled.cpp]; [order] lists the threads that have
    taken the mutex. *)
Record sink_inv (msgs : list (list ascii)) (order : list tid) (s : state)
    (p : nat) : Prop := {
  si_str : structure (map printString msgs) [endl] s p;
  si_nodup : NoDup order;
  si_order : forall t, t ∈ order -> 0 < t < length (threads s);
  si_owner : forall t, mut (sh s) = Some t -> 0 < t < length (threads s);
  si_at : forall j w, threads s !! S j = Some w ->
          exists ph, sink_at (msgs !!! j) w ph /\
                     (ph = Busy <-> mut (sh s) = Some (S j)) /\
                     (ph = New <-> S j ∉ order);
  si_out : cout (sh s) ++ debt s =
           concat (map (message_of msgs) order)
             ++ (if decide (2 * length msgs < p) then endl else [])
}.

(** A call takes effect when it touches the vector: [push_back] at its store,
    [print] when its loop starts. *)
Definition commit (e : tid * instr) : option (tid * call) :=
  match e.2 with
  | IStore _ i => Some (e.1, CPushBack i)
  | IForBegin => Some (e.1, CPrint)
  | _ => None
  end.

(** The calls of a run in the order in which they took effect. *)
Definition history (sched : list tid) (s : state) : list (tid * call) :=
  omap commit (trace sched s).

Definition apply_call (e : tid * call) (sh0 : shared) : outcome :=
  match e.2 with
  | CPushBack i => push_back true e.1 i sh0
  | CPrint => print e.1 sh0
  | CSleep => Returns sh0
  end.

(** The calls of [h] executed one after the other, each to completion. *)
Fixpoint serial (h : list (tid * call)) (sh0 : shared) : outcome :=
  match h with
  | [] => Returns sh0
  | e :: h' => let* sh1 := apply_call e sh0 in serial h' sh1
  end.

(** The calls of thread [t] in a history, and the calls of a worker that
    touch the vector. *)
Definition proj (t : tid) (h : list (tid * call)) : list call :=
  (filter (fun e => e.1 = t) h).*2.

Fixpoint sync (cs : list call) : list call :=
  match cs with
  | [] => []
  | CSleep :: cs' => sync cs'
  | c :: cs' => c :: sync cs'
  end.

(** The values pushed by a sequence of calls. *)
Fixpoint pushes (cs : list call) : list Z :=
  match cs with
  | [] => []
  | CPushBack i :: cs' => i :: pushes cs'
  | _ :: cs' => pushes cs'
  end.

(** The lines printed by a sequence of calls that starts with the vector
    holding [v]. *)
Fixpoint snapshots (v : list Z) (cs : list call) : list ascii :=
  match cs with
  | [] => []
  | CPushBack i :: cs' => snapshots (v ++ [i]) cs'
  | CPrint :: cs' => render v ++ endl ++ snapshots v cs'
  | CSleep :: cs' => snapshots v cs'
  end.

(** [vec_at v w held pend]: the continuation [w] of a worker, whether it is
    inside a critical section, and the calls it has not yet made effective;
    [v] is the vector at that moment. *)
Inductive vec_at (v : list Z) : code -> bool -> list call -> Prop :=
| at_idle cs :
    vec_at v (client cs) false cs
| at_push x cs :
    vec_at v (IPushBack x :: IUnlock :: client cs) true (CPushBack x :: cs)
| at_store x cs :
    vec_at v (IStore (length v) x :: IUnlock :: client cs) true
      (CPushBack x :: cs)
| at_unlock cs :
    vec_at v (IUnlock :: client cs) true cs
| at_for cs :
    vec_at v (IForBegin :: IPut endl :: IUnlock :: client cs) true
      (CPrint :: cs)
| at_next k cs :
    k <= length v ->
    vec_at v (IForNext k (length v) :: IPut endl :: IUnlock :: client cs)
      true cs
| at_int k x cs :
    v !! k = Some x ->
    vec_at v (IPut (dec x) :: IPut sep :: IForNext (S k) (length v)
                :: IPut endl :: IUnlock :: client cs) true cs
| at_sep k cs :
    k < length v ->
    vec_at v (IPut sep :: IForNext (S k) (length v)
                :: IPut endl :: IUnlock :: client cs) true cs
| at_endl cs :
    vec_at v (IPut endl :: IUnlock :: client cs) true cs.

(** A [main] that starts one thread per list of calls and joins them. *)
Definition guarded (css : list (list call)) : code :=
  program (map client css) [].

(** The invariant of the [Vector] program; [h] is the history so far. *)
Record vec_inv (css : list (list call)) (h : list (tid * call)) (s : state)
    (p : nat) : Prop := {
  vi_str : structure (map client css) [] s p;
  vi_owner : forall t, mut (sh s) = Some t -> 0 < t < length (threads s);
  vi_hist : forall e, e ∈ h -> 0 < e.1 < length (threads s);
  vi_at : forall j w, threads s !! S j = Some w ->
          exists pend,
            vec_at (vec (sh s)) w (bool_decide (mut (sh s) = Some (S j)))
              pend /\
            proj (S j) h ++ sync pend = sync (css !!! j);
  vi_serial : serial h empty_shared =
              Returns (Shared None (vec (sh s)) (cout (sh s) ++ debt s))
}.

(** The values of a history, each with the thread that pushed it. *)
Definition tagged (h : list (tid * call)) : list (tid * Z) :=
  omap (fun e => match e.2 with
                 | CPushBack i => Some (e.1, i)
                 | _ => None
                 end) h.

(** The values that thread [t] contributed, in their order in [tg]. *)
Definition own (t : tid) (tg : list (tid * Z)) : list Z :=
  (filter (fun e => e.1 = t) tg).*2.

(** A bound on the steps that an instruction still causes, as long as the
    vector holds at most [bound] elements when a loop of [print] starts. *)
Fixpoint cost (bound : nat) (i : instr) : nat :=
  match i with
  | IPushBack _ => 2
  | IForBegin => 3 * bound + 3
  | IForNext k n => 3 * (n - k) + 2
  | ISpawn c => S (sum_list_with (cost bound) c)
  | _ => 1
  end.

Definition work (bound : nat) (s : state) : nat :=
  sum_list_with (sum_list_with (cost bound)) (threads s).

(** ** Bookkeeping for the further properties *)

(** The characters written by an executed instruction, each with the thread
    that wrote it, and the characters written along a schedule. *)
Definition put_event (e : tid * instr) : list (tid * ascii) :=
  match e.2 with
  | IPut str => map (pair e.1) str
  | _ => []
  end.

Definition written (sched : list tid) (s : state) : list (tid * ascii) :=
  flat_map put_event (trace sched s).

(** What thread [t] contributed to a tagged list, in order. *)
Definition share {A} (t : tid) (l : list (tid * A)) : list A :=
  (filter (fun e => e.1 = t) l).*2.

(** [main] of [scrambled.cpp], for any list of texts. *)
Definition scrambled (msgs : list (list ascii)) : code :=
  program (map printString_scrambled msgs) [endl].

(** The invariant of [scrambled.cpp]; [w] is what has been written. *)
Record scr_inv (msgs : list (list ascii)) (w : list (tid * ascii))
    (s : state) (p : nat) : Prop := {
  sc_str : structure (map printString_scrambled msgs) [endl] s p;
  sc_at : forall j k, threads s !! S j = Some k ->
          exists r, (k = put_chars r \/ k = ISleep :: put_chars r) /\
                    share (S j) w ++ r = msgs !!! j;
  sc_tid : forall e, e ∈ w -> e.1 < length (threads s);
  sc_main : share 0 w = if decide (2 * length msgs < p) then endl else [];
  sc_last : 2 * length msgs < p -> exists wk, w = wk ++ map (pair 0) endl
}.

(** The instructions between [lock()] and [unlock()], [unlock()] included. *)
Definition critical (i : instr) : bool :=
  match i with
  | IPushBack _ | IStore _ _ | IForBegin | IForNext _ _ | IPut _ | IUnlock =>
      true
  | _ => false
  end.

(** Where a thread stands inside one call of [print] that found the vector
    [v0] and returns to [k], and what the call has written so far. *)
Inductive print_at (v0 : list Z) (k : code) : code -> list ascii -> Prop :=
| pa_begin :
    print_at v0 k (IForBegin :: IPut endl :: IUnlock :: k) []
| pa_next j :
    j <= length v0 ->
    print_at v0 k (IForNext j (length v0) :: IPut endl :: IUnlock :: k)
      (render (take j v0))
| pa_int j x :
    v0 !! j = Some x ->
    print_at v0 k (IPut (dec x) :: IPut sep :: IForNext (S j) (length v0)
                     :: IPut endl :: IUnlock :: k)
      (render (take j v0))
| pa_sep j x :
    v0 !! j = Some x ->
    print_at v0 k (IPut sep :: IForNext (S j) (length v0)
                     :: IPut endl :: IUnlock :: k)
      (render (take j v0) ++ dec x)
| pa_endl :
    print_at v0 k (IPut endl :: IUnlock :: k) (render v0)
| pa_unlock :
    print_at v0 k (IUnlock :: k) (render v0 ++ endl).

(** The complete lines of an output: the texts that a newline ends, in
    order; [cur] holds the line being read, last character first. *)
Fixpoint split_lines (cur out : list ascii) : list (list ascii) :=
  match out with
  | [] => []
  | c :: out' =>
      if Ascii.eqb c "010" then rev cur :: split_lines [] out'
      else split_lines (c :: cur) out'
  end.

Definition output_lines (out : list ascii) : list (list ascii) :=
  split_lines [] out.

(** The steps that one call takes at most, when the vector holds at most [n]
    elements: [lock], find the end, store, [unlock] for [push_back]; [lock],
    the loop with three steps per element and its exit, the newline and
    [unlock] for [print]. *)
Definition call_steps (n : nat) (c : call) : nat :=
  match c with
  | CPushBack _ => 4
  | CPrint => 3 * n + 6
  | CSleep => 1
  end.

(** * Properties *)

(** ** Schedules and traces *)

Lemma run_app sched1 sched2 s :
  run (sched1 ++ sched2) s =
  match run sched1 s with Some s1 => run sched2 s1 | None => None end.
Proof.
  revert s. induction sched1 as [|t sched1 IH]; intros s; simpl; [done|].
  destruct (step t s); [apply IH | done].
Qed.

Lemma run_snoc sched t s s' :
  run (sched ++ [t]) s = Some s' <->
  exists s1, run sched s = Some s1 /\ step t s1 = Some s'.
Proof.
  rewrite run_app. split.
  - destruct (run sched s) as [s1|]; [|done]. simpl.
    destruct (step t s1) eqn:E; [|done]. intros [= <-]. eauto.
  - intros (s1 & -> & H). simpl. by rewrite H.
Qed.

Lemma step_next_instr t s s' :
  step t s = Some s' -> exists i, next_instr t s = Some i.
Proof.
  unfold step, next_instr. destruct (exit_status s); [done|].
  destruct (threads s !! t) as [[|i k]|]; try done. eauto.
Qed.

Lemma trace_snoc sched t s s1 s' i :
  run sched s = Some s1 -> step t s1 = Some s' -> next_instr t s1 = Some i ->
  trace (sched ++ [t]) s = trace sched s ++ [(t, i)].
Proof.
  revert s. induction sched as [|u sched IH]; intros s; simpl.
  - intros [= ->] -> ->. done.
  - destruct (step u s) as [s2|] eqn:E; [|done]. intros Hrun Hst Hi.
    destruct (step_next_instr _ _ _ E) as [i' ->]. simpl. f_equal. by apply IH.
Qed.

(** Every step uses up some of the work left. *)
Lemma sum_list_with_insert {A} (f : A -> nat) (l : list A) t x y :
  l !! t = Some x ->
  sum_list_with f (<[t := y]> l) + f x = sum_list_with f l + f y.
Proof.
  revert t. induction l as [|z l IH]; intros [|t] Hl; simplify_eq/=; [lia|].
  specialize (IH _ Hl). lia.
Qed.

Lemma step_work bound t s s' :
  step t s = Some s' ->
  (next_instr t s = Some IForBegin -> length (vec (sh s)) <= bound) ->
  work bound s' < work bound s.
Proof.
  unfold step, work, next_instr. intros Hs Hb.
  destruct (exit_status s); [done|].
  destruct (threads s !! t) as [[|i k]|] eqn:Ht; try done.
  assert (forall k' o, resume t k' s o = Some s' ->
            threads s' = <[t := k']> (threads s)) as Hres.
  { intros k' [x| | |]; simpl; try done. by intros [= <-]. }
  assert (forall k', threads s' = <[t := k']> (threads s) ->
            sum_list_with (cost bound) k'
              < sum_list_with (cost bound) (i :: k) ->
            sum_list_with (sum_list_with (cost bound)) (threads s')
              < sum_list_with (sum_list_with (cost bound)) (threads s))
    as Hlt.
  { intros k' -> Hk.
    pose proof (sum_list_with_insert (sum_list_with (cost bound))
                  _ _ _ k' Ht). lia. }
  destruct i;
    try (apply Hres in Hs; eapply Hlt;
         [exact Hs | try specialize (Hb eq_refl); simpl; lia]).
  - destruct (k0 <? n) eqn:E; apply Hres in Hs; eapply Hlt;
      try exact Hs; simpl.
    + apply Nat.ltb_lt in E. lia.
    + lia.
  - injection Hs as <-. simpl. rewrite sum_list_with_app. simpl.
    pose proof (sum_list_with_insert (sum_list_with (cost bound))
                  _ _ _ k Ht) as Hi. simpl in Hi. lia.
  - destruct (threads s !! u) as [[|]|]; try done.
    apply Hres in Hs. eapply Hlt; [exact Hs | simpl; lia].
  - injection Hs as <-. simpl. eapply Hlt; [done | simpl; lia].
Qed.

(** ** Programs of the shape [main_code workers (puts ++ [return 0])] *)

(** A worker's step touches only its own continuation and the shared
    objects. *)
Lemma step_worker t s s' i k :
  threads s !! t = Some (i :: k) -> worker_instr i = true ->
  step t s = Some s' ->
  exists k', threads s' = <[t := k']> (threads s) /\
             exit_status s' = None /\ exit_status s = None /\
             (plain k -> plain k').
Proof.
  intros Ht Hi Hs. unfold step in Hs. rewrite Ht in Hs.
  destruct (exit_status s) eqn:Hex; [done|].
  assert (forall k1 o, resume t k1 s o = Some s' ->
            threads s' = <[t := k1]> (threads s) /\ exit_status s' = None)
    as Hres.
  { intros k1 [x| | |]; simpl; try done. intros [= <-]. by rewrite Hex. }
  destruct i; try done;
    try (apply Hres in Hs as [? ?]; eexists; repeat split; eauto; fail).
  - apply Hres in Hs as [? ?]. eexists; repeat split; eauto.
    intros Hk. by constructor.
  - apply Hres in Hs as [? ?]. eexists; repeat split; eauto.
    intros Hk. by constructor.
  - destruct (k0 <? n).
    + apply Hres in Hs as [? ?]. eexists; repeat split; eauto.
      intros Hk. by repeat constructor.
    + apply Hres in Hs as [? ?]. eexists; repeat split; eauto.
Qed.

Section Structure.
Variable workers : list code.
Variable outs : list (list ascii).
Hypothesis workers_plain : Forall plain workers.

Local Abbreviation N := (length workers).
Local Abbreviation program := (program workers outs).
Local Abbreviation structure := (structure workers outs).
Local Abbreviation main_step := (main_step workers outs).
Local Abbreviation st_main := (st_main workers outs).
Local Abbreviation st_pc := (st_pc workers outs).
Local Abbreviation st_len := (st_len workers outs).
Local Abbreviation st_plain := (st_plain workers outs).
Local Abbreviation st_joined := (st_joined workers outs).
Local Abbreviation st_exit := (st_exit workers outs).

Lemma program_length : length program = (2 * N + length outs + 1).
Proof.
  unfold program, main_code.
  rewrite !length_app, !length_map, length_seq. cbn [length]. lia.
Qed.

Lemma program_spawn p c :
  workers !! p = Some c -> program !! p = Some (ISpawn c).
Proof.
  intros H. unfold program, main_code.
  rewrite lookup_app_l by (rewrite length_map; by eapply lookup_lt_Some).
  by rewrite list_lookup_fmap, H.
Qed.

Lemma program_join j :
  (j < N) -> program !! (N + j) = Some (IJoin (S j)).
Proof.
  intros H. unfold program, main_code.
  rewrite lookup_app_r by (rewrite length_map; lia).
  rewrite length_map. replace (N + j - length workers) with j by (lia).
  rewrite lookup_app_l by (rewrite length_map, length_seq; done).
  rewrite list_lookup_fmap, lookup_seq_lt by done. done.
Qed.

Lemma program_put j o :
  outs !! j = Some o -> program !! (2 * N + j) = Some (IPut o).
Proof.
  intros H. unfold program, main_code.
  rewrite lookup_app_r by (rewrite length_map; lia).
  rewrite lookup_app_r by (rewrite !length_map, length_seq; lia).
  rewrite !length_map, length_seq.
  replace (2 * N + j - length workers - length workers) with j
    by (lia).
  rewrite lookup_app_l by (rewrite length_map; by eapply lookup_lt_Some).
  by rewrite list_lookup_fmap, H.
Qed.

Lemma program_return :
  program !! (2 * N + length outs) = Some (IReturn 0%Z).
Proof.
  unfold program, main_code.
  rewrite lookup_app_r by (rewrite length_map; lia).
  rewrite lookup_app_r by (rewrite !length_map, length_seq; lia).
  rewrite !length_map, length_seq.
  replace (2 * N + length outs - length workers - length workers)
    with (length outs) by (lia).
  rewrite lookup_app_r by (rewrite length_map; done).
  rewrite length_map, Nat.sub_diag. done.
Qed.

Lemma structure_boot : structure (boot program) 0.
Proof.
  split; simpl; try done.
  - lia.
  - intros j ? ?. lia.
  - rewrite program_length. case_decide; [lia | done].
Qed.

Lemma step_main s p s' :
  structure s p -> step 0 s = Some s' -> main_step s p s'.
Proof.
  intros St Hs. unfold step in Hs.
  pose proof (st_exit _ _ St) as Hex. pose proof (st_main _ _ St) as Hm.
  pose proof (st_pc _ _ St) as Hpc. rewrite program_length in Hpc.
  destruct s as [sh0 ths ex]. simpl in *.
  case_decide as Hp; subst ex; [done|]. rewrite program_length in Hp.
  rewrite Hm in Hs.
  destruct (decide (p < N)) as [H1|H1].
  { destruct (lookup_lt_is_Some_2 workers p H1) as [c Hc].
    rewrite (drop_S _ _ _ (program_spawn _ _ Hc)) in Hs.
    injection Hs as <-. by constructor. }
  destruct (decide (p < 2 * N)) as [H2|H2].
  { assert (p - N < N) as Hj by lia.
    pose proof (program_join _ Hj) as Hl.
    replace (N + (p - N)) with p in Hl by lia.
    rewrite (drop_S _ _ _ Hl) in Hs.
    destruct (ths !! S (p - N)) as [[|]|] eqn:E; try done.
    injection Hs as <-. eapply ms_join; [exact Hj | lia | done]. }
  destruct (decide (p < 2 * N + length outs)) as [H3|H3].
  { assert (p - 2 * N < length outs) as Hj by lia.
    destruct (lookup_lt_is_Some_2 outs _ Hj) as [o Ho].
    pose proof (program_put _ _ Ho) as Hl.
    replace (2 * N + (p - 2 * N)) with p in Hl by lia.
    rewrite (drop_S _ _ _ Hl) in Hs. injection Hs as <-.
    eapply ms_put; [exact Ho | lia]. }
  assert (p = 2 * N + length outs) as -> by lia.
  rewrite (drop_S _ _ _ program_return) in Hs. injection Hs as <-.
  by constructor.
Qed.

Lemma structure_main s p s' :
  structure s p -> main_step s p s' -> structure s' (S p).
Proof.
  intros St Hm.
  pose proof (st_len _ _ St) as Hlen. pose proof (st_pc _ _ St) as Hpc.
  rewrite program_length in Hpc.
  assert (forall j, <[0 := drop (S p) program]> (threads s) !! S j
                    = threads s !! S j) as Hne
    by (intros j; by apply list_lookup_insert_ne).
  assert (<[0 := drop (S p) program]> (threads s) !! 0
          = Some (drop (S p) program)) as Heq
    by (apply list_lookup_insert_eq; lia).
  destruct Hm as [c Hc | j Hj -> Hdone | j o Ho -> | ->].
  - pose proof (lookup_lt_Some _ _ _ Hc) as Hlt.
    split; cbn [threads sh exit_status].
    + rewrite lookup_app_l by (rewrite length_insert; lia). done.
    + rewrite program_length. lia.
    + rewrite length_app, length_insert, Hlen. cbn [length]. lia.
    + intros j w. destruct (decide (S j < length (threads s))) as [Hj|Hj].
      * rewrite lookup_app_l by (rewrite length_insert; lia).
        rewrite Hne. apply (st_plain _ _ St).
      * rewrite lookup_app_r by (rewrite length_insert; lia).
        rewrite length_insert. intros Hw.
        apply list_lookup_singleton_Some in Hw as [_ <-].
        eapply Forall_lookup_1; [apply workers_plain | exact Hc].
    + intros j ? ?. lia.
    + rewrite program_length. case_decide; [lia | done].
  - split; cbn [threads sh exit_status]; try done.
    + rewrite program_length. lia.
    + rewrite length_insert, Hlen. lia.
    + intros j' w. rewrite Hne. apply (st_plain _ _ St).
    + intros j' ? ?. rewrite Hne.
      destruct (decide (j' = j)) as [->|]; [done|].
      apply (st_joined _ _ St); lia.
    + rewrite program_length. case_decide; [lia | done].
  - pose proof (lookup_lt_Some _ _ _ Ho).
    split; cbn [threads sh exit_status]; try done.
    + rewrite program_length. lia.
    + rewrite length_insert, Hlen. lia.
    + intros j' w. rewrite Hne. apply (st_plain _ _ St).
    + intros j' ? ?. rewrite Hne. apply (st_joined _ _ St); lia.
    + rewrite program_length. case_decide; [lia | done].
  - split; cbn [threads sh exit_status]; try done.
    + rewrite program_length. lia.
    + rewrite length_insert, Hlen. lia.
    + intros j' w. rewrite Hne. apply (st_plain _ _ St).
    + intros j' ? ?. rewrite Hne. apply (st_joined _ _ St); lia.
    + rewrite program_length. case_decide; [done | lia].
Qed.

Lemma structure_worker s p j s' :
  structure s p -> step (S j) s = Some s' -> structure s' p.
Proof.
  intros St Hs.
  destruct (threads s !! S j) as [[|i k]|] eqn:Ht;
    try (unfold step in Hs; rewrite Ht in Hs;
         by destruct (exit_status s)).
  pose proof (st_plain _ _ St _ _ Ht) as Hpl.
  apply Forall_cons in Hpl as [Hi Hk].
  destruct (step_worker _ _ _ _ _ Ht Hi Hs) as (k' & Hth & Hex' & Hex & Hk').
  pose proof (st_exit _ _ St) as Hst. rewrite Hex in Hst.
  split.
  - rewrite Hth, list_lookup_insert_ne by done. apply (st_main _ _ St).
  - apply (st_pc _ _ St).
  - rewrite Hth, length_insert. apply (st_len _ _ St).
  - intros j' w. rewrite Hth.
    destruct (decide (j' = j)) as [->|Hne].
    + rewrite list_lookup_insert_eq by (by eapply lookup_lt_Some).
      intros [= <-]. auto.
    + rewrite list_lookup_insert_ne by congruence. apply (st_plain _ _ St).
  - intros j' ? ?. rewrite Hth.
    destruct (decide (j' = j)) as [->|Hne].
    + by rewrite (st_joined _ _ St j) in Ht by done.
    + rewrite list_lookup_insert_ne by congruence.
      by apply (st_joined _ _ St).
  - by rewrite Hex'.
Qed.

Lemma main_next_instr s p i :
  structure s p -> next_instr 0 s = Some i ->
  (exists c, i = ISpawn c) \/ (exists u, i = IJoin u) \/
  (exists o, i = IPut o /\ o ∈ outs) \/ i = IReturn 0%Z.
Proof.
  intros St. unfold next_instr. rewrite (st_main _ _ St).
  destruct (drop p program) as [|i' k] eqn:E; [done|]. intros [= ->].
  assert (i ∈ program) as Hin.
  { apply (list_elem_of_lookup_2 _ p). rewrite <- (Nat.add_0_r p).
    rewrite <- lookup_drop, E. done. }
  unfold program, main_code in Hin.
  rewrite !elem_of_app, !list_elem_of_fmap, list_elem_of_singleton in Hin.
  destruct Hin as [(? & -> & _) | [(? & -> & _) | [(? & -> & ?) | ->]]];
    eauto 6.
Qed.

Lemma main_next_not_lock s p i :
  structure s p -> next_instr 0 s = Some i -> lock_event (0, i) = None.
Proof.
  intros St Hi.
  by destruct (main_next_instr _ _ _ St Hi)
    as [[? ->] | [[? ->] | [(? & -> & _) | ->]]].
Qed.

(** Every state of a run has the structure, for some position of [main]. *)
Lemma structure_step s p t s' :
  structure s p -> step t s = Some s' ->
  structure s' (if decide (t = 0) then S p else p).
Proof.
  intros St Hs. destruct t as [|j]; simpl.
  - eapply structure_main; [done|]. by apply step_main.
  - by eapply structure_worker.
Qed.

Lemma structure_run sched s :
  run sched (boot program) = Some s -> exists p, structure s p.
Proof.
  revert s. induction sched as [|t sched IH] using rev_ind; intros s.
  - intros [= <-]. exists 0. apply structure_boot.
  - intros (s1 & H1 & H2)%run_snoc. destruct (IH _ H1) as [p St].
    eexists. by eapply structure_step.
Qed.

(** A finished run has exited with status 0, and no run exits otherwise. *)
Lemma structure_finished s p :
  structure s p -> finished s -> p = length program.
Proof.
  intros St Hf. pose proof (st_main _ _ St) as Hm.
  pose proof (st_pc _ _ St).
  eapply Forall_lookup_1 in Hf; [|exact Hm].
  apply (f_equal length) in Hf. rewrite length_drop in Hf. simpl in Hf. lia.
Qed.

Lemma exit_zero sched s :
  run sched (boot program) = Some s ->
  (finished s -> exit_status s = Some 0%Z) /\
  (forall z, exit_status s = Some z -> z = 0%Z).
Proof.
  intros (p & St)%structure_run. pose proof (st_exit _ _ St) as Hex. split.
  - intros Hf. rewrite Hex.
    rewrite decide_True; [done | by eapply structure_finished].
  - intros z. rewrite Hex. case_decide; congruence.
Qed.
End Structure.

(** ** [unscrambled.cpp]: the texts are written one after the other *)

Lemma owed_put_chars v r : owed v (put_chars r ++ [IUnlock]) = r.
Proof. induction r as [|c r IH]; simpl; [done | by rewrite IH]. Qed.

Lemma printString_plain m : plain (printString m).
Proof.
  unfold printString, put_chars. repeat constructor.
  apply Forall_app. split; [|by repeat constructor].
  induction m; simpl; by repeat constructor.
Qed.

Lemma sink_at_cons m i k ph :
  sink_at m (i :: k) ph ->
  (ph = New /\ i = ILock /\ k = put_chars m ++ [IUnlock]) \/
  (ph = Busy /\ i = IUnlock /\ k = []) \/
  (ph = Busy /\ exists c r, i = IPut [c] /\
                            k = ISleep :: put_chars r ++ [IUnlock]) \/
  (ph = Busy /\ i = ISleep /\ exists r, k = put_chars r ++ [IUnlock]).
Proof.
  inversion 1 as [| r Hr | r |]; subst.
  - by left.
  - destruct r as [|c r]; simplify_eq/=.
    + right. by left.
    + right. right. left. eauto.
  - right. right. right. eauto.
Qed.

Section Sink.
Variable msgs : list (list ascii).

Local Abbreviation N := (length msgs).
Local Abbreviation workers := (map printString msgs).
Local Abbreviation outs := [endl].
Local Abbreviation message_of := (message_of msgs).
Local Abbreviation unscrambled := (unscrambled msgs).
Local Abbreviation sink_inv := (sink_inv msgs).
Local Abbreviation si_str := (si_str msgs).
Local Abbreviation si_nodup := (si_nodup msgs).
Local Abbreviation si_order := (si_order msgs).
Local Abbreviation si_owner := (si_owner msgs).
Local Abbreviation si_at := (si_at msgs).
Local Abbreviation si_out := (si_out msgs).

Lemma sink_workers_plain : Forall plain workers.
Proof. apply Forall_fmap, Forall_true. intros m. apply printString_plain. Qed.

Lemma sink_inv_boot : sink_inv [] (boot unscrambled) 0.
Proof.
  split; simpl; try done.
  - apply structure_boot.
  - constructor.
  - intros t Ht. by apply elem_of_nil in Ht.
Qed.

Lemma sink_worker_code p c :
  workers !! p = Some c -> c = printString (msgs !!! p).
Proof.
  change workers with (printString <$> msgs). rewrite list_lookup_fmap.
  destruct (msgs !! p) as [m|] eqn:E; [|done]. intros [= <-].
  by rewrite (list_lookup_total_correct _ _ _ E).
Qed.

(** Steps of [main] that leave the shared objects alone. *)
Lemma sink_inv_frame order s p s' p' :
  sink_inv order s p -> structure workers outs s' p' ->
  sh s' = sh s ->
  length (threads s) <= length (threads s') ->
  (forall j, S j < length (threads s) ->
             threads s' !! S j = threads s !! S j) ->
  (forall j w, length (threads s) <= S j -> threads s' !! S j = Some w ->
               w = printString (msgs !!! j)) ->
  (2 * N < p' <-> 2 * N < p) ->
  sink_inv order s' p'.
Proof.
  intros [St Hnd Hord Hown Hat Hout] St' Hsh Hlen Hsame Hnew Hp.
  split; try done.
  - intros t Ht. specialize (Hord t Ht). lia.
  - intros t Ht. rewrite Hsh in Ht. specialize (Hown t Ht). lia.
  - intros j w Hw. rewrite Hsh.
    destruct (decide (S j < length (threads s))) as [Hj|Hj].
    + rewrite Hsame in Hw by done. by apply Hat.
    + rewrite (Hnew j w) by (done || lia). exists New.
      split; [constructor|]. split.
      * split; [done|]. intros Hm. apply Hown in Hm. lia.
      * split; [|done]. intros _ Hin. apply Hord in Hin. lia.
  - unfold debt in *. rewrite Hsh.
    replace (if decide (2 * N < p') then endl else [])
      with (if decide (2 * N < p) then endl else [])
      by (repeat case_decide; tauto || done).
    rewrite <- Hout. destruct (mut (sh s)) as [t|] eqn:Hm; [|done].
    destruct (Hown t eq_refl) as [H0 Hlt]. destruct t as [|j]; [lia|].
    by rewrite Hsame.
Qed.

Lemma sink_inv_main order s p s' :
  sink_inv order s p -> step 0 s = Some s' -> sink_inv order s' (S p).
Proof.
  intros Inv Hs. pose proof (si_str _ _ _ Inv) as St.
  pose proof (step_main _ _ _ _ _ St Hs) as Hm.
  pose proof (structure_main _ _ sink_workers_plain _ _ _ St Hm) as St'.
  pose proof (st_len _ _ _ _ St) as Hlen.
  assert (forall j, <[0 := drop (S p) (program workers outs)]> (threads s)
                      !! S j = threads s !! S j) as Hne
    by (intros j; by apply list_lookup_insert_ne).
  assert (length workers = N) as HN by apply length_map.
  destruct Hm as [c Hc | j Hj -> Hdone | j o Ho -> | ->].
  - pose proof (lookup_lt_Some _ _ _ Hc) as Hlt.
    eapply sink_inv_frame; try done; simpl.
    + rewrite length_app, length_insert. lia.
    + intros j Hj. rewrite lookup_app_l by (rewrite length_insert; lia).
      apply Hne.
    + intros j w Hj. rewrite lookup_app_r by (rewrite length_insert; lia).
      rewrite length_insert. intros [Hi <-]%list_lookup_singleton_Some.
      replace j with p by lia. by apply sink_worker_code.
    + lia.
  - eapply sink_inv_frame; try done; simpl.
    + by rewrite length_insert.
    + intros j' w Hj'. rewrite Hne. intros Hw%lookup_lt_Some. lia.
    + lia.
  - destruct j; [|by destruct j]. injection Ho as <-.
    (* every worker has been joined, so the mutex is free *)
    assert (mut (sh s) = None) as Hfree.
    { destruct (mut (sh s)) as [t|] eqn:Hmut; [|done].
      destruct (si_owner _ _ _ Inv t Hmut) as [H0 Hlt].
      destruct t as [|j]; [lia|].
      assert (j < length workers) as Hj by lia.
      pose proof (st_joined _ _ _ _ St j Hj ltac:(lia)) as Hnil.
      destruct (si_at _ _ _ Inv _ _ Hnil) as (ph & Hph & Hbusy & _).
      apply Hbusy in Hmut as ->. inversion Hph as [| r Hr | |].
      by destruct r. }
    destruct Inv as [_ Hnd Hord Hown Hat Hout].
    split; try done; simpl.
    + intros t Ht. rewrite length_insert. by apply Hord.
    + intros t Ht. congruence.
    + intros j w. rewrite Hne. apply Hat.
    + unfold debt in *. simpl. rewrite Hfree in *.
      rewrite decide_False in Hout by lia. rewrite decide_True by lia.
      rewrite !app_nil_r in *. by rewrite Hout.
  - eapply sink_inv_frame; try done; simpl.
    + by rewrite length_insert.
    + intros j' w Hj'. rewrite Hne. intros Hw%lookup_lt_Some. lia.
    + simpl. lia.
Qed.

Lemma sink_inv_worker order s p j s' i :
  sink_inv order s p -> step (S j) s = Some s' ->
  next_instr (S j) s = Some i ->
  sink_inv (order ++ omap lock_event [(S j, i)]) s' p.
Proof.
  intros Inv Hs Hi. pose proof (si_str _ _ _ Inv) as St.
  pose proof (structure_worker _ _ _ _ _ _ St Hs) as St'.
  assert (length workers = N) as HN by apply length_map.
  unfold next_instr in Hi.
  destruct (threads s !! S j) as [[|i' k]|] eqn:Ht; try done.
  injection Hi as ->.
  pose proof (lookup_lt_Some _ _ _ Ht) as Hlt.
  pose proof (st_len _ _ _ _ St) as Hlen.
  assert (p <= N + j) as Hp.
  { destruct (decide (N + j < p)) as [Hc|]; [|lia].
    rewrite (st_joined _ _ _ _ St j) in Ht by lia. done. }
  pose proof (st_exit _ _ _ _ St) as Hex.
  rewrite program_length, decide_False in Hex by lia.
  destruct Inv as [_ Hnd Hord Hown Hat Hout].
  rewrite decide_False, app_nil_r in Hout by lia.
  destruct (Hat _ _ Ht) as (ph & Hph & Hbusy & Hnew).
  assert (forall j' k', j' <> j ->
            <[S j := k']> (threads s) !! S j' = threads s !! S j') as Hne
    by (intros; apply list_lookup_insert_ne; congruence).
  assert (forall k', <[S j := k']> (threads s) !! S j = Some k') as Heq
    by (intros; by apply list_lookup_insert_eq).
  unfold step in Hs. rewrite Hex, Ht in Hs. unfold debt in Hout.
  destruct (sink_at_cons _ _ _ _ Hph)
    as [(-> & -> & ->) | [(-> & -> & ->) |
        [(-> & c & r & -> & ->) | (-> & -> & r & ->)]]].
  - (* a new thread takes the mutex *)
    simpl in Hs. unfold mut_lock in Hs.
    destruct (mut (sh s)) as [u|] eqn:Hmut.
    { case_decide; [|done]. subst u. destruct Hbusy as [_ Hb].
      discriminate (Hb eq_refl). }
    injection Hs as <-. simpl.
    assert (S j ∉ order) as Hfresh by (by apply Hnew).
    split; try done; cbn [sh mut vec cout threads exit_status].
    + apply NoDup_app. repeat split; [done | | apply NoDup_singleton].
      intros t Hin ->%list_elem_of_singleton. done.
    + intros t [Hin | ->%list_elem_of_singleton]%elem_of_app;
        rewrite length_insert; [by apply Hord | lia].
    + intros t [= <-]. rewrite length_insert. lia.
    + intros j' w. destruct (decide (j' = j)) as [->|Hj'].
      * rewrite Heq. intros [= <-]. exists Busy.
        split; [apply sink_put|]. split; [done|]. split; [done|].
        intros Hn. exfalso. apply Hn, elem_of_app. right. by left.
      * rewrite Hne by done. intros Hw.
        destruct (Hat _ _ Hw) as (ph' & Hph' & Hbusy' & Hnew').
        exists ph'. split; [done|]. split.
        -- split; [by intros ?%Hbusy' | intros [= ?]; lia].
        -- rewrite Hnew'. rewrite elem_of_app, list_elem_of_singleton.
           split; [intros ? [?|[= ?]]; done || lia | tauto].
    + unfold debt; cbn [sh mut vec cout threads]. rewrite Heq, owed_put_chars.
      rewrite decide_False, app_nil_r by lia. rewrite app_nil_r in Hout.
      rewrite map_app, concat_app. simpl. rewrite app_nil_r, <- Hout.
      unfold message_of. by rewrite Nat.sub_1_r.
  - (* unlock *)
    assert (mut (sh s) = Some (S j)) as Hmut by (by apply Hbusy).
    rewrite Hmut, Ht in Hout. rewrite app_nil_r. simpl in Hs.
    unfold mut_unlock in Hs. rewrite Hmut, decide_True in Hs by done.
    injection Hs as <-. split; try done; cbn [sh mut vec cout threads exit_status].
    + intros t. rewrite length_insert. apply Hord.
    + intros j' w. destruct (decide (j' = j)) as [->|Hj'].
      * rewrite Heq. intros [= <-]. exists Done.
        split; [constructor|]. split; [done|].
        split; [done|]. intros Hn. by apply Hnew in Hn.
      * rewrite Hne by done. intros Hw.
        destruct (Hat _ _ Hw) as (ph' & Hph' & Hbusy' & Hnew').
        exists ph'. split; [done|]. split; [|done].
        split; [|done]. intros ->. destruct Hbusy' as [Hb _].
        specialize (Hb eq_refl). congruence.
    + unfold debt; cbn [sh mut vec cout threads]. rewrite decide_False by lia.
      by rewrite !app_nil_r in *.
  - (* write one character *)
    assert (mut (sh s) = Some (S j)) as Hmut by (by apply Hbusy).
    rewrite Hmut, Ht in Hout. rewrite app_nil_r. simpl in Hs.
    injection Hs as <-. split; try done; cbn [sh mut vec cout threads exit_status].
    + intros t. rewrite length_insert. apply Hord.
    + intros t. rewrite length_insert. apply Hown.
    + intros j' w. destruct (decide (j' = j)) as [->|Hj'].
      * rewrite Heq. intros [= <-]. exists Busy.
        split; [apply sink_sleep|]. done.
      * rewrite Hne by done. apply Hat.
    + unfold debt; cbn [sh mut vec cout threads]. rewrite Hmut, Heq. cbn [owed].
      rewrite decide_False, app_nil_r by lia. cbn [owed] in Hout.
      rewrite owed_put_chars in *. by rewrite <- app_assoc.
  - (* the pause after a character *)
    assert (mut (sh s) = Some (S j)) as Hmut by (by apply Hbusy).
    rewrite Hmut, Ht in Hout. rewrite app_nil_r.
    simpl in Hs. injection Hs as <-.
    split; try done; cbn [sh mut vec cout threads exit_status].
    + intros t. rewrite length_insert. apply Hord.
    + intros t. rewrite length_insert. apply Hown.
    + intros j' w. destruct (decide (j' = j)) as [->|Hj'].
      * rewrite Heq. intros [= <-]. exists Busy.
        split; [apply sink_put|]. done.
      * rewrite Hne by done. apply Hat.
    + unfold debt; cbn [sh mut vec cout threads]. rewrite Hmut, Heq.
      rewrite decide_False, app_nil_r by lia. done.
Qed.

Lemma sink_inv_run sched s :
  run sched (boot unscrambled) = Some s ->
  exists p, sink_inv (lock_order sched (boot unscrambled)) s p.
Proof.
  revert s. induction sched as [|t sched IH] using rev_ind; intros s.
  - intros [= <-]. exists 0. apply sink_inv_boot.
  - intros (s1 & H1 & H2)%run_snoc. destruct (IH _ H1) as [p Inv].
    destruct (step_next_instr _ _ _ H2) as [i Hi].
    unfold lock_order. rewrite (trace_snoc _ _ _ _ _ _ H1 H2 Hi), omap_app.
    destruct t as [|j].
    + exists (S p). simpl.
      rewrite (main_next_not_lock _ _ _ _ _ (si_str _ _ _ Inv) Hi), app_nil_r.
      by eapply sink_inv_main.
    + exists p. by eapply sink_inv_worker.
Qed.

Lemma message_of_seq : map message_of (seq 1 N) = msgs.
Proof.
  apply list_eq. intros j. rewrite list_lookup_fmap.
  destruct (decide (j < N)) as [Hj|Hj].
  - rewrite lookup_seq_lt by done. simpl. unfold message_of.
    replace (S j - 1) with j by lia.
    by rewrite <- list_lookup_lookup_total_lt.
  - rewrite lookup_seq_ge by lia. simpl. symmetry.
    apply lookup_ge_None. lia.
Qed.

(** When all threads are done, every worker has had the mutex once. *)
Lemma sink_inv_finished order s p :
  sink_inv order s p -> finished s ->
  order ≡ₚ seq 1 N /\
  cout (sh s) = concat (map message_of order) ++ endl.
Proof.
  intros Inv Hfin. pose proof (si_str _ _ _ Inv) as St.
  pose proof (structure_finished _ _ _ _ St Hfin) as ->.
  pose proof (st_len _ _ _ _ St) as Hlen.
  assert (length workers = N) as HN by apply length_map.
  rewrite program_length in Hlen.
  assert (forall j, j < N -> threads s !! S j = Some []) as Hnil.
  { intros j Hj. destruct (lookup_lt_is_Some_2 (threads s) (S j)) as [w Hw].
    { rewrite Hlen. lia. }
    rewrite Hw. f_equal. by eapply (Forall_lookup_1 _ _ _ _ Hfin). }
  assert (forall j ph, j < N -> sink_at (msgs !!! j) [] ph -> ph = Done)
    as Hdone.
  { intros j ph _. inversion 1 as [| r Hr | |]; [|done]. by destruct r. }
  split.
  - apply NoDup_Permutation; [apply (si_nodup _ _ _ Inv) | apply NoDup_seq |].
    intros t. rewrite elem_of_seq. split.
    + intros Ht%(si_order _ _ _ Inv). lia.
    + intros Ht. destruct t as [|j]; [lia|].
      destruct (si_at _ _ _ Inv j [] (Hnil j ltac:(lia)))
        as (ph & Hph & _ & Hnew).
      apply Hdone in Hph as ->; [|lia].
      destruct (decide (S j ∈ order)) as [|Hn]; [done|].
      by apply Hnew in Hn.
  - pose proof (si_out _ _ _ Inv) as Hout.
    rewrite program_length, decide_True in Hout by lia.
    rewrite <- Hout. unfold debt.
    destruct (mut (sh s)) as [t|] eqn:Hmut; [|by rewrite app_nil_r].
    destruct (si_owner _ _ _ Inv t Hmut) as [H0 Hlt].
    destruct t as [|j]; [lia|]. rewrite Hnil by lia. by rewrite app_nil_r.
Qed.

(** No deadlock, and termination. *)
Lemma sink_inv_progress order s p :
  sink_inv order s p -> finished s \/ exists t s', step t s = Some s'.
Proof.
  intros Inv. pose proof (si_str _ _ _ Inv) as St.
  pose proof (st_len _ _ _ _ St) as Hlen.
  pose proof (st_pc _ _ _ _ St) as Hpc.
  pose proof (st_main _ _ _ _ St) as Hmain.
  pose proof (st_exit _ _ _ _ St) as Hex.
  assert (length workers = N) as HN by apply length_map.
  rewrite program_length in Hpc. simpl in Hpc.
  destruct (decide (p = length (program workers outs))) as [Hp|Hp].
  { left. rewrite program_length in Hp. simpl in Hp.
    apply Forall_lookup. intros [|j] w Hw.
    - rewrite Hmain, drop_ge in Hw by (rewrite program_length; simpl; lia).
      by injection Hw.
    - pose proof (lookup_lt_Some _ _ _ Hw).
      rewrite (st_joined _ _ _ _ St j) in Hw by lia. by injection Hw. }
  right. rewrite program_length in Hp. simpl in Hp.
  destruct (mut (sh s)) as [t|] eqn:Hm.
  - (* the owner of the mutex is never blocked *)
    destruct (si_owner _ _ _ Inv t Hm) as [H0 Hlt].
    destruct t as [|j]; [lia|].
    destruct (lookup_lt_is_Some_2 _ _ Hlt) as [w Hw].
    destruct (si_at _ _ _ Inv _ _ Hw) as (ph & Hat & Hbusy & _).
    assert (ph = Busy) as -> by (by apply Hbusy).
    exists (S j). unfold step. rewrite Hex, Hw.
    destruct w as [|i k]; [inversion Hat as [| r Hr | |]; by destruct r|].
    destruct (sink_at_cons _ _ _ _ Hat)
      as [(? & _) | [(_ & -> & ->) |
          [(_ & c & r & -> & ->) | (_ & -> & r & ->)]]];
      [done | | simpl; eauto..].
    simpl. unfold mut_unlock. rewrite Hm, decide_True by done. simpl. eauto.
  - destruct (decide (p < N)) as [Hs|Hs].
    { exists 0. unfold step. rewrite Hex, Hmain.
      destruct (lookup_lt_is_Some_2 workers p) as [c Hc]; [lia|].
      rewrite (drop_S _ _ _ (program_spawn _ _ _ _ Hc)). eauto. }
    destruct (decide (p < 2 * N)) as [Hj|Hj].
    { assert (p - N < length workers) as Hlt by lia.
      pose proof (program_join workers outs _ Hlt) as Hl.
      replace (length workers + (p - N)) with p in Hl by lia.
      destruct (lookup_lt_is_Some_2 (threads s) (S (p - N))) as [w Hw].
      { pose proof (Nat.min_r p N). lia. }
      destruct w as [|i k].
      - exists 0. unfold step. rewrite Hex, Hmain, (drop_S _ _ _ Hl), Hw.
        simpl. eauto.
      - exists (S (p - N)). unfold step. rewrite Hex, Hw.
        destruct (si_at _ _ _ Inv _ _ Hw) as (ph & Hat & Hbusy & _).
        destruct (sink_at_cons _ _ _ _ Hat)
          as [(_ & -> & ->) | [(-> & _) | [(-> & _) | (-> & _)]]];
          try (destruct Hbusy as [Hb _]; specialize (Hb eq_refl); congruence).
        simpl. unfold mut_lock. rewrite Hm. simpl. eauto. }
    destruct (decide (p = 2 * N)) as [->|Hput].
    + exists 0. unfold step. rewrite Hex, Hmain.
      pose proof (program_put workers outs 0 endl eq_refl) as Hl.
      rewrite Nat.add_0_r, HN in Hl. rewrite (drop_S _ _ _ Hl). simpl. eauto.
    + exists 0. unfold step. rewrite Hex, Hmain.
      assert (p = 2 * length workers + length outs) as -> by (simpl; lia).
      rewrite (drop_S _ _ _ (program_return workers outs)). eauto.
Qed.

Lemma sink_no_loop order s p t s' :
  sink_inv order s p -> step t s = Some s' ->
  next_instr t s <> Some IForBegin.
Proof.
  intros Inv Hs Hi. destruct t as [|j].
  - by destruct (main_next_instr _ _ _ _ _ (si_str _ _ _ Inv) Hi)
      as [[? ?] | [[? ?] | [(? & ? & _) | ?]]].
  - unfold next_instr in Hi.
    destruct (threads s !! S j) as [[|i k]|] eqn:Ht; try done.
    injection Hi as ->.
    destruct (si_at _ _ _ Inv _ _ Ht) as (ph & Hat & _).
    by destruct (sink_at_cons _ _ _ _ Hat)
      as [(_ & ? & _) | [(_ & ? & _) | [(_ & c & r & ? & _) | (_ & ? & _)]]].
Qed.

Lemma unscrambled_completes sched s :
  run sched (boot unscrambled) = Some s ->
  exists sched' s',
    run (sched ++ sched') (boot unscrambled) = Some s' /\ finished s'.
Proof.
  remember (work 0 s) as n eqn:Hn.
  revert sched s Hn. induction n as [n IH] using lt_wf_ind.
  intros sched s -> Hrun. destruct (sink_inv_run _ _ Hrun) as [p Inv].
  destruct (sink_inv_progress _ _ _ Inv) as [Hfin | (t & s1 & Hs)].
  - exists [], s. by rewrite app_nil_r.
  - assert (run (sched ++ [t]) (boot unscrambled) = Some s1) as Hrun1
      by (apply run_snoc; eauto).
    assert (work 0 s1 < work 0 s) as Hlt.
    { apply (step_work _ _ _ _ Hs). intros Hi.
      by destruct (sink_no_loop _ _ _ _ _ Inv Hs). }
    destruct (IH _ Hlt _ _ eq_refl Hrun1) as (sched' & s' & Hrun' & Hfin).
    exists (t :: sched'), s'. split; [|done].
    rewrite <- app_assoc in Hrun'. exact Hrun'.
Qed.
End Sink.

(** ** One call of [Vector] at a time *)

Lemma for_each_print l sh0 :
  for_each l
    (fun i sh1 => let* sh' := cout_put (dec i) sh1 in cout_put sep sh') sh0
  = Returns (Shared (mut sh0) (vec sh0) (cout sh0 ++ render l)).
Proof.
  revert sh0. induction l as [|i l IH]; intros sh0; simpl.
  - rewrite app_nil_r. by destruct sh0.
  - rewrite IH. simpl. by rewrite <- !app_assoc.
Qed.

Lemma print_returns t sh0 :
  mut sh0 = None ->
  print t sh0
  = Returns (Shared None (vec sh0) (cout sh0 ++ render (vec sh0) ++ endl)).
Proof.
  intros Hm. unfold print, mut_lock. rewrite Hm. simpl.
  rewrite for_each_print. simpl. unfold mut_unlock. simpl.
  rewrite decide_True by done. by rewrite <- app_assoc.
Qed.

Lemma push_back_returns t i sh0 :
  mut sh0 = None ->
  push_back true t i sh0 = Returns (Shared None (vec sh0 ++ [i]) (cout sh0)).
Proof.
  intros Hm. unfold push_back, mut_lock. rewrite Hm. simpl.
  unfold mut_unlock. simpl. rewrite decide_True by done.
  by rewrite firstn_all.
Qed.

Lemma push_back_throws t i sh0 :
  mut sh0 = None ->
  push_back false t i sh0 = Throws (Shared (Some t) (vec sh0) (cout sh0)).
Proof. intros Hm. unfold push_back, mut_lock. by rewrite Hm. Qed.

(** ** Serial executions of the [Vector] calls *)

Lemma serial_snoc h e sh0 :
  serial (h ++ [e]) sh0 = let* sh1 := serial h sh0 in apply_call e sh1.
Proof.
  revert sh0. induction h as [|e' h IH]; intros sh0; simpl.
  - by destruct (apply_call e sh0).
  - destruct (apply_call e' sh0); simpl; [apply IH | done..].
Qed.

Lemma serial_returns h v c :
  serial h (Shared None v c)
  = Returns (Shared None (v ++ pushes h.*2) (c ++ snapshots v h.*2)).
Proof.
  revert v c. induction h as [|[t [i| |]] h IH]; intros v c; simpl.
  - by rewrite !app_nil_r.
  - unfold apply_call. simpl. rewrite push_back_returns by done. simpl.
    rewrite IH. by rewrite <- app_assoc.
  - unfold apply_call. simpl. rewrite print_returns by done. simpl.
    rewrite IH. by rewrite <- !app_assoc.
  - apply IH.
Qed.

Lemma proj_app t h1 h2 : proj t (h1 ++ h2) = proj t h1 ++ proj t h2.
Proof. unfold proj. by rewrite filter_app, fmap_app. Qed.

Lemma proj_own t c : proj t [(t, c)] = [c].
Proof. unfold proj. rewrite filter_cons_True by done. done. Qed.

Lemma proj_other t h :
  Forall (fun e => e.1 <> t) h -> proj t h = [].
Proof.
  unfold proj. induction 1 as [|e h He _ IH]; [done|].
  by rewrite filter_cons_False.
Qed.

(** ** Where a worker of the [Vector] program can stand *)

Lemma vec_at_idle v v' w pend :
  vec_at v w false pend -> vec_at v' w false pend.
Proof. inversion 1. constructor. Qed.

Lemma client_plain cs : plain (client cs).
Proof.
  induction cs as [|[i| |] cs IH]; simpl; [constructor|..];
    by repeat constructor.
Qed.

(** ** Histories as interleavings *)

Lemma pushes_app cs1 cs2 : pushes (cs1 ++ cs2) = pushes cs1 ++ pushes cs2.
Proof.
  induction cs1 as [|[x| |] cs1 IH]; simpl; [done | by rewrite IH | done..].
Qed.

Lemma pushes_sync cs : pushes (sync cs) = pushes cs.
Proof. induction cs as [|[x| |] cs IH]; simpl; [done | by rewrite IH | done..]. Qed.

Lemma snapshots_app v cs1 cs2 :
  snapshots v (cs1 ++ cs2)
  = snapshots v cs1 ++ snapshots (v ++ pushes cs1) cs2.
Proof.
  revert v. induction cs1 as [|[x| |] cs1 IH]; intros v; simpl.
  - by rewrite app_nil_r.
  - by rewrite IH, <- app_assoc.
  - by rewrite IH, <- !app_assoc.
  - apply IH.
Qed.

Lemma tagged_values h : (tagged h).*2 = pushes h.*2.
Proof.
  unfold tagged.
  induction h as [|[t [x| |]] h IH]; simpl; [done | f_equal; exact IH | exact IH..].
Qed.

Lemma own_cons t u x tg :
  own t ((u, x) :: tg) = if decide (u = t) then x :: own t tg else own t tg.
Proof. unfold own. rewrite filter_cons. simpl. by case_decide. Qed.

Lemma proj_cons t u c h :
  proj t ((u, c) :: h) = if decide (u = t) then c :: proj t h else proj t h.
Proof. unfold proj. rewrite filter_cons. simpl. by case_decide. Qed.

Lemma tagged_cons u c h :
  tagged ((u, c) :: h)
  = match c with CPushBack x => (u, x) :: tagged h | _ => tagged h end.
Proof. by destruct c. Qed.

Lemma own_tagged t h : own t (tagged h) = pushes (proj t h).
Proof.
  induction h as [|[u c] h IH]; [done|].
  rewrite tagged_cons, proj_cons.
  destruct c as [x| |]; rewrite ?own_cons; case_decide; simpl;
    by rewrite IH.
Qed.

Lemma concat_own_cons u x tg l :
  NoDup l ->
  concat (map (fun t => own t ((u, x) :: tg)) l)
  ≡ₚ (if decide (u ∈ l) then [x] else []) ++ concat (map (fun t => own t tg) l).
Proof.
  induction 1 as [|t l Hnin Hnd IH]; simpl.
  - done.
  - rewrite IH, own_cons. destruct (decide (u = t)) as [->|Hne].
    + rewrite (decide_True (P := t ∈ t :: l)) by left.
      rewrite (decide_False (P := t ∈ l)) by done. done.
    + destruct (decide (u ∈ l)) as [Hin|Hin].
      * rewrite (decide_True (P := u ∈ t :: l)) by (by right). simpl.
        symmetry. apply Permutation_middle.
      * rewrite (decide_False (P := u ∈ t :: l)); [done|].
        by intros [?|?]%elem_of_cons.
Qed.

(** A list whose tags are the threads [1..n] is made of their shares. *)
Lemma own_partition n tg :
  (forall e, e ∈ tg -> 1 <= e.1 <= n) ->
  tg.*2 ≡ₚ concat (map (fun t => own t tg) (seq 1 n)).
Proof.
  induction tg as [|[u x] tg IH]; intros Htg.
  - unfold own. simpl. induction (seq 1 n); simpl; [done | by auto].
  - rewrite concat_own_cons by apply NoDup_seq.
    rewrite decide_True.
    2: { apply elem_of_seq. specialize (Htg (u, x) ltac:(left)). simpl in Htg.
         lia. }
    simpl. constructor. apply IH. intros e He. apply Htg. by right.
Qed.

Lemma map_seq_total {A} `{Inhabited A} {B} (f : A -> B) (l : list A) :
  map (fun t => f (l !!! (t - 1))) (seq 1 (length l)) = map f l.
Proof.
  apply list_eq. intros j. rewrite !list_lookup_fmap.
  destruct (decide (j < length l)) as [Hj|Hj].
  - rewrite lookup_seq_lt by done. cbn [fmap option_fmap option_map].
    replace (1 + j - 1) with j by lia.
    by rewrite (list_lookup_lookup_total_lt l j).
  - rewrite lookup_seq_ge by lia. simpl.
    by rewrite (proj2 (lookup_ge_None l j)) by lia.
Qed.

(** What a thread other than the owner of the mutex can do. *)
Lemma vec_at_outside v i k pend :
  vec_at v (i :: k) false pend -> i = ILock \/ i = ISleep.
Proof.
  inversion 1 as [cs Hcs Hb Hp | | | | | | | |]. subst cs.
  destruct pend as [|[x| |] cs]; simplify_eq/=; auto.
Qed.

Lemma vec_at_inside v i k pend :
  vec_at v (i :: k) true pend -> i <> ILock /\ i <> ISleep.
Proof. inversion 1; by split. Qed.

Section Guarded.
Variable css : list (list call).

Local Abbreviation N := (length css).
Local Abbreviation workers := (map client css).
Local Abbreviation guarded := (guarded css).
Local Abbreviation vec_inv := (vec_inv css).
Local Abbreviation vi_str := (vi_str css).
Local Abbreviation vi_owner := (vi_owner css).
Local Abbreviation vi_hist := (vi_hist css).
Local Abbreviation vi_at := (vi_at css).
Local Abbreviation vi_serial := (vi_serial css).

Lemma guarded_workers_plain : Forall plain workers.
Proof. apply Forall_fmap, Forall_true. intros cs. apply client_plain. Qed.

Lemma vec_inv_boot : vec_inv [] (boot guarded) 0.
Proof.
  split; simpl; try done.
  - apply structure_boot.
  - intros e He. by apply elem_of_nil in He.
Qed.

Lemma guarded_worker_code p c :
  workers !! p = Some c -> c = client (css !!! p).
Proof.
  change workers with (client <$> css). rewrite list_lookup_fmap.
  destruct (css !! p) as [cs|] eqn:E; [|done]. intros [= <-].
  by rewrite (list_lookup_total_correct _ _ _ E).
Qed.

Lemma vec_inv_frame h s p s' p' :
  vec_inv h s p -> structure workers [] s' p' ->
  sh s' = sh s ->
  length (threads s) <= length (threads s') ->
  (forall j, S j < length (threads s) ->
             threads s' !! S j = threads s !! S j) ->
  (forall j w, length (threads s) <= S j -> threads s' !! S j = Some w ->
               w = client (css !!! j)) ->
  vec_inv h s' p'.
Proof.
  intros [St Hown Hhist Hat Hser] St' Hsh Hlen Hsame Hnew.
  split; try done.
  - intros t Ht. rewrite Hsh in Ht. specialize (Hown t Ht). lia.
  - intros e He. specialize (Hhist e He). lia.
  - intros j w Hw. rewrite Hsh.
    destruct (decide (S j < length (threads s))) as [Hj|Hj].
    + rewrite Hsame in Hw by done. by apply Hat.
    + rewrite (Hnew j w) by (done || lia). exists (css !!! j).
      rewrite bool_decide_false.
      2: { intros Hm. apply Hown in Hm. lia. }
      split; [constructor|].
      rewrite proj_other; [done|].
      apply Forall_forall. intros e He%Hhist. lia.
  - unfold debt in *. rewrite Hsh. rewrite Hser.
    destruct (mut (sh s)) as [t|] eqn:Hm; [|done].
    destruct (Hown t eq_refl) as [H0 Hlt]. destruct t as [|j]; [lia|].
    by rewrite Hsame.
Qed.

Lemma vec_inv_main h s p s' :
  vec_inv h s p -> step 0 s = Some s' -> vec_inv h s' (S p).
Proof.
  intros Inv Hs. pose proof (vi_str _ _ _ Inv) as St.
  pose proof (step_main _ _ _ _ _ St Hs) as Hm.
  pose proof (structure_main _ _ guarded_workers_plain _ _ _ St Hm) as St'.
  pose proof (st_len _ _ _ _ St) as Hlen.
  assert (forall j, <[0 := drop (S p) (program workers [])]> (threads s)
                      !! S j = threads s !! S j) as Hne
    by (intros j; by apply list_lookup_insert_ne).
  destruct Hm as [c Hc | j Hj -> Hdone | j o Ho -> | ->].
  - pose proof (lookup_lt_Some _ _ _ Hc) as Hlt.
    eapply vec_inv_frame; try done; simpl.
    + rewrite length_app, length_insert. lia.
    + intros j Hj. rewrite lookup_app_l by (rewrite length_insert; lia).
      apply Hne.
    + intros j w Hj. rewrite lookup_app_r by (rewrite length_insert; lia).
      rewrite length_insert. intros [Hi <-]%list_lookup_singleton_Some.
      replace j with p by lia. by apply guarded_worker_code.
  - eapply vec_inv_frame; try done; simpl.
    + by rewrite length_insert.
    + intros j' w Hj'. rewrite Hne. intros Hw%lookup_lt_Some. lia.
  - done.
  - eapply vec_inv_frame; try done; simpl.
    + by rewrite length_insert.
    + intros j' w Hj'. rewrite Hne. intros Hw%lookup_lt_Some. lia.
Qed.

(** A step of worker [S j]: what has to be checked. *)
Lemma vec_inv_update h ev s p j k' sh' pend' :
  vec_inv h s p ->
  S j < length (threads s) ->
  structure workers [] (State sh' (<[S j := k']> (threads s)) None) p ->
  (forall t, t <> S j -> mut sh' = Some t <-> mut (sh s) = Some t) ->
  (vec sh' = vec (sh s) \/ mut (sh s) = Some (S j)) ->
  Forall (fun e => e.1 = S j) ev ->
  vec_at (vec sh') k' (bool_decide (mut sh' = Some (S j))) pend' ->
  proj (S j) (h ++ ev) ++ sync pend' = sync (css !!! j) ->
  serial (h ++ ev) empty_shared =
    Returns (Shared None (vec sh')
               (cout sh' ++ debt (State sh' (<[S j := k']> (threads s)) None))) ->
  vec_inv (h ++ ev) (State sh' (<[S j := k']> (threads s)) None) p.
Proof.
  intros [St Hown Hhist Hat Hser] Hlt St' Hmut Hvec Hev Hk' Hord Hser'.
  split; try done; cbn [sh threads].
  - intros t Ht. rewrite length_insert.
    destruct (decide (t = S j)) as [->|Hne]; [lia|].
    apply Hown. by apply Hmut.
  - intros e [He|He]%elem_of_app; rewrite length_insert.
    + by apply Hhist.
    + rewrite Forall_forall in Hev. rewrite (Hev e He). lia.
  - intros j' w. destruct (decide (j' = j)) as [->|Hne].
    + rewrite list_lookup_insert_eq by done. intros [= <-]. eauto.
    + rewrite list_lookup_insert_ne by congruence. intros Hw.
      destruct (Hat _ _ Hw) as (pend & Hpend & Hpo). exists pend.
      rewrite proj_app, (proj_other (S j') ev), app_nil_r.
      2: { eapply Forall_impl; [exact Hev|]. simpl. intros e ->. congruence. }
      split; [|done].
      rewrite (bool_decide_ext _ (mut (sh s) = Some (S j')))
        by (apply Hmut; congruence).
      destruct Hvec as [-> | Hm]; [done|].
      rewrite bool_decide_false in * by (rewrite Hm; congruence).
      by eapply vec_at_idle.
Qed.

Lemma vec_inv_worker h s p j s' i :
  vec_inv h s p -> step (S j) s = Some s' ->
  next_instr (S j) s = Some i ->
  vec_inv (h ++ omap commit [(S j, i)]) s' p.
Proof.
  intros Inv Hs Hi. pose proof (vi_str _ _ _ Inv) as St.
  pose proof (structure_worker _ _ _ _ _ _ St Hs) as St'.
  unfold next_instr in Hi.
  destruct (threads s !! S j) as [[|i' k]|] eqn:Ht; try done.
  injection Hi as ->.
  pose proof (lookup_lt_Some _ _ _ Ht) as Hlt.
  assert (j < length workers) as Hj.
  { pose proof (st_len _ _ _ _ St) as Hlen.
    pose proof (Nat.le_min_r p (length workers)). lia. }
  assert (exit_status s = None) as Hex.
  { rewrite (st_exit _ _ _ _ St). apply decide_False. intros ->.
    rewrite (st_joined _ _ _ _ St j) in Ht; [done | done |].
    rewrite program_length. simpl. lia. }
  destruct (vi_at _ _ _ Inv _ _ Ht) as (pend & Hsh & Hpo).
  pose proof (vi_serial _ _ _ Inv) as Hser.
  unfold step in Hs. rewrite Hex, Ht in Hs.
  unfold resume in Hs. rewrite ?Hex in Hs.
  unfold debt in Hser. cbn [omap commit].
  destruct (decide (mut (sh s) = Some (S j))) as [Hm|Hm].
  - (* inside a critical section *)
    rewrite bool_decide_true in Hsh by done. rewrite Hm, Ht in Hser.
    inversion Hsh as [| x cs | x cs | cs | cs | n cs Hn | n x cs Hx
                      | n cs Hn | cs]; simplify_eq/=.
    + (* find the end of the vector *)
      eapply vec_inv_update; first [done | simpl].
      * by left.
      * try rewrite bool_decide_true by done. constructor.
      * by rewrite app_nil_r.
      * rewrite app_nil_r, Hser. unfold debt. simpl. rewrite Hm.
        by rewrite list_lookup_insert_eq.
    + (* store the element *)
      eapply vec_inv_update; first [done | simpl].
      * by right.
      * by repeat constructor.
      * try rewrite bool_decide_true by done. rewrite firstn_all. constructor.
      * rewrite proj_app, proj_own, <- app_assoc. done.
      * rewrite serial_snoc, Hser. unfold apply_call. simpl.
        rewrite push_back_returns by done. simpl. unfold debt. simpl.
        rewrite Hm, list_lookup_insert_eq by done. simpl.
        by rewrite firstn_all.
    + (* unlock *)
      unfold mut_unlock in Hs. rewrite Hm, decide_True in Hs by done.
      simplify_eq/=.
      eapply vec_inv_update; first [done | simpl].
      * intros t Hne. rewrite Hm. split; intros [= ?]; congruence.
      * by left.
      * try rewrite bool_decide_false by done. constructor.
      * by rewrite app_nil_r.
      * rewrite app_nil_r, Hser. unfold debt. simpl. done.
    + (* the loop of print starts *)
      eapply vec_inv_update; first [done | simpl].
      * by left.
      * by repeat constructor.
      * try rewrite bool_decide_true by done. apply at_next. lia.
      * rewrite proj_app, proj_own, <- app_assoc. done.
      * rewrite serial_snoc, Hser. unfold apply_call. simpl.
        rewrite print_returns by done. simpl. unfold debt. simpl.
        rewrite Hm, list_lookup_insert_eq by done. simpl.
        by rewrite !app_nil_r.
    + (* the loop test *)
      destruct (n <? length (vec (sh s))) eqn:Hlt';
        simplify_eq/=.
      * apply Nat.ltb_lt in Hlt'.
        destruct (lookup_lt_is_Some_2 _ _ Hlt') as [x Hx].
        rewrite (nth_lookup_Some _ _ _ _ Hx) in *.
        eapply vec_inv_update; first [done | simpl].
        -- by left.
        -- try rewrite bool_decide_true by done. by eapply at_int.
        -- by rewrite app_nil_r.
        -- rewrite app_nil_r, Hser. unfold debt. simpl.
           rewrite Hm, list_lookup_insert_eq by done. simpl.
           rewrite (drop_S _ _ _ Hx). simpl. by rewrite <- !app_assoc.
      * apply Nat.ltb_ge in Hlt'.
        eapply vec_inv_update; first [done | simpl].
        -- by left.
        -- try rewrite bool_decide_true by done. constructor.
        -- by rewrite app_nil_r.
        -- rewrite app_nil_r, Hser. unfold debt. simpl.
           rewrite Hm, list_lookup_insert_eq by done. simpl.
           rewrite drop_ge by lia. done.
    + (* write an element *)
      eapply vec_inv_update; first [done | simpl].
      * by left.
      * try rewrite bool_decide_true by done. apply at_sep.
        by eapply lookup_lt_Some.
      * by rewrite app_nil_r.
      * rewrite app_nil_r, Hser. unfold debt. simpl.
        rewrite Hm, list_lookup_insert_eq by done. simpl.
        by rewrite <- !app_assoc.
    + (* write the separator *)
      eapply vec_inv_update; first [done | simpl].
      * by left.
      * try rewrite bool_decide_true by done. by apply at_next.
      * by rewrite app_nil_r.
      * rewrite app_nil_r, Hser. unfold debt. simpl.
        rewrite Hm, list_lookup_insert_eq by done. simpl.
        by rewrite <- !app_assoc.
    + (* end the line *)
      eapply vec_inv_update; first [done | simpl].
      * by left.
      * try rewrite bool_decide_true by done. constructor.
      * by rewrite app_nil_r.
      * rewrite app_nil_r, Hser. unfold debt. simpl.
        rewrite Hm, list_lookup_insert_eq by done. simpl.
        by rewrite <- !app_assoc, app_nil_r.
  - (* between two calls *)
    rewrite bool_decide_false in Hsh by done.
    inversion Hsh as [cs Hcs Hb Hp | | | | | | | |]. subst cs.
    destruct pend as [|[x| |] cs]; simplify_eq/=.
    + (* push_back takes the mutex *)
      unfold mut_lock in Hs.
      destruct (mut (sh s)) as [u|] eqn:Hmut;
        [by case_decide; simplify_eq|]. simplify_eq/=.
      eapply vec_inv_update; first [done | simpl].
      * intros t Hne. rewrite Hmut. split; intros [= ?]; congruence.
      * by left.
      * try rewrite bool_decide_true by done. constructor.
      * by rewrite app_nil_r.
      * rewrite app_nil_r, Hser. unfold debt. simpl.
        by rewrite list_lookup_insert_eq.
    + (* print takes the mutex *)
      unfold mut_lock in Hs.
      destruct (mut (sh s)) as [u|] eqn:Hmut;
        [by case_decide; simplify_eq|]. simplify_eq/=.
      eapply vec_inv_update; first [done | simpl].
      * intros t Hne. rewrite Hmut. split; intros [= ?]; congruence.
      * by left.
      * try rewrite bool_decide_true by done. constructor.
      * by rewrite app_nil_r.
      * rewrite app_nil_r, Hser. unfold debt. simpl.
        by rewrite list_lookup_insert_eq.
    + (* sleep *)
      eapply vec_inv_update; first [done | simpl].
      * by left.
      * try rewrite bool_decide_false by done. constructor.
      * by rewrite app_nil_r.
      * rewrite app_nil_r, Hser. unfold debt. simpl.
        destruct (mut (sh s)) as [t|] eqn:Hmut; [|done].
        rewrite list_lookup_insert_ne by congruence. done.
Qed.

Lemma main_next_no_commit s p i :
  structure workers [] s p -> next_instr 0 s = Some i ->
  commit (0, i) = None.
Proof.
  intros St Hi.
  by destruct (main_next_instr _ _ _ _ _ St Hi)
    as [[? ->] | [[? ->] | [(? & -> & _) | ->]]].
Qed.

Lemma vec_inv_run sched s :
  run sched (boot guarded) = Some s ->
  exists p, vec_inv (history sched (boot guarded)) s p.
Proof.
  revert s. induction sched as [|t sched IH] using rev_ind; intros s.
  - intros [= <-]. exists 0. apply vec_inv_boot.
  - intros (s1 & H1 & H2)%run_snoc. destruct (IH _ H1) as [p Inv].
    destruct (step_next_instr _ _ _ H2) as [i Hi].
    unfold history. rewrite (trace_snoc _ _ _ _ _ _ H1 H2 Hi), omap_app.
    destruct t as [|j].
    + exists (S p). simpl.
      rewrite (main_next_no_commit _ _ _ (vi_str _ _ _ Inv) Hi), app_nil_r.
      by eapply vec_inv_main.
    + exists p. by eapply vec_inv_worker.
Qed.

Lemma client_nil cs : client cs = [] -> cs = [].
Proof. by destruct cs as [|[x| |] cs]. Qed.

(** With the mutex free, nothing is owed. *)
Lemma debt_free s : mut (sh s) = None -> debt s = [].
Proof. unfold debt. by intros ->. Qed.

(** When all threads are done, the history holds the calls of every
    worker, in the order of its code. *)
Lemma vec_inv_finished h s p :
  vec_inv h s p -> finished s ->
  mut (sh s) = None /\
  (forall e, e ∈ h -> 1 <= e.1 <= N) /\
  (forall j, j < N -> proj (S j) h = sync (css !!! j)).
Proof.
  intros Inv Hfin. pose proof (vi_str _ _ _ Inv) as St.
  pose proof (structure_finished _ _ _ _ St Hfin) as ->.
  pose proof (st_len _ _ _ _ St) as Hlen.
  assert (length workers = N) as HN by apply length_map.
  rewrite program_length in Hlen.
  assert (length (threads s) = S N) as Hlen' by lia.
  assert (forall j, j < N -> threads s !! S j = Some []) as Hnil.
  { intros j Hj. destruct (lookup_lt_is_Some_2 (threads s) (S j)) as [w Hw].
    { lia. }
    rewrite Hw. f_equal. by eapply (Forall_lookup_1 _ _ _ _ Hfin). }
  assert (forall j, j < N ->
            mut (sh s) <> Some (S j) /\ proj (S j) h = sync (css !!! j))
    as Hdone.
  { intros j Hj. destruct (vi_at _ _ _ Inv j [] (Hnil j Hj))
      as (pend & Hat & Hpo).
    inversion Hat as [cs Hcs Hb Hp | | | | | | | |]. subst cs.
    apply client_nil in Hcs as ->. simpl in Hpo.
    rewrite app_nil_r in Hpo. split; [|done].
    symmetry in Hb. by apply bool_decide_eq_false in Hb. }
  split; [|split].
  - destruct (mut (sh s)) as [t|] eqn:Hm; [|done].
    destruct (vi_owner _ _ _ Inv t Hm) as [H0 Hlt].
    destruct t as [|j]; [lia|]. destruct (Hdone j) as [Hne _]; [lia|done].
  - intros e He%(vi_hist _ _ _ Inv). lia.
  - intros j Hj. by apply Hdone.
Qed.

(** No deadlock: a state of the invariant is finished or some thread can
    move. *)
Lemma vec_inv_progress h s p :
  vec_inv h s p -> finished s \/ exists t s', step t s = Some s'.
Proof.
  intros Inv. pose proof (vi_str _ _ _ Inv) as St.
  pose proof (st_len _ _ _ _ St) as Hlen.
  pose proof (st_pc _ _ _ _ St) as Hpc.
  pose proof (st_main _ _ _ _ St) as Hmain.
  pose proof (st_exit _ _ _ _ St) as Hex.
  assert (length workers = N) as HN by apply length_map.
  rewrite program_length in Hpc. simpl in Hpc.
  destruct (decide (p = length (program workers []))) as [Hp|Hp].
  { left. rewrite program_length in Hp. simpl in Hp.
    apply Forall_lookup. intros [|j] w Hw.
    - rewrite Hmain, drop_ge in Hw by (rewrite program_length; simpl; lia).
      by injection Hw.
    - pose proof (lookup_lt_Some _ _ _ Hw).
      rewrite (st_joined _ _ _ _ St j) in Hw by lia. by injection Hw. }
  right. rewrite program_length in Hp. simpl in Hp.
  (* a worker between two calls can take the mutex, if free, or sleep *)
  assert (forall j w, mut (sh s) = None -> threads s !! S j = Some w ->
            w <> [] -> exists s', step (S j) s = Some s') as Hidle.
  { intros j w Hm Hw Hne. destruct (vi_at _ _ _ Inv _ _ Hw) as (pend & Hat & _).
    rewrite bool_decide_false in Hat by (rewrite Hm; done).
    destruct w as [|i k]; [done|].
    unfold step. rewrite Hex, Hw.
    apply vec_at_outside in Hat as [-> | ->]; simpl; [|eauto].
    unfold mut_lock. rewrite Hm. simpl. eauto. }
  destruct (mut (sh s)) as [t|] eqn:Hm.
  - (* the owner of the mutex is never blocked *)
    destruct (vi_owner _ _ _ Inv t Hm) as [H0 Hlt].
    destruct t as [|j]; [lia|].
    destruct (lookup_lt_is_Some_2 _ _ Hlt) as [w Hw].
    destruct (vi_at _ _ _ Inv _ _ Hw) as (pend & Hat & _).
    rewrite bool_decide_true in Hat by done.
    exists (S j). unfold step. rewrite Hex, Hw.
    inversion Hat; simpl; eauto.
    + unfold mut_unlock. rewrite Hm, decide_True by done. simpl. eauto.
    + destruct (k <? length (vec (sh s))); simpl; eauto.
  - destruct (decide (p < N)) as [Hs|Hs].
    { (* main starts the next thread *)
      exists 0. unfold step. rewrite Hex, Hmain.
      destruct (lookup_lt_is_Some_2 workers p) as [c Hc]; [lia|].
      rewrite (drop_S _ _ _ (program_spawn _ _ _ _ Hc)). eauto. }
    destruct (decide (p < 2 * N)) as [Hj|Hj].
    { (* main waits for a thread, which is done or can move *)
      assert (p - N < length workers) as Hlt by lia.
      pose proof (program_join workers [] _ Hlt) as Hl.
      replace (length workers + (p - N)) with p in Hl by lia.
      destruct (lookup_lt_is_Some_2 (threads s) (S (p - N))) as [w Hw].
      { pose proof (Nat.min_r p N). lia. }
      destruct w as [|i k].
      - exists 0. unfold step. rewrite Hex, Hmain, (drop_S _ _ _ Hl), Hw.
        simpl. eauto.
      - exists (S (p - N)). by eapply Hidle. }
    exists 0. unfold step. rewrite Hex, Hmain.
    assert (p = 2 * length workers + length (@nil (list ascii))) as ->
      by (simpl; lia).
    rewrite (drop_S _ _ _ (program_return workers [])). eauto.
Qed.

Lemma guarded_no_deadlock sched s :
  run sched (boot guarded) = Some s ->
  finished s \/ exists t s', step t s = Some s'.
Proof. intros [p Inv]%vec_inv_run. by eapply vec_inv_progress. Qed.

(** The vector never holds more than the values that the workers push. *)
Lemma concat_length_le {A} (f g : nat -> list A) l :
  (forall t, t ∈ l -> length (f t) <= length (g t)) ->
  length (concat (map f l)) <= length (concat (map g l)).
Proof.
  induction l as [|t l IH]; intros Hfg; simpl; [done|].
  rewrite !length_app. specialize (Hfg t ltac:(left)) as Ht.
  specialize (IH ltac:(intros u Hu; apply Hfg; by right)). lia.
Qed.

Lemma vec_inv_bound h s p :
  vec_inv h s p ->
  length (vec (sh s)) <= length (concat (map pushes css)).
Proof.
  intros Inv. pose proof (vi_serial _ _ _ Inv) as Hser.
  unfold empty_shared in Hser. rewrite serial_returns in Hser.
  injection Hser as <- _. simpl. rewrite <- tagged_values.
  pose proof (st_len _ _ _ _ (vi_str _ _ _ Inv)) as Hlen.
  rewrite length_map in Hlen.
  assert (length (threads s) <= S N) as Hlen'
    by (pose proof (Nat.le_min_r p N); lia).
  rewrite (own_partition N).
  2: { intros [t x] Hin. unfold tagged in Hin.
       apply list_elem_of_omap in Hin as ([u c] & Hin & Heq).
       destruct c; simplify_eq/=. apply (vi_hist _ _ _ Inv) in Hin.
       simpl in Hin. lia. }
  rewrite <- (map_seq_total pushes css). apply concat_length_le.
  intros t [Ht1 Ht2]%elem_of_seq. destruct t as [|j]; [lia|].
  replace (S j - 1) with j by lia. rewrite own_tagged.
  destruct (decide (S j < length (threads s))) as [Hj|Hj].
  - destruct (lookup_lt_is_Some_2 _ _ Hj) as [w Hw].
    destruct (vi_at _ _ _ Inv _ _ Hw) as (pend & _ & Hpo).
    apply (f_equal pushes) in Hpo. rewrite pushes_app, !pushes_sync in Hpo.
    rewrite <- Hpo, length_app. lia.
  - rewrite proj_other; [simpl; lia|].
    apply Forall_forall. intros e He%(vi_hist _ _ _ Inv). lia.
Qed.

(** Termination: a run is never longer than the work of the start state, and
    every run can be continued until all threads are done. *)
Lemma guarded_run_bound sched s :
  run sched (boot guarded) = Some s ->
  length sched + work (length (concat (map pushes css))) s
  <= work (length (concat (map pushes css))) (boot guarded).
Proof.
  revert s. induction sched as [|t sched IH] using rev_ind; intros s.
  - intros [= <-]. simpl. lia.
  - intros (s1 & H1 & H2)%run_snoc. specialize (IH _ H1).
    destruct (vec_inv_run _ _ H1) as [p Inv].
    pose proof (step_work _ _ _ _ H2 (fun _ => vec_inv_bound _ _ _ Inv)).
    rewrite length_app. simpl. lia.
Qed.

Lemma guarded_completes sched s :
  run sched (boot guarded) = Some s ->
  exists sched' s',
    run (sched ++ sched') (boot guarded) = Some s' /\ finished s'.
Proof.
  remember (work (length (concat (map pushes css))) s) as n eqn:Hn.
  revert sched s Hn. induction n as [n IH] using lt_wf_ind.
  intros sched s -> Hrun.
  destruct (guarded_no_deadlock _ _ Hrun) as [Hfin | (t & s1 & Hs)].
  - exists [], s. by rewrite app_nil_r.
  - assert (run (sched ++ [t]) (boot guarded) = Some s1) as Hrun1
      by (apply run_snoc; eauto).
    destruct (vec_inv_run _ _ Hrun) as [p Inv].
    pose proof (step_work _ _ _ _ Hs (fun _ => vec_inv_bound _ _ _ Inv)) as Hlt.
    destruct (IH _ Hlt _ _ eq_refl Hrun1) as (sched' & s' & Hrun' & Hfin).
    exists (t :: sched'), s'. split; [|done].
    rewrite <- app_assoc in Hrun'. exact Hrun'.
Qed.
End Guarded.

(** ** The programs as instances *)

Lemma main_guarded : main = guarded [func_calls; func_calls; func_calls].
Proof. reflexivity. Qed.

Lemma main_unscrambled_eq : main_unscrambled = unscrambled messages.
Proof. reflexivity. Qed.

Lemma main_scrambled_eq :
  main_scrambled = program (map printString_scrambled messages) [endl].
Proof. reflexivity. Qed.

Lemma put_chars_plain text : plain (put_chars text).
Proof. induction text; simpl; by repeat constructor. Qed.

(** ** Finished runs of the [Vector] program *)

Lemma guarded_state css sched s :
  run sched (boot (guarded css)) = Some s ->
  let h := history sched (boot (guarded css)) in
  vec (sh s) = pushes h.*2 /\
  cout (sh s) ++ debt s = snapshots [] h.*2.
Proof.
  intros [p Inv]%vec_inv_run. pose proof (vi_serial _ _ _ _ Inv) as Hser.
  unfold empty_shared in Hser. rewrite serial_returns in Hser.
  by injection Hser as <- <-.
Qed.

Lemma guarded_finished css sched s :
  run sched (boot (guarded css)) = Some s -> finished s ->
  let tg := tagged (history sched (boot (guarded css))) in
  vec (sh s) = tg.*2 /\
  (forall e, e ∈ tg -> 1 <= e.1 <= length css) /\
  (forall j, j < length css -> own (S j) tg = pushes (css !!! j)).
Proof.
  intros Hrun Hfin. destruct (guarded_state _ _ _ Hrun) as [Hvec _].
  destruct (vec_inv_run _ _ _ Hrun) as [p Inv].
  destruct (vec_inv_finished _ _ _ _ Inv Hfin) as (_ & Hh & Hpo).
  simpl. split; [by rewrite tagged_values|]. split.
  - intros [t x] Hin. unfold tagged in Hin.
    apply list_elem_of_omap in Hin as ([u c] & Hin & Heq).
    destruct c; simplify_eq/=. by apply (Hh _ Hin).
  - intros j Hj. by rewrite own_tagged, Hpo, pushes_sync.
Qed.

(** * Main results *)

(** ** The guarded sink *)

(** C1: for concurrent calls of [printString] of [unscrambled.cpp], the
    function that writes its text under the mutex: whatever the schedule and
    whatever the texts, the output is the texts of the threads, whole and one
    after the other, in the order in which the threads took the mutex; at any
    moment it lacks only what the owner of the mutex has still to write;
    every run can be continued until all threads are done, and then every
    text is there exactly once, followed by the newline of [main]. *)
Theorem printString_never_interleaves msgs sched s :
  run sched (boot (unscrambled msgs)) = Some s ->
  let order := lock_order sched (boot (unscrambled msgs)) in
  NoDup order /\
  (forall t, t ∈ order -> 1 <= t <= length msgs) /\
  (cout (sh s) ++ debt s = concat (map (message_of msgs) order) \/
   cout (sh s) ++ debt s = concat (map (message_of msgs) order) ++ endl) /\
  (exists sched' s',
     run (sched ++ sched') (boot (unscrambled msgs)) = Some s' /\
     finished s') /\
  (finished s ->
   order ≡ₚ seq 1 (length msgs) /\
   cout (sh s) = concat (map (message_of msgs) order) ++ endl).
Proof.
  intros Hrun. destruct (sink_inv_run _ _ _ Hrun) as [p Inv]. simpl.
  split; [apply (si_nodup _ _ _ _ Inv)|].
  split; [|split; [|split]].
  - intros t Ht%(si_order _ _ _ _ Inv).
    pose proof (st_len _ _ _ _ (si_str _ _ _ _ Inv)) as Hlen.
    rewrite length_map in Hlen. lia.
  - pose proof (si_out _ _ _ _ Inv) as Hout.
    case_decide; [right | left; rewrite app_nil_r in Hout]; done.
  - by eapply unscrambled_completes.
  - intros Hfin. exact (sink_inv_finished _ _ _ _ Inv Hfin).
Qed.

Lemma printString_never_interleaves_witness :
  lock_order (round_robin 100 0 (boot main_unscrambled)) (boot main_unscrambled)
    ≡ₚ [1; 2; 3] /\
  cout (sh (outcome_of (round_robin 100 0 (boot main_unscrambled))
              (boot main_unscrambled)))
  = concat (map (message_of messages)
              (lock_order (round_robin 100 0 (boot main_unscrambled))
                 (boot main_unscrambled))) ++ endl.
Proof.
  assert (run (round_robin 100 0 (boot main_unscrambled))
            (boot (unscrambled messages))
          = Some (outcome_of (round_robin 100 0 (boot main_unscrambled))
                    (boot main_unscrambled))) as Hrun
    by (vm_compute; reflexivity).
  assert (finished (outcome_of (round_robin 100 0 (boot main_unscrambled))
                      (boot main_unscrambled))) as Hfin
    by (vm_compute; repeat constructor).
  exact (proj2 (proj2 (proj2 (proj2
           (printString_never_interleaves messages _ _ Hrun)))) Hfin).
Defined.

(** The mutex is what gives this: [printString] of [scrambled.cpp] is the
    same function without it, and under the round-robin schedule its output
    is [A1Bx2Cy3z], which is no arrangement of the three texts one after the
    other. *)
Remark scrambled_interleaves :
  exists s,
    run (round_robin 100 0 (boot main_scrambled)) (boot main_scrambled)
    = Some s /\
    finished s /\
    ~ exists order,
        order ≡ₚ [1; 2; 3] /\
        cout (sh s) = concat (map (message_of messages) order) ++ endl.
Proof.
  eexists. split; [vm_compute; reflexivity|].
  split; [repeat constructor|].
  intros (order & Hperm & Hout).
  symmetry in Hperm. apply permutations_Permutation in Hperm.
  vm_compute in Hperm.
  repeat (apply elem_of_cons in Hperm as [->|Hperm];
          [vm_compute in Hout; discriminate|]).
  by apply elem_of_nil in Hperm.
Qed.

(** ** The guarded container *)

(** The vector of a finished run is a rearrangement of the values pushed. *)
Lemma guarded_permutation css sched s :
  run sched (boot (guarded css)) = Some s -> finished s ->
  vec (sh s) ≡ₚ concat (map pushes css).
Proof.
  intros Hrun Hfin.
  destruct (guarded_finished _ _ _ Hrun Hfin) as (Hvec & Htg & Hown).
  rewrite Hvec, (own_partition (length css)) by done.
  rewrite <- (map_seq_total pushes css).
  rewrite (map_ext_in _ (fun t => pushes (css !!! (t - 1)))); [done|].
  intros t [Ht1 Ht2]%list_elem_of_In%elem_of_seq.
  destruct t as [|j]; [lia|]. rewrite Hown by lia.
  by replace (S j - 1) with j by lia.
Qed.

(** C3: for any workers, each making any sequence of calls to [push_back]
    and [print] (and pauses): every run can be continued until all threads
    are done, and once all are done the vector holds as many elements as
    there were calls to [push_back], and it is a rearrangement of the values
    pushed: every occurrence is there once. *)
Theorem no_lost_update css sched s :
  run sched (boot (guarded css)) = Some s ->
  (exists sched' s',
     run (sched ++ sched') (boot (guarded css)) = Some s' /\ finished s') /\
  (finished s ->
   length (vec (sh s)) = length (concat (map pushes css)) /\
   vec (sh s) ≡ₚ concat (map pushes css)).
Proof.
  intros Hrun. split; [by eapply guarded_completes|]. intros Hfin.
  pose proof (guarded_permutation _ _ _ Hrun Hfin) as Hperm.
  split; [by rewrite Hperm | done].
Qed.

Lemma no_lost_update_witness :
  length (vec (sh (outcome_of (round_robin 1000 0 (boot main)) (boot main))))
  = 15 /\
  vec (sh (outcome_of (round_robin 1000 0 (boot main)) (boot main)))
    ≡ₚ concat (map pushes [func_calls; func_calls; func_calls]).
Proof.
  assert (run (round_robin 1000 0 (boot main))
            (boot (guarded [func_calls; func_calls; func_calls]))
          = Some (outcome_of (round_robin 1000 0 (boot main)) (boot main)))
    as Hrun by (vm_compute; reflexivity).
  assert (finished (outcome_of (round_robin 1000 0 (boot main)) (boot main)))
    as Hfin by (vm_compute; repeat constructor).
  exact (proj2 (no_lost_update _ _ _ Hrun) Hfin).
Defined.

(** C4: in the program with three threads running [func], every run can be
    continued until all threads are done; once all threads are done the
    vector holds 15 elements, and they can be attributed to the three workers
    (each element to the thread whose store put it there) so that each
    worker's elements are 0, 1, 2, 3, 4 in that order. *)
Theorem three_workers sched s :
  run sched (boot main) = Some s ->
  (exists sched' s',
     run (sched ++ sched') (boot main) = Some s' /\ finished s') /\
  (finished s ->
   let tg := tagged (history sched (boot main)) in
   length (vec (sh s)) = 15 /\
   vec (sh s) = tg.*2 /\
   (forall e, e ∈ tg -> 1 <= e.1 <= 3) /\
   own 1 tg = [0; 1; 2; 3; 4]%Z /\
   own 2 tg = [0; 1; 2; 3; 4]%Z /\
   own 3 tg = [0; 1; 2; 3; 4]%Z).
Proof.
  rewrite main_guarded. intros Hrun. split; [by eapply guarded_completes|].
  intros Hfin.
  pose proof (guarded_permutation _ _ _ Hrun Hfin) as Hperm.
  assert (length (vec (sh s)) = 15) as Hlen by (by rewrite Hperm).
  destruct (guarded_finished _ _ _ Hrun Hfin) as (Hvec & Htg & Hown).
  simpl. split; [done|]. split; [done|]. split; [done|].
  split; [|split]; by rewrite Hown by (simpl; lia).
Qed.

Lemma three_workers_witness :
  length (vec (sh (outcome_of (round_robin 1000 0 (boot main)) (boot main))))
  = 15 /\
  own 2 (tagged (history (round_robin 1000 0 (boot main)) (boot main)))
  = [0; 1; 2; 3; 4]%Z.
Proof.
  assert (run (round_robin 1000 0 (boot main)) (boot main)
          = Some (outcome_of (round_robin 1000 0 (boot main)) (boot main)))
    as Hrun by (vm_compute; reflexivity).
  assert (finished (outcome_of (round_robin 1000 0 (boot main)) (boot main)))
    as Hfin by (vm_compute; repeat constructor).
  pose proof (proj2 (three_workers _ _ Hrun) Hfin)
    as (H1 & _ & _ & _ & H2 & _).
  exact (conj H1 H2).
Defined.

(** ** Exit status *)

(** C8: in each of the three programs, a run in which all threads are done
    has exit status 0, and no run sets any other status. *)
Theorem exit_status_zero m sched s :
  m ∈ [main; main_unscrambled; main_scrambled] ->
  run sched (boot m) = Some s ->
  (finished s -> exit_status s = Some 0%Z) /\
  (forall z, exit_status s = Some z -> z = 0%Z).
Proof.
  intros Hm Hrun.
  repeat (apply elem_of_cons in Hm as [->|Hm]);
    [| | | by apply elem_of_nil in Hm].
  - rewrite main_guarded in Hrun. eapply exit_zero; [|exact Hrun].
    apply guarded_workers_plain.
  - rewrite main_unscrambled_eq in Hrun. eapply exit_zero; [|exact Hrun].
    apply sink_workers_plain.
  - rewrite main_scrambled_eq in Hrun. eapply exit_zero; [|exact Hrun].
    apply Forall_fmap, Forall_true. intros text. apply put_chars_plain.
Qed.

Lemma exit_status_zero_witness :
  exit_status (outcome_of (round_robin 1000 0 (boot main)) (boot main))
  = Some 0%Z.
Proof.
  assert (main ∈ [main; main_unscrambled; main_scrambled]) as Hm by left.
  assert (run (round_robin 1000 0 (boot main)) (boot main)
          = Some (outcome_of (round_robin 1000 0 (boot main)) (boot main)))
    as Hrun by (vm_compute; reflexivity).
  assert (finished (outcome_of (round_robin 1000 0 (boot main)) (boot main)))
    as Hfin by (vm_compute; repeat constructor).
  exact (proj1 (exit_status_zero _ _ _ Hm Hrun) Hfin).
Defined.

(** ** One call at a time *)

(** C2, as the code has it: called with the mutex free, [push_back] takes the
    mutex, appends the value at the end and returns with the mutex free; when
    the vector throws, the exception leaves [push_back] past its [unlock()],
    with the vector unchanged and the mutex still owned by the caller. *)
Theorem push_back_lock_paths alloc_ok t i sh0 :
  mut sh0 = None ->
  push_back alloc_ok t i sh0 =
  if alloc_ok then Returns (Shared None (vec sh0 ++ [i]) (cout sh0))
  else Throws (Shared (Some t) (vec sh0) (cout sh0)).
Proof.
  intros Hm. destruct alloc_ok.
  - by apply push_back_returns.
  - by apply push_back_throws.
Qed.

Lemma push_back_lock_paths_witness :
  push_back true 1 7%Z (Shared None [3; 5]%Z [])
  = Returns (Shared None [3; 5; 7]%Z []).
Proof. exact (push_back_lock_paths true 1 7%Z (Shared None [3; 5]%Z []) eq_refl). Defined.

(** C2, as stated, fails on the path of the exception: the mutex is not
    released. *)
Lemma push_back_throw_keeps_lock :
  exists sh1,
    push_back false 1 7%Z (Shared None [3; 5]%Z []) = Throws sh1 /\
    mut sh1 = Some 1.
Proof. eexists. split; reflexivity. Qed.

Lemma render_joined l :
  render l = joined_by_sep (map dec l)
               ++ match l with [] => [] | _ => sep end.
Proof.
  induction l as [|i [|i' l] IH]; [done | simpl; by rewrite app_nil_r |].
  change (render (i :: i' :: l)) with ((dec i ++ sep) ++ render (i' :: l)).
  rewrite IH. cbn [map joined_by_sep]. by rewrite <- !app_assoc.
Qed.

(** C7: called with the mutex free, [print] writes the elements in the order
    of the vector, each followed by [", "], and then a newline: the elements
    joined by [", "], one more [", "] after the last, and the newline. *)
Theorem print_renders t sh0 :
  mut sh0 = None ->
  exists sh1,
    print t sh0 = Returns sh1 /\
    cout sh1 = cout sh0 ++ render (vec sh0) ++ endl /\
    render (vec sh0)
    = joined_by_sep (map dec (vec sh0))
        ++ match vec sh0 with [] => [] | _ => sep end.
Proof.
  intros Hm. eexists. split; [by apply print_returns|].
  split; [done | apply render_joined].
Qed.

Lemma print_renders_witness :
  exists sh1,
    print 1 (Shared None [1; -2; 3]%Z []) = Returns sh1 /\
    cout sh1 = list_ascii_of_string "1, -2, 3, " ++ endl.
Proof.
  destruct (print_renders 1 (Shared None [1; -2; 3]%Z []) eq_refl)
    as (sh1 & Hp & Hc & _).
  exists sh1. split; [exact Hp | exact Hc].
Defined.

(** C9: called with the mutex free, [print] returns with the vector as it
    was, the mutex free again, and the stream extended. *)
Theorem print_keeps_vec t sh0 :
  mut sh0 = None ->
  exists sh1,
    print t sh0 = Returns sh1 /\
    vec sh1 = vec sh0 /\
    mut sh1 = mut sh0 /\
    cout sh0 `prefix_of` cout sh1.
Proof.
  intros Hm. eexists. split; [by apply print_returns|]. simpl.
  split; [done|]. split; [done|]. by eexists.
Qed.

Lemma print_keeps_vec_witness :
  exists sh1,
    print 2 (Shared None [4; 4; 9]%Z []) = Returns sh1 /\
    vec sh1 = [4; 4; 9]%Z.
Proof.
  destruct (print_keeps_vec 2 (Shared None [4; 4; 9]%Z []) eq_refl)
    as (sh1 & Hp & Hv & _).
  exists sh1. split; [exact Hp | exact Hv].
Defined.

(** Along a run of the [Vector] program the vector only grows at its end. *)
Lemma guarded_vec_prefix css sched t s s' :
  run sched (boot (guarded css)) = Some s -> step t s = Some s' ->
  vec (sh s) `prefix_of` vec (sh s').
Proof.
  intros Hrun Hs.
  assert (run (sched ++ [t]) (boot (guarded css)) = Some s') as Hrun'
    by (apply run_snoc; eauto).
  destruct (guarded_state _ _ _ Hrun) as [-> _].
  destruct (guarded_state _ _ _ Hrun') as [-> _].
  destruct (step_next_instr _ _ _ Hs) as [i Hi].
  unfold history. rewrite (trace_snoc _ _ _ _ _ _ Hrun Hs Hi).
  rewrite omap_app, fmap_app, pushes_app. by eexists.
Qed.

(** Without the mutex the same vector loses updates: two threads that call
    [vec.push_back] directly can both find the same end. *)
Remark unguarded_push_back_loses :
  exists s,
    run [0; 0; 1; 2; 1; 2; 0; 0; 0]
      (boot (program [[IPushBack 1%Z]; [IPushBack 2%Z]] [])) = Some s /\
    finished s /\ vec (sh s) = [2%Z].
Proof.
  eexists. split; [vm_compute; reflexivity|].
  split; [repeat constructor | reflexivity].
Qed.

(** C10: called with the mutex free, [push_back] returns with the vector one
    longer and every element where it was; [print] returns with the vector
    as long as before; however either call ends, by return or by exception,
    the vector it leaves starts with the vector it found; and in every run of
    the [Vector] program every step of every thread leaves a vector that
    starts with the one it found. *)
Theorem vec_only_grows t i sh0 :
  mut sh0 = None ->
  (exists sh1,
     push_back true t i sh0 = Returns sh1 /\
     length (vec sh1) = S (length (vec sh0)) /\
     (forall k x, vec sh0 !! k = Some x -> vec sh1 !! k = Some x)) /\
  (exists sh1,
     print t sh0 = Returns sh1 /\ length (vec sh1) = length (vec sh0)) /\
  (forall alloc_ok o sh1,
     o = push_back alloc_ok t i sh0 \/ o = print t sh0 ->
     o = Returns sh1 \/ o = Throws sh1 ->
     vec sh0 `prefix_of` vec sh1) /\
  (forall css sched u s s',
     run sched (boot (guarded css)) = Some s -> step u s = Some s' ->
     vec (sh s) `prefix_of` vec (sh s')).
Proof.
  intros Hm. split; [|split; [|split]].
  - eexists. split; [by apply push_back_returns|]. simpl. split.
    + rewrite length_app. simpl. lia.
    + intros k x Hk. by apply lookup_app_l_Some.
  - eexists. split; [by apply print_returns|]. done.
  - intros alloc_ok o sh1 [-> | ->].
    + destruct alloc_ok;
        [rewrite push_back_returns by done | rewrite push_back_throws by done];
        intros [[= <-] | [= <-]]; simpl; [by eexists | done].
    + rewrite print_returns by done. intros [[= <-] | [= <-]]. done.
  - intros css sched u s s'. apply guarded_vec_prefix.
Qed.

Lemma vec_only_grows_witness :
  exists sh1,
    push_back true 1 7%Z (Shared None [3; 5]%Z []) = Returns sh1 /\
    length (vec sh1) = 3.
Proof.
  destruct (vec_only_grows 1 7%Z (Shared None [3; 5]%Z []) eq_refl)
    as ((sh1 & Hp & Hl & _) & _).
  exists sh1. split; [exact Hp | exact Hl].
Defined.

(** * Further properties *)

(** ** What is written is what [std::cout] holds *)

Lemma share_app {A} t (l1 l2 : list (tid * A)) :
  share t (l1 ++ l2) = share t l1 ++ share t l2.
Proof. unfold share. by rewrite filter_app, fmap_app. Qed.

Lemma share_cons {A} t u (x : A) l :
  share t ((u, x) :: l) = if decide (u = t) then x :: share t l else share t l.
Proof. unfold share. rewrite filter_cons. simpl. by case_decide. Qed.

Lemma share_pair_same {A} t (str : list A) : share t (map (pair t) str) = str.
Proof.
  induction str as [|c str IH]; [done|]. simpl.
  by rewrite share_cons, decide_True, IH.
Qed.

Lemma share_pair_other {A} t u (str : list A) :
  u <> t -> share t (map (pair u) str) = [].
Proof.
  intros Hne. induction str as [|c str IH]; [done|]. simpl.
  by rewrite share_cons, decide_False.
Qed.

Lemma share_none {A} t (l : list (tid * A)) :
  (forall e, e ∈ l -> e.1 <> t) -> share t l = [].
Proof.
  induction l as [|[u x] l IH]; intros Hl; [done|].
  rewrite share_cons, decide_False by (apply (Hl (u, x)); left).
  apply IH. intros e He. apply Hl. by right.
Qed.

Lemma share_nil_inv {A} t (l : list (tid * A)) e :
  share t l = [] -> e ∈ l -> e.1 <> t.
Proof.
  induction l as [|[u x] l IH]; intros Hs He; [by apply elem_of_nil in He|].
  rewrite share_cons in Hs. destruct (decide (u = t)) as [->|Hne]; [done|].
  apply elem_of_cons in He as [-> | He]; [done | by apply IH].
Qed.

Lemma snd_pair {A} (t : tid) (str : list A) : (map (pair t) str).*2 = str.
Proof. induction str as [|c str IH]; [done|]. simpl. f_equal. exact IH. Qed.

Lemma step_cout t s s' i :
  step t s = Some s' -> next_instr t s = Some i ->
  cout (sh s') = cout (sh s) ++ (put_event (t, i)).*2.
Proof.
  unfold step, next_instr. destruct (exit_status s); [done|].
  destruct (threads s !! t) as [[|i' k]|]; try done.
  intros Hs [= ->].
  assert (forall k' x, resume t k' s (Returns x) = Some s' -> sh s' = x)
    as Hres by (intros k' x [= <-]; done).
  destruct i; unfold put_event; simpl; rewrite ?app_nil_r;
    try (apply Hres in Hs as ->; done).
  - unfold mut_lock in Hs. destruct (mut (sh s)); [by case_decide|].
    by apply Hres in Hs as ->.
  - unfold mut_unlock in Hs. destruct (mut (sh s)); [|done].
    case_decide; [|done]. by apply Hres in Hs as ->.
  - destruct (k0 <? n); by apply Hres in Hs as ->.
  - apply Hres in Hs as ->. simpl. by rewrite snd_pair.
  - by injection Hs as <-.
  - destruct (threads s !! u) as [[|]|]; try done. by apply Hres in Hs as ->.
  - by injection Hs as <-.
Qed.

Lemma written_snoc sched t s s1 s' i :
  run sched s = Some s1 -> step t s1 = Some s' -> next_instr t s1 = Some i ->
  written (sched ++ [t]) s = written sched s ++ put_event (t, i).
Proof.
  intros H1 H2 Hi. unfold written.
  rewrite (trace_snoc _ _ _ _ _ _ H1 H2 Hi), flat_map_app. simpl.
  by rewrite app_nil_r.
Qed.

Lemma cout_written sched s0 s :
  run sched s0 = Some s -> cout (sh s) = cout (sh s0) ++ (written sched s0).*2.
Proof.
  revert s. induction sched as [|t sched IH] using rev_ind; intros s.
  - intros [= <-]. by rewrite app_nil_r.
  - intros (s1 & H1 & H2)%run_snoc.
    destruct (step_next_instr _ _ _ H2) as [i Hi].
    rewrite (step_cout _ _ _ _ H2 Hi), (IH _ H1).
    rewrite (written_snoc _ _ _ _ _ _ H1 H2 Hi), fmap_app.
    by rewrite <- app_assoc.
Qed.

(** ** [scrambled.cpp]: what holds without the mutex *)

Section Scrambled.
Variable msgs : list (list ascii).

Local Abbreviation N := (length msgs).
Local Abbreviation workers := (map printString_scrambled msgs).
Local Abbreviation outs := [endl].
Local Abbreviation scrambled := (scrambled msgs).
Local Abbreviation scr_inv := (scr_inv msgs).
Local Abbreviation sc_str := (sc_str msgs).
Local Abbreviation sc_at := (sc_at msgs).
Local Abbreviation sc_tid := (sc_tid msgs).
Local Abbreviation sc_main := (sc_main msgs).
Local Abbreviation sc_last := (sc_last msgs).

Lemma scr_workers_plain : Forall plain workers.
Proof. apply Forall_fmap, Forall_true. intros m. apply put_chars_plain. Qed.

Lemma scr_worker_code p c :
  workers !! p = Some c -> c = put_chars (msgs !!! p).
Proof.
  change workers with (printString_scrambled <$> msgs).
  rewrite list_lookup_fmap.
  destruct (msgs !! p) as [m|] eqn:E; [|done]. intros [= <-].
  by rewrite (list_lookup_total_correct _ _ _ E).
Qed.

Lemma scr_inv_boot : scr_inv [] (boot scrambled) 0.
Proof.
  split; simpl; try done.
  - apply structure_boot.
  - intros e He. by apply elem_of_nil in He.
  - intros ?. lia.
Qed.

Lemma scr_inv_main w s p s' i :
  scr_inv w s p -> step 0 s = Some s' -> next_instr 0 s = Some i ->
  scr_inv (w ++ put_event (0, i)) s' (S p).
Proof.
  intros Inv Hs Hi. pose proof (sc_str _ _ _ Inv) as St.
  pose proof (step_main _ _ _ _ _ St Hs) as Hm.
  pose proof (structure_main _ _ scr_workers_plain _ _ _ St Hm) as St'.
  pose proof (st_len _ _ _ _ St) as Hlen.
  pose proof (st_main _ _ _ _ St) as Hmain.
  assert (length workers = N) as HN by apply length_map.
  assert (forall j, <[0 := drop (S p) (program workers outs)]> (threads s)
                      !! S j = threads s !! S j) as Hne
    by (intros j; by apply list_lookup_insert_ne).
  unfold next_instr in Hi. rewrite Hmain in Hi.
  destruct Inv as [_ Hat Htid Hmainw Hlast].
  destruct Hm as [c Hc | j Hj -> Hdone | j o Ho -> | ->].
  - pose proof (lookup_lt_Some _ _ _ Hc) as Hlt.
    rewrite (drop_S _ _ _ (program_spawn _ _ _ _ Hc)) in Hi.
    injection Hi as <-. unfold put_event. simpl. rewrite app_nil_r.
    split; try done; simpl.
    + intros j k. destruct (decide (S j < length (threads s))) as [Hj|Hj].
      * rewrite lookup_app_l by (rewrite length_insert; lia).
        rewrite Hne. apply Hat.
      * rewrite lookup_app_r by (rewrite length_insert; lia).
        rewrite length_insert. intros [Hi <-]%list_lookup_singleton_Some.
        replace j with p by lia. exists (msgs !!! p).
        split; [left; by apply scr_worker_code|].
        rewrite share_none; [done|]. intros e He%Htid. lia.
    + intros e He%Htid. rewrite length_app, length_insert. lia.
    + rewrite Hmainw. repeat case_decide; done || lia.
    + intros ?. lia.
  - rewrite (drop_S _ _ _ (program_join _ _ _ Hj)) in Hi.
    injection Hi as <-. unfold put_event. simpl. rewrite app_nil_r.
    split; try done; simpl.
    + intros j' k. rewrite Hne. apply Hat.
    + intros e He%Htid. by rewrite length_insert.
    + rewrite Hmainw. repeat case_decide; done || lia.
    + intros ?. lia.
  - destruct j; [|by destruct j]. injection Ho as <-.
    rewrite (drop_S _ _ _ (program_put workers outs 0 endl eq_refl)) in Hi.
    injection Hi as <-. unfold put_event. simpl.
    split; try done; simpl.
    + intros j' k. rewrite Hne, share_app. intros Hk.
      destruct (Hat _ _ Hk) as (r & Hr & Heq). exists r. split; [done|].
      rewrite (share_cons (S j') 0), decide_False by done.
      change (@nil (tid * ascii)) with (map (pair 0) (@nil ascii)).
      by rewrite share_pair_other, app_nil_r by done.
    + intros e [He%Htid | He]%elem_of_app; rewrite length_insert; [done|].
      apply list_elem_of_singleton in He as ->. simpl. lia.
    + rewrite share_app, Hmainw.
      rewrite decide_False, decide_True by lia. simpl.
      by rewrite share_cons, decide_True.
    + intros _. by exists w.
  - rewrite (drop_S _ _ _ (program_return _ _)) in Hi.
    injection Hi as <-. unfold put_event. simpl. rewrite app_nil_r.
    split; try done; simpl.
    + intros j' k. rewrite Hne. apply Hat.
    + intros e He%Htid. by rewrite length_insert.
    + rewrite Hmainw. simpl. repeat case_decide; done || lia.
    + intros _. apply Hlast. simpl. lia.
Qed.

Lemma scr_inv_worker w s p j s' i :
  scr_inv w s p -> step (S j) s = Some s' -> next_instr (S j) s = Some i ->
  scr_inv (w ++ put_event (S j, i)) s' p.
Proof.
  intros Inv Hs Hi. pose proof (sc_str _ _ _ Inv) as St.
  pose proof (structure_worker _ _ _ _ _ _ St Hs) as St'.
  assert (length workers = N) as HN by apply length_map.
  unfold next_instr in Hi.
  destruct (threads s !! S j) as [[|i' k]|] eqn:Ht; try done.
  injection Hi as ->.
  pose proof (lookup_lt_Some _ _ _ Ht) as Hlt.
  pose proof (st_len _ _ _ _ St) as Hlen.
  assert (p <= N + j) as Hp.
  { destruct (decide (N + j < p)) as [Hc|]; [|lia].
    pose proof (Nat.le_min_r p (length workers)).
    rewrite (st_joined _ _ _ _ St j) in Ht by lia. done. }
  pose proof (st_exit _ _ _ _ St) as Hex.
  rewrite program_length, decide_False in Hex
    by (pose proof (Nat.le_min_r p (length workers)); simpl; lia).
  destruct Inv as [_ Hat Htid Hmainw Hlast].
  destruct (Hat _ _ Ht) as (r & Hr & Heq).
  assert (forall j' k', j' <> j ->
            <[S j := k']> (threads s) !! S j' = threads s !! S j') as Hne
    by (intros; apply list_lookup_insert_ne; congruence).
  assert (forall k', <[S j := k']> (threads s) !! S j = Some k') as Heq'
    by (intros; by apply list_lookup_insert_eq).
  unfold step in Hs. rewrite Hex, Ht in Hs.
  unfold resume in Hs. rewrite ?Hex in Hs.
  destruct Hr as [Hr | Hr].
  - (* write the next character *)
    destruct r as [|c r]; simplify_eq/=. unfold put_event. simpl.
    split; try done; cbn [sh threads].
    + intros j' k'. destruct (decide (j' = j)) as [->|Hj'].
      * rewrite Heq'. intros [= <-]. exists r. split; [by right|].
        rewrite share_app, share_cons, decide_True by done.
        unfold share at 2. simpl. by rewrite <- app_assoc.
      * rewrite Hne by done. intros Hk.
        destruct (Hat _ _ Hk) as (r' & Hr' & Heq''). exists r'.
        split; [done|]. rewrite share_app, share_cons.
        rewrite decide_False by congruence.
        unfold share at 2. simpl. by rewrite app_nil_r.
    + intros e [He%Htid | He]%elem_of_app; rewrite length_insert; [done|].
      apply list_elem_of_singleton in He as ->. done.
    + rewrite share_app, (share_cons 0 (S j)), decide_False by done.
      unfold share at 2. simpl. rewrite app_nil_r, Hmainw. done.
    + intros ?. lia.
  - (* the pause after a character *)
    simplify_eq/=. unfold put_event. simpl. rewrite app_nil_r.
    split; try done; cbn [sh threads].
    + intros j' k'. destruct (decide (j' = j)) as [->|Hj'].
      * rewrite Heq'. intros [= <-]. exists r. split; [by left | done].
      * rewrite Hne by done. apply Hat.
    + intros e He%Htid. by rewrite length_insert.
Qed.

Lemma scr_inv_run sched s :
  run sched (boot scrambled) = Some s ->
  exists p, scr_inv (written sched (boot scrambled)) s p.
Proof.
  revert s. induction sched as [|t sched IH] using rev_ind; intros s.
  - intros [= <-]. exists 0. apply scr_inv_boot.
  - intros (s1 & H1 & H2)%run_snoc. destruct (IH _ H1) as [p Inv].
    destruct (step_next_instr _ _ _ H2) as [i Hi].
    rewrite (written_snoc _ _ _ _ _ _ H1 H2 Hi).
    destruct t as [|j].
    + exists (S p). by eapply scr_inv_main.
    + exists p. by eapply scr_inv_worker.
Qed.

(** No thread of [scrambled.cpp] ever waits, except [main] at a [join]. *)
Lemma scr_inv_progress w s p :
  scr_inv w s p -> finished s \/ exists t s', step t s = Some s'.
Proof.
  intros Inv. pose proof (sc_str _ _ _ Inv) as St.
  pose proof (st_len _ _ _ _ St) as Hlen.
  pose proof (st_pc _ _ _ _ St) as Hpc.
  pose proof (st_main _ _ _ _ St) as Hmain.
  pose proof (st_exit _ _ _ _ St) as Hex.
  assert (length workers = N) as HN by apply length_map.
  rewrite program_length in Hpc. simpl in Hpc.
  destruct (decide (p = length (program workers outs))) as [Hp|Hp].
  { left. rewrite program_length in Hp. simpl in Hp.
    apply Forall_lookup. intros [|j] k Hk.
    - rewrite Hmain, drop_ge in Hk by (rewrite program_length; simpl; lia).
      by injection Hk.
    - pose proof (lookup_lt_Some _ _ _ Hk).
      rewrite (st_joined _ _ _ _ St j) in Hk by lia. by injection Hk. }
  right. rewrite program_length in Hp. simpl in Hp.
  destruct (decide (p < N)) as [Hs|Hs].
  { exists 0. unfold step. rewrite Hex, Hmain.
    destruct (lookup_lt_is_Some_2 workers p) as [c Hc]; [lia|].
    rewrite (drop_S _ _ _ (program_spawn _ _ _ _ Hc)). eauto. }
  destruct (decide (p < 2 * N)) as [Hj|Hj].
  { assert (p - N < length workers) as Hlt by lia.
    pose proof (program_join workers outs _ Hlt) as Hl.
    replace (length workers + (p - N)) with p in Hl by lia.
    destruct (lookup_lt_is_Some_2 (threads s) (S (p - N))) as [k Hk].
    { pose proof (Nat.min_r p N). lia. }
    destruct k as [|i k].
    - exists 0. unfold step. rewrite Hex, Hmain, (drop_S _ _ _ Hl), Hk.
      simpl. eauto.
    - exists (S (p - N)). unfold step. rewrite Hex, Hk.
      destruct (sc_at _ _ _ Inv _ _ Hk) as (r & [Hr | Hr] & _).
      + destruct r; simplify_eq/=. eauto.
      + simplify_eq/=. eauto. }
  destruct (decide (p = 2 * N)) as [->|Hput].
  - exists 0. unfold step. rewrite Hex, Hmain.
    pose proof (program_put workers outs 0 endl eq_refl) as Hl.
    rewrite Nat.add_0_r, HN in Hl. rewrite (drop_S _ _ _ Hl). simpl. eauto.
  - exists 0. unfold step. rewrite Hex, Hmain.
    assert (p = 2 * length workers + length outs) as -> by (simpl; lia).
    rewrite (drop_S _ _ _ (program_return workers outs)). eauto.
Qed.

Lemma scr_no_loop w s p t :
  scr_inv w s p -> next_instr t s <> Some IForBegin.
Proof.
  intros Inv Hi. destruct t as [|j].
  - by destruct (main_next_instr _ _ _ _ _ (sc_str _ _ _ Inv) Hi)
      as [[? ?] | [[? ?] | [(? & ? & _) | ?]]].
  - unfold next_instr in Hi.
    destruct (threads s !! S j) as [[|i k]|] eqn:Ht; try done.
    injection Hi as ->.
    destruct (sc_at _ _ _ Inv _ _ Ht) as (r & [Hr | Hr] & _);
      [by destruct r | done].
Qed.

Lemma scrambled_run_work sched s :
  run sched (boot scrambled) = Some s ->
  length sched + work 0 s <= work 0 (boot scrambled).
Proof.
  revert s. induction sched as [|t sched IH] using rev_ind; intros s.
  - intros [= <-]. simpl. lia.
  - intros (s1 & H1 & H2)%run_snoc. specialize (IH _ H1).
    destruct (scr_inv_run _ _ H1) as [p Inv].
    assert (work 0 s < work 0 s1) as Hlt.
    { apply (step_work _ _ _ _ H2). intros Hi.
      by destruct (scr_no_loop _ _ _ t Inv). }
    rewrite length_app. simpl. lia.
Qed.

Lemma scrambled_can_finish sched s :
  run sched (boot scrambled) = Some s ->
  exists sched' s',
    run (sched ++ sched') (boot scrambled) = Some s' /\ finished s'.
Proof.
  remember (work 0 s) as n eqn:Hn.
  revert sched s Hn. induction n as [n IH] using lt_wf_ind.
  intros sched s -> Hrun. destruct (scr_inv_run _ _ Hrun) as [p Inv].
  destruct (scr_inv_progress _ _ _ Inv) as [Hfin | (t & s1 & Hs)].
  - exists [], s. by rewrite app_nil_r.
  - assert (run (sched ++ [t]) (boot scrambled) = Some s1) as Hrun1
      by (apply run_snoc; eauto).
    assert (work 0 s1 < work 0 s) as Hlt.
    { apply (step_work _ _ _ _ Hs). intros Hi.
      by destruct (scr_no_loop _ _ _ t Inv). }
    destruct (IH _ Hlt _ _ eq_refl Hrun1) as (sched' & s' & Hrun' & Hfin).
    exists (t :: sched'), s'. split; [|done].
    rewrite <- app_assoc in Hrun'. exact Hrun'.
Qed.
End Scrambled.

Lemma concat_share_cons {A} u (x : A) l ts :
  NoDup ts ->
  concat (map (fun t => share t ((u, x) :: l)) ts)
  ≡ₚ (if decide (u ∈ ts) then [x] else [])
       ++ concat (map (fun t => share t l) ts).
Proof.
  induction 1 as [|t ts Hnin Hnd IH]; simpl; [done|].
  rewrite IH, share_cons. destruct (decide (u = t)) as [->|Hne].
  - rewrite (decide_True (P := t ∈ t :: ts)) by left.
    rewrite (decide_False (P := t ∈ ts)) by done. done.
  - destruct (decide (u ∈ ts)) as [Hin|Hin].
    + rewrite (decide_True (P := u ∈ t :: ts)) by (by right). simpl.
      symmetry. apply Permutation_middle.
    + rewrite (decide_False (P := u ∈ t :: ts)); [done|].
      by intros [?|?]%elem_of_cons.
Qed.

Lemma share_partition {A} n (l : list (tid * A)) :
  (forall e, e ∈ l -> 1 <= e.1 <= n) ->
  l.*2 ≡ₚ concat (map (fun t => share t l) (seq 1 n)).
Proof.
  induction l as [|[u x] l IH]; intros Hl.
  - unfold share. simpl. induction (seq 1 n); simpl; [done | by auto].
  - rewrite concat_share_cons by apply NoDup_seq.
    rewrite decide_True.
    2: { apply elem_of_seq. specialize (Hl (u, x) ltac:(left)). simpl in Hl.
         lia. }
    simpl. constructor. apply IH. intros e He. apply Hl. by right.
Qed.

Lemma put_chars_cost bound text :
  sum_list_with (cost bound) (put_chars text) = 2 * length text.
Proof. induction text as [|c text IH]; simpl in *; lia. Qed.

Lemma joins_cost bound us :
  sum_list_with (cost bound) (map IJoin us) = length us.
Proof. induction us as [|u us IH]; simpl in *; lia. Qed.

Lemma scrambled_work msgs :
  work 0 (boot (scrambled msgs))
  = 2 * length (concat msgs) + 2 * length msgs + 2.
Proof.
  unfold work, boot, scrambled, program, main_code. simpl.
  rewrite !sum_list_with_app, joins_cost, length_seq, length_map. simpl.
  assert (sum_list_with (cost 0) (map ISpawn (map printString_scrambled msgs))
          = length msgs + 2 * length (concat msgs)) as ->.
  { induction msgs as [|m msgs IH]; [done|]. simpl.
    rewrite IH, length_app. unfold printString_scrambled.
    rewrite put_chars_cost. lia. }
  lia.
Qed.

Lemma unscrambled_work msgs :
  work 0 (boot (unscrambled msgs))
  = 2 * length (concat msgs) + 4 * length msgs + 2.
Proof.
  unfold work, boot, unscrambled, program, main_code. simpl.
  rewrite !sum_list_with_app, joins_cost, length_seq, length_map. simpl.
  assert (sum_list_with (cost 0) (map ISpawn (map printString msgs))
          = 3 * length msgs + 2 * length (concat msgs)) as ->.
  { induction msgs as [|m msgs IH]; [done|]. simpl.
    rewrite IH, length_app, sum_list_with_app, put_chars_cost. simpl. lia. }
  lia.
Qed.

(** X1: in [scrambled.cpp], whatever the schedule, the output is made of the
    characters that the threads wrote, in the order in which they wrote them;
    the characters of each thread are a beginning of its text, in the order
    of the text; and once all threads are done each thread has written its
    whole text, and the output is a rearrangement of all the characters of
    all the texts followed by the newline of [main]. *)
Theorem scrambled_keeps_order msgs sched s :
  run sched (boot (scrambled msgs)) = Some s ->
  let w := written sched (boot (scrambled msgs)) in
  cout (sh s) = w.*2 /\
  (forall j, j < length msgs -> share (S j) w `prefix_of` msgs !!! j) /\
  (finished s ->
   (forall j, j < length msgs -> share (S j) w = msgs !!! j) /\
   exists body, cout (sh s) = body ++ endl /\ body ≡ₚ concat msgs).
Proof.
  intros Hrun. pose proof (cout_written _ _ _ Hrun) as Hout. simpl in Hout.
  destruct (scr_inv_run _ _ _ Hrun) as [p Inv]. simpl.
  pose proof (sc_str _ _ _ _ Inv) as St.
  pose proof (st_len _ _ _ _ St) as Hlen. rewrite length_map in Hlen.
  split; [done|]. split.
  - intros j Hj. destruct (decide (S j < length (threads s))) as [Hlt|Hge].
    + destruct (lookup_lt_is_Some_2 _ _ Hlt) as [k Hk].
      destruct (sc_at _ _ _ _ Inv _ _ Hk) as (r & _ & <-). by exists r.
    + rewrite share_none; [apply prefix_nil|].
      intros e He%(sc_tid _ _ _ _ Inv). lia.
  - intros Hfin. pose proof (structure_finished _ _ _ _ St Hfin) as Hp.
    rewrite program_length, length_map in Hp. simpl in Hp. subst p.
    assert (length (threads s) = S (length msgs)) as Hlen' by lia.
    assert (forall j, j < length msgs ->
              share (S j) (written sched (boot (scrambled msgs)))
              = msgs !!! j) as Hall.
    { intros j Hj. destruct (lookup_lt_is_Some_2 (threads s) (S j)) as [k Hk].
      { lia. }
      pose proof (Forall_lookup_1 _ _ _ _ Hfin Hk) as ->.
      destruct (sc_at _ _ _ _ Inv _ _ Hk) as (r & [Hr | Hr] & <-); [|done].
      destruct r; [|done]. by rewrite app_nil_r. }
    split; [done|].
    destruct (sc_last _ _ _ _ Inv ltac:(lia)) as [wk Hwk].
    pose proof (sc_main _ _ _ _ Inv) as Hmain.
    rewrite decide_True in Hmain by lia.
    rewrite Hwk, share_app, share_pair_same in Hmain.
    assert (share 0 wk = []) as Hno
      by (apply (app_inv_tail endl); by rewrite Hmain).
    exists wk.*2. split.
    + by rewrite Hout, Hwk, fmap_app, snd_pair.
    + rewrite (share_partition (length msgs)).
      2: { intros e He. pose proof (share_nil_inv _ _ _ Hno He).
           assert (e ∈ written sched (boot (scrambled msgs))) as Hin
             by (rewrite Hwk; apply elem_of_app; by left).
           apply (sc_tid _ _ _ _ Inv) in Hin. lia. }
      transitivity
        (concat (map (fun t => id (msgs !!! (t - 1))) (seq 1 (length msgs))));
        [|by rewrite (map_seq_total id msgs), map_id].
      rewrite (map_ext_in _ (fun t => id (msgs !!! (t - 1)))); [done|].
      intros t [Ht1 Ht2]%list_elem_of_In%elem_of_seq.
      destruct t as [|j]; [lia|]. replace (S j - 1) with j by lia.
      rewrite <- Hall by lia. rewrite Hwk, share_app.
      by rewrite share_pair_other, app_nil_r.
Qed.

Lemma scrambled_keeps_order_witness :
  share 2 (written (round_robin 100 0 (boot main_scrambled))
             (boot main_scrambled))
  = list_ascii_of_string "123".
Proof.
  assert (run (round_robin 100 0 (boot main_scrambled))
            (boot (scrambled messages))
          = Some (outcome_of (round_robin 100 0 (boot main_scrambled))
                    (boot main_scrambled))) as Hrun
    by (vm_compute; reflexivity).
  assert (finished (outcome_of (round_robin 100 0 (boot main_scrambled))
                      (boot main_scrambled))) as Hfin
    by (vm_compute; repeat constructor).
  exact (proj1 (proj2 (proj2 (scrambled_keeps_order messages _ _ Hrun)) Hfin)
           1 ltac:(simpl; lia)).
Defined.

(** X2: [scrambled.cpp] cannot get stuck and always ends: in every state of a
    run all threads are done or some thread can move, no run has more than
    2 * (number of characters) + 2 * (number of texts) + 2 steps, and every
    run can be continued until all threads are done. *)
Theorem scrambled_terminates msgs sched s :
  run sched (boot (scrambled msgs)) = Some s ->
  (finished s \/ exists t s', step t s = Some s') /\
  length sched <= 2 * length (concat msgs) + 2 * length msgs + 2 /\
  (exists sched' s',
     run (sched ++ sched') (boot (scrambled msgs)) = Some s' /\ finished s').
Proof.
  intros Hrun. split; [|split].
  - destruct (scr_inv_run _ _ _ Hrun) as [p Inv].
    by eapply scr_inv_progress.
  - pose proof (scrambled_run_work _ _ _ Hrun) as Hw.
    rewrite scrambled_work in Hw. lia.
  - by eapply scrambled_can_finish.
Qed.

Lemma scrambled_terminates_witness :
  length (round_robin 100 0 (boot main_scrambled)) <= 26.
Proof.
  assert (run (round_robin 100 0 (boot main_scrambled))
            (boot (scrambled messages))
          = Some (outcome_of (round_robin 100 0 (boot main_scrambled))
                    (boot main_scrambled))) as Hrun
    by (vm_compute; reflexivity).
  exact (proj1 (proj2 (scrambled_terminates messages _ _ Hrun))).
Defined.

(** ** [unscrambled.cpp]: who may write, and termination *)

(** [main] reaches a write only after all its joins. *)
Lemma main_put_after_joins workers outs s p o :
  structure workers outs s p -> next_instr 0 s = Some (IPut o) ->
  2 * length workers <= p /\
  forall j, j < length workers -> threads s !! S j = Some [].
Proof.
  intros St Hi. unfold next_instr in Hi. rewrite (st_main _ _ _ _ St) in Hi.
  assert (2 * length workers <= p) as Hp.
  { destruct (decide (p < length workers)) as [H1|H1].
    { destruct (lookup_lt_is_Some_2 workers p H1) as [c Hc].
      by rewrite (drop_S _ _ _ (program_spawn _ outs _ _ Hc)) in Hi. }
    destruct (decide (p < 2 * length workers)) as [H2|H2]; [|lia].
    assert (p - length workers < length workers) as Hj by lia.
    pose proof (program_join workers outs _ Hj) as Hl.
    replace (length workers + (p - length workers)) with p in Hl by lia.
    by rewrite (drop_S _ _ _ Hl) in Hi. }
  split; [done|]. intros j Hj.
  destruct (decide (p = 2 * length workers)) as [->|Hne].
  - apply (st_joined _ _ _ _ St); lia.
  - apply (st_joined _ _ _ _ St); lia.
Qed.

(** X3: in [unscrambled.cpp], in every state of every run, a worker that is
    about to write a character owns [coutMutex]; when [main] is about to
    write its newline every worker is done; and no two threads are about to
    write at the same time. *)
Theorem cout_exclusive msgs sched s t str :
  run sched (boot (unscrambled msgs)) = Some s ->
  next_instr t s = Some (IPut str) ->
  (t <> 0 -> mut (sh s) = Some t) /\
  (t = 0 -> forall j, j < length msgs -> threads s !! S j = Some []) /\
  (forall u str', u <> t -> next_instr u s <> Some (IPut str')).
Proof.
  intros Hrun Hi. destruct (sink_inv_run _ _ _ Hrun) as [p Inv].
  pose proof (si_str _ _ _ _ Inv) as St.
  assert (forall j str', next_instr (S j) s = Some (IPut str') ->
            mut (sh s) = Some (S j)) as Hw.
  { intros j str' Hj. unfold next_instr in Hj.
    destruct (threads s !! S j) as [[|i k]|] eqn:Ht; try done.
    injection Hj as ->.
    destruct (si_at _ _ _ _ Inv _ _ Ht) as (ph & Hat & Hbusy & _).
    apply Hbusy.
    by destruct (sink_at_cons _ _ _ _ Hat)
      as [(_ & ? & _) | [(_ & ? & _) | [(? & _) | (_ & ? & _)]]]. }
  assert (forall o, next_instr 0 s = Some (IPut o) ->
            forall j, j < length msgs -> threads s !! S j = Some []) as Hm.
  { intros o Ho j Hj.
    destruct (main_put_after_joins _ _ _ _ _ St Ho) as [_ Hall].
    apply Hall. by rewrite length_map. }
  split; [|split].
  - intros Hne. destruct t as [|j]; [done|]. by eapply Hw.
  - intros ->. by eapply Hm.
  - intros u str' Hne Hu. destruct t as [|j], u as [|j']; try done.
    + (* main writes, a worker is about to write *)
      pose proof (Hw _ _ Hu) as Hown.
      destruct (si_owner _ _ _ _ Inv _ Hown) as [_ Hlt].
      pose proof (st_len _ _ _ _ St) as Hlen. rewrite length_map in Hlen.
      pose proof (Nat.le_min_r p (length msgs)).
      unfold next_instr in Hu. rewrite (Hm _ Hi j') in Hu by lia. done.
    + (* a worker writes, main is about to write *)
      pose proof (Hw _ _ Hi) as Hown.
      destruct (si_owner _ _ _ _ Inv _ Hown) as [_ Hlt].
      pose proof (st_len _ _ _ _ St) as Hlen. rewrite length_map in Hlen.
      pose proof (Nat.le_min_r p (length msgs)).
      unfold next_instr in Hi. rewrite (Hm _ Hu j) in Hi by lia. done.
    + (* two workers *)
      pose proof (Hw _ _ Hi). pose proof (Hw _ _ Hu). congruence.
Qed.

Lemma cout_exclusive_witness :
  mut (sh (outcome_of (round_robin 3 0 (boot main_unscrambled))
             (boot main_unscrambled))) = Some 1.
Proof.
  assert (run (round_robin 3 0 (boot main_unscrambled))
            (boot (unscrambled messages))
          = Some (outcome_of (round_robin 3 0 (boot main_unscrambled))
                    (boot main_unscrambled))) as Hrun
    by (vm_compute; reflexivity).
  assert (next_instr 1 (outcome_of (round_robin 3 0 (boot main_unscrambled))
                          (boot main_unscrambled))
          = Some (IPut (list_ascii_of_string "A"))) as Hnext
    by (vm_compute; reflexivity).
  exact (proj1 (cout_exclusive messages _ _ 1 _ Hrun Hnext) ltac:(done)).
Defined.

Lemma unscrambled_run_work msgs sched s :
  run sched (boot (unscrambled msgs)) = Some s ->
  length sched + work 0 s <= work 0 (boot (unscrambled msgs)).
Proof.
  revert s. induction sched as [|t sched IH] using rev_ind; intros s.
  - intros [= <-]. simpl. lia.
  - intros (s1 & H1 & H2)%run_snoc. specialize (IH _ H1).
    destruct (sink_inv_run _ _ _ H1) as [p Inv].
    assert (work 0 s < work 0 s1) as Hlt.
    { apply (step_work _ _ _ _ H2). intros Hi.
      by destruct (sink_no_loop _ _ _ _ _ _ Inv H2). }
    rewrite length_app. simpl. lia.
Qed.

(** X4: [unscrambled.cpp] cannot deadlock and always ends: in every state of
    a run all threads are done or some thread can move, and no run has more
    than 2 * (number of characters) + 4 * (number of texts) + 2 steps. *)
Theorem unscrambled_terminates msgs sched s :
  run sched (boot (unscrambled msgs)) = Some s ->
  (finished s \/ exists t s', step t s = Some s') /\
  length sched <= 2 * length (concat msgs) + 4 * length msgs + 2.
Proof.
  intros Hrun. split.
  - destruct (sink_inv_run _ _ _ Hrun) as [p Inv].
    by eapply sink_inv_progress.
  - pose proof (unscrambled_run_work _ _ _ Hrun) as Hw.
    rewrite unscrambled_work in Hw. lia.
Qed.

Lemma unscrambled_terminates_witness :
  length (round_robin 100 0 (boot main_unscrambled)) <= 32.
Proof.
  assert (run (round_robin 100 0 (boot main_unscrambled))
            (boot (unscrambled messages))
          = Some (outcome_of (round_robin 100 0 (boot main_unscrambled))
                    (boot main_unscrambled))) as Hrun
    by (vm_compute; reflexivity).
  exact (proj2 (unscrambled_terminates messages _ _ Hrun)).
Defined.

(** ** The [Vector] program: termination and the discipline of the mutex *)

Lemma client_cost bound cs :
  sum_list_with (cost bound) (client cs)
  = sum_list_with (call_steps bound) cs.
Proof.
  induction cs as [|[x| |] cs IH]; simpl in *; [done | lia..].
Qed.

Lemma guarded_work bound css :
  work bound (boot (guarded css))
  = 2 * length css + 1
    + sum_list_with (sum_list_with (call_steps bound)) css.
Proof.
  unfold work, boot, guarded, program, main_code. simpl.
  rewrite !sum_list_with_app, joins_cost, length_seq, length_map. simpl.
  assert (sum_list_with (cost bound) (map ISpawn (map client css))
          = length css + sum_list_with (sum_list_with (call_steps bound)) css)
    as ->.
  { induction css as [|cs css IH]; [done|]. simpl.
    rewrite IH, client_cost. lia. }
  lia.
Qed.

(** X5: the [Vector] program cannot deadlock and always ends, for any workers
    and calls: in every state of a run all threads are done or some thread
    can move, and no run has more steps than two per worker, one for the
    return of [main], and for each call its steps with the vector at its
    final length. *)
Theorem vector_terminates css sched s :
  run sched (boot (guarded css)) = Some s ->
  (finished s \/ exists t s', step t s = Some s') /\
  length sched
  <= 2 * length css + 1
     + sum_list_with
         (sum_list_with (call_steps (length (concat (map pushes css))))) css.
Proof.
  intros Hrun. split; [by eapply guarded_no_deadlock|].
  pose proof (guarded_run_bound _ _ _ Hrun) as Hw.
  rewrite guarded_work in Hw. lia.
Qed.

Lemma vector_terminates_witness :
  length (round_robin 1000 0 (boot main)) <= 847.
Proof.
  assert (run (round_robin 1000 0 (boot main))
            (boot (guarded [func_calls; func_calls; func_calls]))
          = Some (outcome_of (round_robin 1000 0 (boot main)) (boot main)))
    as Hrun by (vm_compute; reflexivity).
  exact (proj2 (vector_terminates _ _ _ Hrun)).
Defined.

Lemma vec_at_critical v i k pend :
  vec_at v (i :: k) true pend -> critical i = true.
Proof. by inversion 1. Qed.

(** X6: in every state of every run of the [Vector] program, a thread whose
    next step is inside [push_back] or [print] (an access to the vector or
    the stream, or [unlock()]) owns the mutex, so [unlock()] is never called
    by a thread that does not own it; a thread about to call [lock()] does
    not own it; and the owner of the mutex is always a thread inside
    [push_back] or [print], so a finished thread never holds the mutex. *)
Theorem mutex_discipline css sched s :
  run sched (boot (guarded css)) = Some s ->
  (forall u i, next_instr u s = Some i -> critical i = true ->
               mut (sh s) = Some u) /\
  (forall u, next_instr u s = Some ILock -> mut (sh s) <> Some u) /\
  (forall u, mut (sh s) = Some u ->
             exists i, next_instr u s = Some i /\ critical i = true).
Proof.
  intros [p Inv]%vec_inv_run. pose proof (vi_str _ _ _ _ Inv) as St.
  assert (forall j i k, threads s !! S j = Some (i :: k) ->
            if decide (mut (sh s) = Some (S j)) then critical i = true
            else i = ILock \/ i = ISleep) as Hsh.
  { intros j i k Ht. destruct (vi_at _ _ _ _ Inv _ _ Ht) as (pend & Hat & _).
    case_decide.
    - rewrite bool_decide_true in Hat by done. by eapply vec_at_critical.
    - rewrite bool_decide_false in Hat by done. by eapply vec_at_outside. }
  split; [|split].
  - intros [|j] i Hi Hc.
    + destruct (main_next_instr _ _ _ _ _ St Hi)
        as [[? ->] | [[? ->] | [(? & -> & []%elem_of_nil) | ->]]]; done.
    + unfold next_instr in Hi.
      destruct (threads s !! S j) as [[|i' k]|] eqn:Ht; try done.
      injection Hi as ->. specialize (Hsh _ _ _ Ht).
      case_decide; [done|]. by destruct Hsh as [-> | ->].
  - intros [|j] Hi Hm.
    + destruct (vi_owner _ _ _ _ Inv _ Hm). lia.
    + unfold next_instr in Hi.
      destruct (threads s !! S j) as [[|i' k]|] eqn:Ht; try done.
      injection Hi as ->. specialize (Hsh _ _ _ Ht).
      by rewrite decide_True in Hsh by done.
  - intros u Hm. destruct (vi_owner _ _ _ _ Inv _ Hm) as [H0 Hlt].
    destruct u as [|j]; [lia|].
    destruct (lookup_lt_is_Some_2 _ _ Hlt) as [k Hk].
    destruct (vi_at _ _ _ _ Inv _ _ Hk) as (pend & Hat & _).
    rewrite bool_decide_true in Hat by done.
    destruct k as [|i k]; [by inversion Hat|].
    exists i. unfold next_instr. rewrite Hk. split; [done|].
    by eapply vec_at_critical.
Qed.

Lemma mutex_discipline_witness :
  mut (sh (outcome_of (round_robin 6 0 (boot main)) (boot main))) = Some 1.
Proof.
  assert (run (round_robin 6 0 (boot main))
            (boot (guarded [func_calls; func_calls; func_calls]))
          = Some (outcome_of (round_robin 6 0 (boot main)) (boot main)))
    as Hrun by (vm_compute; reflexivity).
  assert (next_instr 1 (outcome_of (round_robin 6 0 (boot main)) (boot main))
          = Some IUnlock) as Hnext by (vm_compute; reflexivity).
  exact (proj1 (mutex_discipline _ _ _ Hrun) 1 IUnlock Hnext eq_refl).
Defined.

(** ** The [Vector] program: every run is a serial execution of its calls *)

Lemma shared_eta sh0 : Shared (mut sh0) (vec sh0) (cout sh0) = sh0.
Proof. by destruct sh0. Qed.

Lemma sync_no_sleep cs : CSleep ∉ sync cs.
Proof.
  induction cs as [|[x| |] cs IH]; simpl; [by intros ?%elem_of_nil | | | done];
    by intros [?|?]%elem_of_cons.
Qed.

(** X7: the calls of a run, taken in the order in which they took effect,
    are made by the workers only and give each worker's calls in the order of
    its code; whenever the mutex is free, and so when all threads are done,
    the vector and the output are exactly what [push_back] and [print] leave
    when these calls are executed one after the other, each to completion;
    and in a finished run no call of any worker is missing. *)
Theorem vector_linearizable css sched s :
  run sched (boot (guarded css)) = Some s ->
  let h := history sched (boot (guarded css)) in
  (forall e, e ∈ h -> 1 <= e.1 <= length css) /\
  (forall j, j < length css -> proj (S j) h `prefix_of` sync (css !!! j)) /\
  (mut (sh s) = None -> serial h empty_shared = Returns (sh s)) /\
  (finished s ->
   (forall j, j < length css -> proj (S j) h = sync (css !!! j)) /\
   serial h empty_shared = Returns (sh s)).
Proof.
  intros Hrun. destruct (vec_inv_run _ _ _ Hrun) as [p Inv]. simpl.
  pose proof (st_len _ _ _ _ (vi_str _ _ _ _ Inv)) as Hlen.
  rewrite length_map in Hlen.
  assert (mut (sh s) = None ->
          serial (history sched (boot (guarded css))) empty_shared
          = Returns (sh s)) as Hfree.
  { intros Hm. rewrite (vi_serial _ _ _ _ Inv), debt_free, app_nil_r by done.
    by rewrite <- Hm, shared_eta. }
  split; [|split; [|split]].
  - intros e He%(vi_hist _ _ _ _ Inv). lia.
  - intros j Hj. destruct (threads s !! S j) as [w|] eqn:Hw.
    + destruct (vi_at _ _ _ _ Inv _ _ Hw) as (pend & _ & <-). by eexists.
    + apply lookup_ge_None in Hw. rewrite proj_other; [apply prefix_nil|].
      apply Forall_forall. intros e He%(vi_hist _ _ _ _ Inv). lia.
  - done.
  - intros Hfin.
    destruct (vec_inv_finished _ _ _ _ Inv Hfin) as (Hm & _ & Hpo).
    split; [done | by apply Hfree].
Qed.

Lemma vector_linearizable_witness :
  serial (history (round_robin 1000 0 (boot main)) (boot main)) empty_shared
  = Returns (sh (outcome_of (round_robin 1000 0 (boot main)) (boot main))).
Proof.
  assert (run (round_robin 1000 0 (boot main))
            (boot (guarded [func_calls; func_calls; func_calls]))
          = Some (outcome_of (round_robin 1000 0 (boot main)) (boot main)))
    as Hrun by (vm_compute; reflexivity).
  assert (finished (outcome_of (round_robin 1000 0 (boot main)) (boot main)))
    as Hfin by (vm_compute; repeat constructor).
  exact (proj2 (proj2 (proj2 (proj2 (vector_linearizable _ _ _ Hrun))) Hfin)).
Defined.

Lemma uint_no_newline d :
  Forall (fun c => c <> "010"%char)
    (list_ascii_of_string (NilEmpty.string_of_uint d)).
Proof. induction d; simpl; by repeat constructor. Qed.

Lemma dec_no_newline i : Forall (fun c => c <> "010"%char) (dec i).
Proof.
  assert (forall d, Forall (fun c => c <> "010"%char)
                      (list_ascii_of_string (NilZero.string_of_uint d)))
    as Hu.
  { intros d. destruct d; try apply (uint_no_newline (_ d)).
    simpl. by repeat constructor. }
  unfold dec. destruct (Z.to_int i) as [d|d]; simpl; [apply Hu|].
  constructor; [done | apply Hu].
Qed.

Lemma render_no_newline l : Forall (fun c => c <> "010"%char) (render l).
Proof.
  induction l as [|i l IH]; [constructor|].
  change (render (i :: l)) with ((dec i ++ sep) ++ render l).
  repeat apply Forall_app_2; [apply dec_no_newline | | done].
  by repeat constructor.
Qed.

Lemma split_lines_line cur l rest :
  Forall (fun c => c <> "010"%char) l ->
  split_lines cur (l ++ "010"%char :: rest)
  = (rev cur ++ l) :: split_lines [] rest.
Proof.
  intros Hl. revert cur. induction Hl as [|c l Hc Hl IH]; intros cur.
  - simpl. by rewrite app_nil_r.
  - cbn [app split_lines]. apply Ascii.eqb_neq in Hc as ->.
    rewrite IH. simpl. by rewrite <- app_assoc.
Qed.

Lemma split_lines_app cur a b :
  split_lines cur (a ++ "010"%char :: b)
  = split_lines cur (a ++ ["010"%char]) ++ split_lines [] b.
Proof.
  revert cur. induction a as [|c a IH]; intros cur; [done|].
  cbn [app split_lines]. destruct (Ascii.eqb c "010"); [|apply IH].
  by rewrite IH.
Qed.

Lemma snapshots_complete v cs :
  snapshots v cs = [] \/ exists o, snapshots v cs = o ++ endl.
Proof.
  revert v. induction cs as [|[x| |] cs IH]; intros v; cbn [snapshots];
    [by left|..].
  - apply IH.
  - right. destruct (IH v) as [-> | [o ->]].
    + exists (render v). by rewrite app_nil_r.
    + exists (render v ++ endl ++ o). by rewrite <- !app_assoc.
  - apply IH.
Qed.

Lemma last_output_line out v :
  out = [] \/ (exists o, out = o ++ endl) ->
  last (output_lines (out ++ render v ++ endl)) = Some (render v).
Proof.
  unfold output_lines, endl. intros [-> | [o ->]].
  - cbn [app]. rewrite split_lines_line by apply render_no_newline.
    done.
  - rewrite <- !app_assoc. cbn [app]. rewrite split_lines_app.
    rewrite (split_lines_line [] (render v) []) by apply render_no_newline.
    cbn [rev app split_lines]. by rewrite last_snoc.
Qed.

Lemma proj_elem_of e h : e ∈ h -> e.2 ∈ proj e.1 h.
Proof.
  intros He. unfold proj. apply list_elem_of_fmap. exists e.
  split; [done|]. by apply list_elem_of_filter.
Qed.

(** X8: when no worker ends its calls on the vector with a [push_back] (as
    in [func], where every [push_back] is followed by a [print]), the output
    of a finished run ends with a newline and its last line is the line of
    the whole vector as it is at the end; when no worker makes any call on
    the vector there is no output at all. *)
Theorem last_line_complete css sched s :
  (forall cs x, cs ∈ css -> last (sync cs) <> Some (CPushBack x)) ->
  run sched (boot (guarded css)) = Some s -> finished s ->
  (Forall (fun cs => sync cs = []) css -> cout (sh s) = []) /\
  (Exists (fun cs => sync cs <> []) css ->
   last (output_lines (cout (sh s))) = Some (render (vec (sh s))) /\
   exists out,
     cout (sh s) = out ++ render (vec (sh s)) ++ endl /\
     (out = [] \/ exists out', out = out' ++ endl)).
Proof.
  intros Hlast Hrun Hfin.
  destruct (guarded_state _ _ _ Hrun) as [Hvec Hout].
  destruct (vec_inv_run _ _ _ Hrun) as [p Inv].
  destruct (vec_inv_finished _ _ _ _ Inv Hfin) as (Hm & Htid & Hpo).
  rewrite debt_free, app_nil_r in Hout by done. simpl in Hvec, Hout.
  split.
  - intros Hall.
    destruct (history sched (boot (guarded css))) as [|e h]; [done|].
    assert (1 <= e.1 <= length css) as He by (apply Htid; by left).
    destruct e as [[|j] c]; simpl in He; [lia|].
    assert (c ∈ proj (S j) ((S j, c) :: h)) as Hc
      by (apply (proj_elem_of (S j, c)); by left).
    rewrite Hpo in Hc by lia.
    rewrite (proj1 (Forall_forall _ _) Hall (css !!! j)) in Hc;
      [by apply elem_of_nil in Hc|].
    apply list_elem_of_lookup_total_2. lia.
  - intros (cs & Hcs & Hne)%Exists_exists.
    apply list_elem_of_lookup in Hcs as [j Hj].
    pose proof (lookup_lt_Some _ _ _ Hj) as Hlt.
    pose proof (Hpo j Hlt) as Hpj.
    rewrite (list_lookup_total_correct _ _ _ Hj) in Hpj.
    destruct (history sched (boot (guarded css))) as [|e h _] using rev_ind.
    { by rewrite <- Hpj in Hne. }
    clear j cs Hj Hlt Hpj Hne. destruct e as [t c].
    assert (1 <= t <= length css) as Ht.
    { apply (Htid (t, c)), elem_of_app. right. by left. }
    destruct t as [|j]; [lia|].
    assert (c = CPrint) as ->.
    { pose proof (Hpo j ltac:(lia)) as Hj.
      rewrite proj_app, proj_own in Hj.
      assert (last (sync (css !!! j)) = Some c) as Hl
        by (by rewrite <- Hj, last_snoc).
      destruct c as [x| |]; [|done|].
      - destruct (Hlast (css !!! j) x); [|done].
        apply list_elem_of_lookup_total_2. lia.
      - apply last_Some_elem_of in Hl. by apply sync_no_sleep in Hl. }
    rewrite fmap_app in Hvec, Hout. simpl in Hvec, Hout.
    rewrite pushes_app in Hvec. rewrite snapshots_app in Hout.
    cbn [pushes snapshots app] in Hvec, Hout.
    rewrite app_nil_r in Hvec, Hout. rewrite Hout, Hvec. split.
    + apply last_output_line, snapshots_complete.
    + exists (snapshots [] h.*2). split; [done|]. apply snapshots_complete.
Qed.

Lemma last_line_complete_witness :
  last (output_lines
          (cout (sh (outcome_of (round_robin 1000 0 (boot main))
                       (boot main)))))
  = Some (render (vec (sh (outcome_of (round_robin 1000 0 (boot main))
                             (boot main))))).
Proof.
  assert (forall cs x, cs ∈ [func_calls; func_calls; func_calls] ->
            last (sync cs) <> Some (CPushBack x)) as Hlast.
  { intros cs x Hcs.
    repeat (apply elem_of_cons in Hcs as [->|Hcs]); [done..|].
    by apply elem_of_nil in Hcs. }
  assert (run (round_robin 1000 0 (boot main))
            (boot (guarded [func_calls; func_calls; func_calls]))
          = Some (outcome_of (round_robin 1000 0 (boot main)) (boot main)))
    as Hrun by (vm_compute; reflexivity).
  assert (finished (outcome_of (round_robin 1000 0 (boot main)) (boot main)))
    as Hfin by (vm_compute; repeat constructor).
  assert (Exists (fun cs => sync cs <> [])
            [func_calls; func_calls; func_calls]) as Hex
    by (by apply Exists_cons_hd).
  exact (proj1 (proj2 (last_line_complete _ _ _ Hlast Hrun Hfin) Hex)).
Defined.

(** ** One call of a worker, when no other thread moves *)

Lemma step_thread t s i k :
  exit_status s = None -> threads s !! t = Some (i :: k) ->
  step t s
  = match i with
    | ILock => resume t k s (mut_lock t (sh s))
    | IUnlock => resume t k s (mut_unlock t (sh s))
    | IPushBack x =>
        resume t (IStore (length (vec (sh s))) x :: k) s (Returns (sh s))
    | IStore n x => resume t k s (Returns (vec_store n x (sh s)))
    | IForBegin =>
        resume t (IForNext 0 (length (vec (sh s))) :: k) s (Returns (sh s))
    | IForNext j n =>
        if (j <? n)
        then resume t (IPut (dec (nth j (vec (sh s)) 0%Z)) :: IPut sep
                         :: IForNext (S j) n :: k) s (Returns (sh s))
        else resume t k s (Returns (sh s))
    | IPut str => resume t k s (cout_put str (sh s))
    | ISleep => resume t k s (Returns (sh s))
    | ISpawn c =>
        Some (State (sh s) (<[t := k]> (threads s) ++ [c]) (exit_status s))
    | IJoin u =>
        match threads s !! u with
        | Some [] => resume t k s (Returns (sh s))
        | _ => None
        end
    | IReturn z => Some (State (sh s) (<[t := k]> (threads s)) (Some z))
    end.
Proof. intros Hex Ht. unfold step. by rewrite Hex, Ht. Qed.

Lemma render_drop v j x :
  v !! j = Some x -> render (drop j v) = dec x ++ sep ++ render (drop (S j) v).
Proof.
  intros Hj. rewrite (drop_S _ _ _ Hj). unfold render. simpl.
  by rewrite <- app_assoc.
Qed.

(** The loop of [print], from position [j] on. *)
Lemma for_loop_alone d t s j k :
  d = length (vec (sh s)) - j ->
  exit_status s = None ->
  threads s !! t = Some (IForNext j (length (vec (sh s))) :: k) ->
  exists s',
    run (replicate (3 * d + 1) t) s = Some s' /\
    sh s' = Shared (mut (sh s)) (vec (sh s))
              (cout (sh s) ++ render (drop j (vec (sh s)))) /\
    threads s' = <[t := k]> (threads s) /\
    exit_status s' = None.
Proof.
  revert s j. induction d as [|d IH]; intros s j Hd Hex Ht.
  - eexists. cbn [Nat.mul Nat.add replicate run].
    rewrite (step_thread _ _ _ _ Hex Ht).
    rewrite (proj2 (Nat.ltb_ge _ _)) by lia. cbn [resume].
    split; [done|]. cbn [sh threads exit_status].
    rewrite drop_ge by lia. cbn [render flat_map].
    by rewrite app_nil_r, shared_eta.
  - destruct (lookup_lt_is_Some_2 (vec (sh s)) j) as [x Hx]; [lia|].
    replace (3 * S d + 1) with (S (S (S (3 * d + 1)))) by lia.
    cbn [replicate run].
    rewrite (step_thread _ _ _ _ Hex Ht).
    rewrite (proj2 (Nat.ltb_lt _ _)) by lia. cbn [resume].
    pose proof (lookup_lt_Some _ _ _ Ht) as Hlt.
    erewrite step_thread;
      [|done | cbn [threads]; by apply list_lookup_insert_eq].
    cbn [resume cout_put sh threads exit_status].
    erewrite step_thread;
      [|done | cbn [threads]; apply list_lookup_insert_eq;
               by rewrite !length_insert].
    cbn [resume cout_put sh threads exit_status mut vec cout].
    rewrite !list_insert_insert_eq.
    match goal with
    | |- context [run _ ?s1] =>
        destruct (IH s1 (S j)) as (s' & Hrun & Hsh & Hth & Hex')
    end.
    { cbn [sh vec]. lia. }
    { done. }
    { cbn [threads sh vec]. by apply list_lookup_insert_eq. }
    cbn [sh vec mut cout threads] in *.
    exists s'. split; [exact Hrun|]. rewrite Hsh, Hth.
    rewrite list_insert_insert_eq.
    split; [|done]. f_equal.
    rewrite (render_drop _ _ _ Hx), (nth_lookup_Some _ _ _ _ Hx).
    by rewrite <- !app_assoc.
Qed.

(** One call, from [lock()] to [unlock()], with no other thread moving. *)
Lemma call_alone c t k s :
  exit_status s = None ->
  threads s !! t = Some (call_body c ++ k) ->
  mut (sh s) = None ->
  exists n s',
    n <= call_steps (length (vec (sh s))) c /\
    run (replicate n t) s = Some s' /\
    apply_call (t, c) (sh s) = Returns (sh s') /\
    threads s' = <[t := k]> (threads s) /\
    exit_status s' = None.
Proof.
  intros Hex Ht Hm. pose proof (lookup_lt_Some _ _ _ Ht) as Hlt.
  destruct c as [x| |]; cbn [call_body push_back_body print_body app] in Ht.
  - exists 4. eexists. split; [simpl; lia|]. cbn [replicate run].
    rewrite (step_thread _ _ _ _ Hex Ht). unfold mut_lock. rewrite Hm.
    cbn [resume].
    erewrite step_thread;
      [|done | cbn [threads]; by apply list_lookup_insert_eq].
    cbn [resume sh threads exit_status vec].
    erewrite step_thread;
      [|done | cbn [threads]; apply list_lookup_insert_eq;
               by rewrite !length_insert].
    cbv [resume vec_store]. cbn [sh threads exit_status mut vec cout].
    erewrite step_thread;
      [|done | cbn [threads]; apply list_lookup_insert_eq;
               by rewrite !length_insert].
    cbv [mut_unlock]. cbn [sh threads exit_status mut vec cout].
    rewrite decide_True by done. cbv [resume].
    cbn [sh threads exit_status mut vec cout].
    split; [done|]. rewrite !list_insert_insert_eq, firstn_all.
    unfold apply_call. cbn [fst snd]. by rewrite push_back_returns.
  - set (n := length (vec (sh s))).
    assert (exists s1,
              run [t; t] s = Some s1 /\
              sh s1 = Shared (Some t) (vec (sh s)) (cout (sh s)) /\
              threads s1
              = <[t := IForNext 0 n :: IPut endl :: IUnlock :: k]> (threads s) /\
              exit_status s1 = None) as (s1 & Hr1 & Hsh1 & Hth1 & Hex1).
    { eexists. cbn [run].
      rewrite (step_thread _ _ _ _ Hex Ht). unfold mut_lock. rewrite Hm.
      cbn [resume].
      erewrite step_thread;
        [|done | cbn [threads]; by apply list_lookup_insert_eq].
      cbn [resume sh threads exit_status vec].
      split; [done|]. cbn [sh threads exit_status].
      by rewrite list_insert_insert_eq. }
    destruct (for_loop_alone n t s1 0 (IPut endl :: IUnlock :: k))
      as (s2 & Hr2 & Hsh2 & Hth2 & Hex2).
    { rewrite Hsh1. cbn [vec]. unfold n. lia. }
    { done. }
    { rewrite Hth1, Hsh1. cbn [vec]. by apply list_lookup_insert_eq. }
    rewrite Hsh1 in Hsh2. cbn [mut vec cout] in Hsh2. rewrite drop_0 in Hsh2.
    rewrite Hth1, list_insert_insert_eq in Hth2.
    exists (2 + (3 * n + 1) + 2). eexists.
    split; [cbn [call_steps]; fold n; lia|].
    rewrite (replicate_add (2 + (3 * n + 1)) 2), (replicate_add 2 (3 * n + 1)).
    rewrite !run_app. change (replicate 2 t) with [t; t].
    rewrite Hr1. cbv beta iota. rewrite Hr2. cbv beta iota. cbn [run].
    erewrite step_thread;
      [|done | rewrite Hth2; by apply list_lookup_insert_eq].
    cbn [resume cout_put sh threads exit_status].
    erewrite step_thread;
      [|done | cbn [threads]; apply list_lookup_insert_eq;
               by rewrite Hth2, !length_insert].
    unfold mut_unlock. cbn [sh]. rewrite Hsh2. cbn [mut vec cout].
    rewrite decide_True by done. cbv [resume].
    cbn [sh threads exit_status mut vec cout].
    split; [done|]. rewrite Hth2, !list_insert_insert_eq.
    unfold apply_call. cbn [fst snd]. rewrite print_returns by done.
    by rewrite <- app_assoc.
  - exists 1. eexists. split; [simpl; lia|]. cbn [replicate run].
    rewrite (step_thread _ _ _ _ Hex Ht). cbn [resume].
    split; [done|]. by rewrite Hex.
Qed.

Lemma apply_call_free e sh0 sh1 :
  mut sh0 = None -> apply_call e sh0 = Returns sh1 -> mut sh1 = None.
Proof.
  intros Hm. destruct e as [t [x| |]]; unfold apply_call; cbn [fst snd].
  - rewrite push_back_returns by done. by intros [= <-].
  - rewrite print_returns by done. by intros [= <-].
  - by intros [= <-].
Qed.

(** X9: the code of a call and the member function agree.  A thread that is
    about to make a call while the mutex is free, and that is not interrupted,
    completes the call within the steps counted for it, and leaves the shared
    objects exactly as [push_back] or [print] returns them, the mutex free
    again; the thread is then at the instruction after the call. *)
Theorem call_uninterrupted c t k s :
  exit_status s = None ->
  threads s !! t = Some (call_body c ++ k) ->
  mut (sh s) = None ->
  exists n s',
    n <= call_steps (length (vec (sh s))) c /\
    run (replicate n t) s = Some s' /\
    apply_call (t, c) (sh s) = Returns (sh s') /\
    mut (sh s') = None /\
    threads s' = <[t := k]> (threads s) /\
    exit_status s' = None.
Proof.
  intros Hex Ht Hm.
  destruct (call_alone c t k s Hex Ht Hm)
    as (n & s' & Hn & Hrun & Hcall & Hth & Hex').
  exists n, s'. split; [done|]. split; [done|]. split; [done|].
  split; [|done]. by eapply apply_call_free.
Qed.

Lemma call_uninterrupted_witness :
  exists n s',
    n <= 15 /\
    run (replicate n 1)
      (State (Shared None [4; 2; 7]%Z []) [[]; print_body] None) = Some s' /\
    print 1 (Shared None [4; 2; 7]%Z []) = Returns (sh s').
Proof.
  destruct (call_uninterrupted CPrint 1 []
              (State (Shared None [4; 2; 7]%Z []) [[]; print_body] None)
              eq_refl eq_refl eq_refl) as (n & s' & Hn & Hrun & Hcall & _).
  exists n, s'. split; [exact Hn|]. split; [exact Hrun | exact Hcall].
Defined.

(** ** After an exception, and at the exit *)

(** X10: a [push_back] whose allocation fails leaves the vector and the
    stream as they were, but the [Vector] can no longer be used: every later
    [push_back] or [print] by another thread waits at [lock()] for ever, and
    one by the same thread locks a mutex that it already owns. *)
Theorem push_back_throw_poisons t i sh0 :
  mut sh0 = None ->
  exists sh1,
    push_back false t i sh0 = Throws sh1 /\
    vec sh1 = vec sh0 /\ cout sh1 = cout sh0 /\
    (forall u alloc_ok x, u <> t ->
       push_back alloc_ok u x sh1 = Blocks /\ print u sh1 = Blocks) /\
    (forall alloc_ok x,
       push_back alloc_ok t x sh1 = Undefined /\ print t sh1 = Undefined).
Proof.
  intros Hm. eexists. split; [by apply push_back_throws|].
  split; [done|]. split; [done|]. split.
  - intros u alloc_ok x Hne. unfold push_back, print, mut_lock. simpl.
    by rewrite decide_False by done.
  - intros alloc_ok x. unfold push_back, print, mut_lock. simpl.
    by rewrite decide_True by done.
Qed.

Lemma push_back_throw_poisons_witness :
  exists sh1,
    push_back false 1 7%Z (Shared None [3; 5]%Z []) = Throws sh1 /\
    print 2 sh1 = Blocks.
Proof.
  destruct (push_back_throw_poisons 1 7%Z (Shared None [3; 5]%Z []) eq_refl)
    as (sh1 & Hthrow & _ & _ & Hother & _).
  exists sh1. split; [exact Hthrow|].
  exact (proj2 (Hother 2 true 0%Z ltac:(discriminate))).
Defined.

Lemma program_exit_finished workers outs sched s :
  Forall plain workers ->
  run sched (boot (program workers outs)) = Some s ->
  exit_status s <> None -> finished s.
Proof.
  intros Hpl Hrun Hex.
  destruct (structure_run _ _ Hpl _ _ Hrun) as [p St].
  rewrite (st_exit _ _ _ _ St) in Hex.
  case_decide as Hp; [|done]. rewrite program_length in Hp.
  apply Forall_lookup_2. intros [|j] w Hw.
  - rewrite (st_main _ _ _ _ St) in Hw. injection Hw as <-.
    apply drop_ge. rewrite program_length. lia.
  - pose proof (lookup_lt_Some _ _ _ Hw) as Hlt.
    rewrite (st_len _ _ _ _ St) in Hlt.
    rewrite (st_joined _ _ _ _ St j) in Hw by lia. congruence.
Qed.

(** X11: in each of the three programs [main] returns only when every thread
    it started has run to its end: a run that has set the exit status has
    left no thread with anything to do. *)
Theorem exit_after_join m sched s :
  m ∈ [main; main_unscrambled; main_scrambled] ->
  run sched (boot m) = Some s ->
  exit_status s <> None -> finished s.
Proof.
  intros Hm Hrun.
  repeat (apply elem_of_cons in Hm as [->|Hm]);
    [| | | by apply elem_of_nil in Hm].
  - rewrite main_guarded in Hrun.
    eapply program_exit_finished; [|exact Hrun]. apply guarded_workers_plain.
  - rewrite main_unscrambled_eq in Hrun.
    eapply program_exit_finished; [|exact Hrun]. apply sink_workers_plain.
  - rewrite main_scrambled_eq in Hrun.
    eapply program_exit_finished; [|exact Hrun].
    apply Forall_fmap, Forall_true. intros text. apply put_chars_plain.
Qed.

Lemma exit_after_join_witness :
  finished (outcome_of (round_robin 100 0 (boot main_scrambled))
              (boot main_scrambled)).
Proof.
  assert (main_scrambled ∈ [main; main_unscrambled; main_scrambled]) as Hm
    by (right; right; left).
  assert (run (round_robin 100 0 (boot main_scrambled)) (boot main_scrambled)
          = Some (outcome_of (round_robin 100 0 (boot main_scrambled))
                    (boot main_scrambled)))
    as Hrun by (vm_compute; reflexivity).
  assert (exit_status (outcome_of (round_robin 100 0 (boot main_scrambled))
                         (boot main_scrambled)) <> None)
    as Hex by (vm_compute; discriminate).
  exact (exit_after_join _ _ _ Hm Hrun Hex).
Defined.

(** ** The printed line identifies the vector *)

Lemma to_int_not_nil i : Z.to_int i <> Decimal.Pos Decimal.Nil /\
                         Z.to_int i <> Decimal.Neg Decimal.Nil.
Proof.
  destruct i as [|p|p]; simpl; split; try discriminate;
    intros [= H]; by apply DecimalPos.Unsigned.to_uint_nonnil in H.
Qed.

Lemma dec_inj i j : dec i = dec j -> i = j.
Proof.
  unfold dec. intros H.
  apply (f_equal string_of_list_ascii) in H.
  rewrite !string_of_list_ascii_of_string in H.
  apply (f_equal NilZero.int_of_string) in H.
  destruct (to_int_not_nil i), (to_int_not_nil j).
  rewrite !NilZero.isi in H by done.
  injection H as H. by apply DecimalZ.to_int_inj.
Qed.

Lemma uint_no_comma d :
  Forall (fun c => c <> ","%char)
    (list_ascii_of_string (NilEmpty.string_of_uint d)).
Proof. induction d; simpl; by repeat constructor. Qed.

Lemma dec_no_comma i : Forall (fun c => c <> ","%char) (dec i).
Proof.
  assert (forall d, Forall (fun c => c <> ","%char)
                      (list_ascii_of_string (NilZero.string_of_uint d)))
    as Hu.
  { intros d. destruct d; try apply (uint_no_comma (_ d)).
    simpl. by repeat constructor. }
  unfold dec. destruct (Z.to_int i) as [d|d]; simpl; [apply Hu|].
  constructor; [done | apply Hu].
Qed.

Lemma split_at_comma (a a' x y : list ascii) :
  Forall (fun c => c <> ","%char) a -> Forall (fun c => c <> ","%char) a' ->
  a ++ ","%char :: x = a' ++ ","%char :: y -> a = a' /\ x = y.
Proof.
  intros Ha. revert a'. induction Ha as [|c a Hc Ha IH]; intros a' Ha' Heq.
  - destruct Ha' as [|c' a' Hc' Ha']; simpl in Heq.
    + by injection Heq as ->.
    + injection Heq as <- _. done.
  - destruct Ha' as [|c' a' Hc' Ha']; simpl in Heq.
    + injection Heq as -> _. done.
    + injection Heq as -> Heq. by destruct (IH _ Ha' Heq) as [-> ->].
Qed.

Lemma render_inj l1 l2 : render l1 = render l2 -> l1 = l2.
Proof.
  revert l2. induction l1 as [|i l1 IH]; intros [|j l2] Heq; [done|..].
  - unfold render in Heq. simpl in Heq. by destruct (dec j).
  - unfold render in Heq. simpl in Heq. by destruct (dec i).
  - change (render (i :: l1)) with ((dec i ++ sep) ++ render l1) in Heq.
    change (render (j :: l2)) with ((dec j ++ sep) ++ render l2) in Heq.
    rewrite <- !app_assoc in Heq.
    apply split_at_comma in Heq as [Hd Hr]; [|apply dec_no_comma..].
    apply dec_inj in Hd as ->. injection Hr as Hr. by rewrite (IH _ Hr).
Qed.

(** X12: the line that [print] writes identifies the vector: two calls that
    start with the same output and end with the same output have printed
    vectors with the same elements in the same order; no two different
    vectors are ever shown as the same line. *)
Theorem print_injective t sh0 sh0' sh1 sh1' :
  mut sh0 = None -> mut sh0' = None ->
  print t sh0 = Returns sh1 -> print t sh0' = Returns sh1' ->
  cout sh0 = cout sh0' -> cout sh1 = cout sh1' ->
  vec sh0 = vec sh0'.
Proof.
  intros Hm Hm' Hp Hp' Hc0 Hc1.
  rewrite print_returns in Hp, Hp' by done.
  injection Hp as <-. injection Hp' as <-. simpl in Hc1.
  rewrite Hc0 in Hc1. apply app_inv_head in Hc1.
  apply app_inv_tail in Hc1. by apply render_inj.
Qed.

Lemma print_injective_witness : [4; -2; 10]%Z = [4; -2; 10]%Z.
Proof.
  exact (print_injective 1 (Shared None [4; -2; 10]%Z [])
           (Shared None [4; -2; 10]%Z []) _ _
           eq_refl eq_refl eq_refl eq_refl eq_refl eq_refl).
Defined.

(** ** Which outputs can occur *)

(** [main] starts its threads, and joins them once they are done. *)
Lemma spawn_all ws k sh0 ts :
  run (replicate (length ws) 0) (State sh0 ((map ISpawn ws ++ k) :: ts) None)
  = Some (State sh0 (k :: ts ++ ws) None).
Proof.
  revert ts. induction ws as [|c ws IH]; intros ts.
  - by rewrite app_nil_r.
  - cbn [length replicate run map app].
    erewrite step_thread; [|done..].
    cbn [threads sh exit_status insert list_insert app].
    rewrite IH. by rewrite <- app_assoc.
Qed.

Lemma join_all q a k sh0 ws :
  Forall (fun w => w = []) ws -> 1 <= a -> a + q <= S (length ws) ->
  run (replicate q 0) (State sh0 ((map IJoin (seq a q) ++ k) :: ws) None)
  = Some (State sh0 (k :: ws) None).
Proof.
  intros Hws. revert a. induction q as [|q IH]; intros a Ha Hq; [done|].
  cbn [replicate run seq map app].
  erewrite step_thread; [|done..]. cbn [threads sh exit_status].
  destruct a as [|a]; [lia|]. rewrite lookup_cons.
  destruct (lookup_lt_is_Some_2 ws a) as [w Hw]; [lia|]. rewrite Hw.
  rewrite (Forall_lookup_1 _ _ _ _ Hws Hw). cbn [resume].
  apply IH; lia.
Qed.

Lemma epilogue_endl sh0 ws :
  run [0; 0] (State sh0 ([IPut endl; IReturn 0%Z] :: ws) None)
  = Some (State (Shared (mut sh0) (vec sh0) (cout sh0 ++ endl)) ([] :: ws)
            (Some 0%Z)).
Proof. reflexivity. Qed.

(** Without the mutex the workers can write in any order that keeps each
    text's own. *)
Lemma scr_workers_run w rs sh0 m :
  (forall e, e ∈ w -> 1 <= e.1 <= length rs) ->
  (forall j, j < length rs -> share (S j) w = rs !!! j) ->
  exists sched,
    run sched (State sh0 (m :: map put_chars rs) None)
    = Some (State (Shared (mut sh0) (vec sh0) (cout sh0 ++ w.*2))
              (m :: replicate (length rs) []) None).
Proof.
  revert rs sh0. induction w as [|[t c] w IH]; intros rs sh0 Htid Hsh.
  - exists []. simpl. rewrite app_nil_r, shared_eta. do 3 f_equal.
    apply list_eq_same_length with (length rs);
      [by rewrite length_replicate | by rewrite length_map |].
    intros j x y Hj Hx [-> _]%lookup_replicate.
    rewrite list_lookup_fmap in Hx.
    destruct (rs !! j) as [r|] eqn:Hr; [|done].
    pose proof (Hsh j Hj) as Hr'.
    rewrite (list_lookup_total_correct _ _ _ Hr) in Hr'.
    subst r. by injection Hx as <-.
  - destruct (Htid (t, c)) as [Ht1 Ht2]; [by left|]. simpl in Ht1, Ht2.
    destruct t as [|j]; [lia|].
    pose proof (Hsh j ltac:(lia)) as Hj.
    rewrite share_cons, decide_True in Hj by done.
    destruct (lookup_lt_is_Some_2 rs j) as [r Hr]; [lia|].
    rewrite (list_lookup_total_correct _ _ _ Hr) in Hj. subst r.
    destruct (IH (<[j := share (S j) w]> rs)
                (Shared (mut sh0) (vec sh0) (cout sh0 ++ [c])))
      as (sched & Hrun).
    { intros e He. rewrite length_insert. apply Htid. by right. }
    { intros j'. rewrite length_insert. intros Hj'.
      destruct (decide (j' = j)) as [->|Hne].
      - by rewrite list_lookup_total_insert_eq.
      - rewrite list_lookup_total_insert_ne by done.
        rewrite <- (Hsh j' Hj'). by rewrite share_cons, decide_False by lia. }
    exists (S j :: S j :: sched). cbn [run].
    rewrite (step_thread (S j) _ (IPut [c])
               (ISleep :: put_chars (share (S j) w)));
      [|done | cbn [threads]; rewrite lookup_cons, list_lookup_fmap, Hr; done].
    cbn [resume cout_put sh threads exit_status].
    rewrite (step_thread (S j) _ ISleep (put_chars (share (S j) w)));
      [|done | cbn [threads]; apply list_lookup_insert_eq; simpl;
               rewrite length_map; lia].
    cbn [resume sh threads exit_status]. rewrite list_insert_insert_eq.
    change (<[S j:=put_chars (share (S j) w)]> (m :: map put_chars rs))
      with (m :: <[j:=put_chars (share (S j) w)]> (map put_chars rs)).
    rewrite <- (list_fmap_insert put_chars).
    change (put_chars <$> <[j:=share (S j) w]> rs)
      with (map put_chars (<[j:=share (S j) w]> rs)).
    rewrite Hrun, length_insert. cbn [mut vec cout fmap list_fmap snd].
    by rewrite <- app_assoc.
Qed.

(** X13: [scrambled.cpp] can write the characters of its texts in every
    order that keeps the order within each text: for every such interleaving
    there is a run that ends with all threads done and with exactly this
    interleaving, followed by the newline of [main], as its output. *)
Theorem scrambled_any_interleaving msgs w :
  (forall e, e ∈ w -> 1 <= e.1 <= length msgs) ->
  (forall j, j < length msgs -> share (S j) w = msgs !!! j) ->
  exists sched s,
    run sched (boot (scrambled msgs)) = Some s /\
    finished s /\
    cout (sh s) = w.*2 ++ endl.
Proof.
  intros Htid Hsh.
  destruct (scr_workers_run w msgs empty_shared
              (map IJoin (seq 1 (length msgs)) ++ [IPut endl; IReturn 0%Z])
              Htid Hsh) as (sched & Hrun).
  exists (replicate (length msgs) 0 ++ sched
          ++ replicate (length msgs) 0 ++ [0; 0]).
  eexists. rewrite run_app.
  unfold boot, scrambled, program, main_code.
  rewrite <- (length_map printString_scrambled msgs) at 1.
  rewrite spawn_all. cbn [app]. rewrite length_map.
  change (map printString_scrambled msgs) with (map put_chars msgs).
  change (map IPut [endl] ++ [IReturn 0%Z]) with [IPut endl; IReturn 0%Z].
  rewrite run_app, Hrun. cbv beta iota.
  rewrite run_app, join_all, epilogue_endl.
  - split; [done|]. split; [|done]. cbn [threads].
    constructor; [done|]. by apply Forall_replicate.
  - by apply Forall_replicate.
  - done.
  - rewrite length_replicate. lia.
Qed.

Lemma scrambled_any_interleaving_witness :
  exists sched s,
    run sched (boot (scrambled messages)) = Some s /\
    finished s /\
    cout (sh s) = list_ascii_of_string "x1AyB23Cz" ++ endl.
Proof.
  assert (forall e : tid * ascii,
            e ∈ [(3, "x"); (2, "1"); (1, "A"); (3, "y"); (1, "B"); (2, "2");
                 (2, "3"); (1, "C"); (3, "z")]%char ->
            1 <= e.1 <= length messages) as Htid.
  { intros e He.
    repeat (apply elem_of_cons in He as [->|He]); [simpl; lia..|].
    by apply elem_of_nil in He. }
  assert (forall j, j < length messages ->
            share (S j)
              [(3, "x"); (2, "1"); (1, "A"); (3, "y"); (1, "B"); (2, "2");
               (2, "3"); (1, "C"); (3, "z")]%char = messages !!! j) as Hsh.
  { intros [|[|[|j]]] Hj; [reflexivity..|simpl in Hj; lia]. }
  exact (scrambled_any_interleaving messages _ Htid Hsh).
Defined.

(** One [printString] of [unscrambled.cpp], when no other thread moves. *)
Lemma put_chars_alone r t s k :
  exit_status s = None ->
  threads s !! t = Some (put_chars r ++ k) ->
  run (replicate (2 * length r) t) s
  = Some (State (Shared (mut (sh s)) (vec (sh s)) (cout (sh s) ++ r))
            (<[t := k]> (threads s)) None).
Proof.
  revert s. induction r as [|c r IH]; intros s Hex Ht.
  - simpl. rewrite app_nil_r, shared_eta, list_insert_id by done.
    rewrite <- Hex. by destruct s.
  - replace (2 * length (c :: r)) with (S (S (2 * length r)))
      by (cbn [length]; lia).
    cbn [replicate run].
    rewrite (step_thread t _ (IPut [c]) (ISleep :: put_chars r ++ k)) by done.
    cbn [resume cout_put]. rewrite Hex.
    rewrite (step_thread t _ ISleep (put_chars r ++ k));
      [|done | cbn [threads]; apply list_lookup_insert_eq;
               by eapply lookup_lt_Some].
    cbn [resume sh threads exit_status]. rewrite list_insert_insert_eq.
    rewrite IH;
      [|done | cbn [threads]; apply list_lookup_insert_eq;
               by eapply lookup_lt_Some].
    cbn [sh threads mut vec cout].
    by rewrite list_insert_insert_eq, <- app_assoc.
Qed.

Lemma printString_alone text t s :
  exit_status s = None -> mut (sh s) = None ->
  threads s !! t = Some (printString text) ->
  run (replicate (2 * length text + 2) t) s
  = Some (State (Shared None (vec (sh s)) (cout (sh s) ++ text))
            (<[t := []]> (threads s)) None).
Proof.
  intros Hex Hm Ht. pose proof (lookup_lt_Some _ _ _ Ht) as Hlt.
  replace (2 * length text + 2) with (1 + (2 * length text + 1)) by lia.
  rewrite (replicate_add 1), (replicate_add (2 * length text) 1).
  cbn [replicate run app].
  rewrite (step_thread t _ ILock (put_chars text ++ [IUnlock])) by done.
  unfold mut_lock. rewrite Hm. cbn [resume]. rewrite Hex.
  rewrite run_app, (put_chars_alone text t _ [IUnlock]);
    [|done | cbn [threads]; by apply list_lookup_insert_eq].
  cbn [run sh threads mut vec cout]. rewrite list_insert_insert_eq.
  rewrite (step_thread t _ IUnlock []);
    [|done | cbn [threads]; by apply list_lookup_insert_eq].
  unfold mut_unlock. cbn [sh mut vec cout]. rewrite decide_True by done.
  cbn [resume threads exit_status]. by rewrite list_insert_insert_eq.
Qed.

(** With the mutex the workers can still take their turns in any order. *)
Lemma sink_workers_run msgs order ws sh0 m :
  NoDup order -> mut sh0 = None ->
  (forall t, t ∈ order ->
     1 <= t /\ ws !! (t - 1) = Some (printString (message_of msgs t))) ->
  exists sched ws',
    run sched (State sh0 (m :: ws) None)
    = Some (State (Shared None (vec sh0)
                     (cout sh0 ++ concat (map (message_of msgs) order)))
              (m :: ws') None) /\
    length ws' = length ws /\
    (forall t, t ∈ order -> ws' !! (t - 1) = Some []) /\
    (forall j, S j ∉ order -> ws' !! j = ws !! j).
Proof.
  intros Hnd. revert ws sh0. induction Hnd as [|t order Hnin Hnd IH];
    intros ws sh0 Hm Hws.
  - exists [], ws. simpl. rewrite app_nil_r, <- Hm, shared_eta.
    split; [done|]. split; [done|]. split; [|done].
    by intros t ?%elem_of_nil.
  - destruct (Hws t) as [Ht Hlook]; [by left|].
    destruct t as [|j]; [lia|].
    replace (S j - 1) with j in Hlook by lia.
    pose proof (lookup_lt_Some _ _ _ Hlook) as Hlt.
    destruct (IH (<[j := []]> ws)
                (Shared None (vec sh0) (cout sh0 ++ message_of msgs (S j))))
      as (sched & ws' & Hrun & Hlen & Hdone & Hrest); [done| |].
    { intros t Hin. destruct (Hws t) as [Ht1 Ht2]; [by right|].
      split; [done|]. rewrite list_lookup_insert_ne; [done|].
      intros ->. apply Hnin. by replace (S (t - 1)) with t by lia. }
    exists (replicate (2 * length (message_of msgs (S j)) + 2) (S j) ++ sched).
    exists ws'. rewrite run_app.
    rewrite (printString_alone (message_of msgs (S j))) by done.
    cbn [sh threads vec cout].
    change (<[S j:=[]]> (m :: ws)) with (m :: <[j:=[]]> ws).
    rewrite Hrun. cbn [vec cout map concat]. rewrite <- app_assoc.
    split; [done|]. rewrite Hlen, length_insert. split; [done|]. split.
    + intros t [->|Hin]%elem_of_cons; [|by apply Hdone].
      replace (S j - 1) with j by lia. rewrite Hrest by done.
      by apply list_lookup_insert_eq.
    + intros j' Hj'. rewrite Hrest by (intros ?; apply Hj'; by right).
      apply list_lookup_insert_ne. intros ->. apply Hj'. by left.
Qed.

(** X14: the mutex of [unscrambled.cpp] keeps the texts whole but does not
    fix their order: for every order of the threads there is a run that ends
    with all threads done and whose output is the texts in that order,
    followed by the newline of [main]. *)
Theorem unscrambled_any_order msgs order :
  order ≡ₚ seq 1 (length msgs) ->
  exists sched s,
    run sched (boot (unscrambled msgs)) = Some s /\
    finished s /\
    cout (sh s) = concat (map (message_of msgs) order) ++ endl.
Proof.
  intros Hperm.
  assert (forall t, t ∈ order <-> 1 <= t <= length msgs) as Hin.
  { intros t. rewrite Hperm, elem_of_seq. lia. }
  destruct (sink_workers_run msgs order (map printString msgs) empty_shared
              (map IJoin (seq 1 (length msgs)) ++ [IPut endl; IReturn 0%Z]))
    as (sched & ws' & Hrun & Hlen & Hdone & _).
  { rewrite Hperm. apply NoDup_seq. }
  { done. }
  { intros t [Ht1 Ht2]%Hin. split; [done|].
    rewrite list_lookup_fmap.
    destruct (lookup_lt_is_Some_2 msgs (t - 1)) as [text Htext]; [lia|].
    unfold message_of. by rewrite (list_lookup_total_correct _ _ _ Htext), Htext. }
  rewrite length_map in Hlen.
  assert (Forall (fun w => w = []) ws') as Hall.
  { apply Forall_lookup_2. intros j w Hw.
    pose proof (lookup_lt_Some _ _ _ Hw) as Hlt.
    assert (ws' !! (S j - 1) = Some []) as Hj by (apply Hdone, Hin; lia).
    replace (S j - 1) with j in Hj by lia. congruence. }
  exists (replicate (length msgs) 0 ++ sched
          ++ replicate (length msgs) 0 ++ [0; 0]).
  eexists. rewrite run_app.
  unfold boot, unscrambled, program, main_code.
  rewrite <- (length_map printString msgs) at 1.
  rewrite spawn_all. cbn [app]. rewrite length_map.
  change (map IPut [endl] ++ [IReturn 0%Z]) with [IPut endl; IReturn 0%Z].
  rewrite run_app, Hrun. cbv beta iota.
  rewrite run_app, join_all, epilogue_endl.
  - split; [done|]. split; [|done]. cbn [threads]. by constructor.
  - done.
  - done.
  - lia.
Qed.

Lemma unscrambled_any_order_witness :
  exists sched s,
    run sched (boot (unscrambled messages)) = Some s /\
    finished s /\
    cout (sh s) = list_ascii_of_string "xyzABC123" ++ endl.
Proof.
  assert ([3; 1; 2] ≡ₚ seq 1 (length messages)) as Hperm.
  { change (seq 1 (length messages)) with ([1; 2] ++ [3]).
    by apply Permutation_cons_append. }
  exact (unscrambled_any_order messages [3; 1; 2] Hperm).
Defined.

(** The workers of the [Vector] program can make their calls in any order
    that keeps each worker's own. *)
Lemma vec_workers_run h rs sh0 m :
  mut sh0 = None ->
  (forall e, e ∈ h -> 1 <= e.1 <= length rs) ->
  (forall j, j < length rs -> proj (S j) h = rs !!! j) ->
  exists sched sh1,
    run sched (State sh0 (m :: map client rs) None)
    = Some (State sh1 (m :: replicate (length rs) []) None) /\
    serial h sh0 = Returns sh1.
Proof.
  revert rs sh0. induction h as [|[t c] h IH]; intros rs sh0 Hm Htid Hpo.
  - exists [], sh0. split; [|done]. simpl. do 3 f_equal.
    apply list_eq_same_length with (length rs);
      [by rewrite length_replicate | by rewrite length_map |].
    intros j x y Hj Hx [-> _]%lookup_replicate.
    rewrite list_lookup_fmap in Hx.
    destruct (rs !! j) as [r|] eqn:Hr; [|done].
    pose proof (Hpo j Hj) as Hr'.
    rewrite (list_lookup_total_correct _ _ _ Hr) in Hr'.
    subst r. by injection Hx as <-.
  - destruct (Htid (t, c)) as [Ht1 Ht2]; [by left|]. simpl in Ht1, Ht2.
    destruct t as [|j]; [lia|].
    pose proof (Hpo j ltac:(lia)) as Hj.
    rewrite proj_cons, decide_True in Hj by done.
    destruct (lookup_lt_is_Some_2 rs j) as [r Hr]; [lia|].
    rewrite (list_lookup_total_correct _ _ _ Hr) in Hj. subst r.
    destruct (call_alone c (S j) (client (proj (S j) h))
                (State sh0 (m :: map client rs) None))
      as (n & s1 & _ & Hrun1 & Hcall & Hth & Hex); [done | | done |].
    { cbn [threads]. by rewrite lookup_cons, list_lookup_fmap, Hr. }
    cbn [sh threads] in Hcall, Hth.
    change (<[S j:=client (proj (S j) h)]> (m :: map client rs))
      with (m :: <[j:=client (proj (S j) h)]> (map client rs)) in Hth.
    rewrite <- (list_fmap_insert client) in Hth.
    change (client <$> <[j:=proj (S j) h]> rs)
      with (map client (<[j:=proj (S j) h]> rs)) in Hth.
    destruct (IH (<[j := proj (S j) h]> rs) (sh s1))
      as (sched & sh2 & Hrun2 & Hser).
    { by eapply apply_call_free. }
    { intros e He. rewrite length_insert. apply Htid. by right. }
    { intros j'. rewrite length_insert. intros Hj'.
      destruct (decide (j' = j)) as [->|Hne].
      - by rewrite list_lookup_total_insert_eq.
      - rewrite list_lookup_total_insert_ne by done.
        rewrite <- (Hpo j' Hj'). by rewrite proj_cons, decide_False by lia. }
    exists (replicate n (S j) ++ sched), sh2. rewrite run_app, Hrun1.
    rewrite length_insert in Hrun2. split.
    + rewrite <- Hrun2. f_equal. destruct s1. simpl in *. by subst.
    + cbn [serial]. by rewrite Hcall.
Qed.

(** X15: every serial order of the workers' calls that keeps each worker's
    own order can occur: for each such order there is a run of the [Vector]
    program that ends with all threads done and leaves the vector and the
    output exactly as [push_back] and [print] leave them when called one
    after the other in that order. *)
Theorem vector_any_serial css h :
  (forall e, e ∈ h -> 1 <= e.1 <= length css) ->
  (forall j, j < length css -> proj (S j) h = css !!! j) ->
  exists sched s,
    run sched (boot (guarded css)) = Some s /\
    finished s /\
    serial h empty_shared = Returns (sh s).
Proof.
  intros Htid Hpo.
  destruct (vec_workers_run h css empty_shared
              (map IJoin (seq 1 (length css)) ++ [IReturn 0%Z])
              eq_refl Htid Hpo) as (sched & sh1 & Hrun & Hser).
  exists (replicate (length css) 0 ++ sched
          ++ replicate (length css) 0 ++ [0]).
  eexists. rewrite run_app.
  unfold boot, guarded, program, main_code.
  rewrite <- (length_map client css) at 1.
  rewrite spawn_all. cbn [app]. rewrite length_map.
  change (map IPut [] ++ [IReturn 0%Z]) with [IReturn 0%Z].
  rewrite run_app, Hrun. cbv beta iota.
  rewrite run_app, join_all.
  - cbn [run]. rewrite (step_thread 0 _ (IReturn 0%Z) []) by done.
    split; [done|]. split; [|done]. cbn [threads insert list_insert].
    constructor; [done|]. by apply Forall_replicate.
  - by apply Forall_replicate.
  - done.
  - rewrite length_replicate. lia.
Qed.

Lemma vector_any_serial_witness :
  exists sched s,
    run sched (boot main) = Some s /\
    finished s /\
    vec (sh s) = [0; 1; 2; 3; 4; 0; 1; 2; 3; 4; 0; 1; 2; 3; 4]%Z.
Proof.
  assert (forall e,
            e ∈ map (pair 1) func_calls ++ map (pair 2) func_calls
                ++ map (pair 3) func_calls ->
            1 <= e.1 <= length [func_calls; func_calls; func_calls])
    as Htid.
  { intros e He. apply list_elem_of_In in He.
    repeat (destruct He as [<-|He]; [simpl; lia|]). destruct He. }
  assert (forall j, j < length [func_calls; func_calls; func_calls] ->
            proj (S j) (map (pair 1) func_calls ++ map (pair 2) func_calls
                        ++ map (pair 3) func_calls)
            = [func_calls; func_calls; func_calls] !!! j) as Hpo.
  { intros [|[|[|j]]] Hj; [reflexivity..|simpl in Hj; lia]. }
  destruct (vector_any_serial [func_calls; func_calls; func_calls] _
              Htid Hpo) as (sched & s & Hrun & Hfin & Hser).
  exists sched, s. split; [exact Hrun|]. split; [exact Hfin|].
  exact (f_equal (fun o => match o with
                           | Returns sh1 => vec sh1
                           | _ => []
                           end) (eq_sym Hser)).
Defined.

(** * Each call of [print], from [lock()] to [unlock()] *)

Lemma step_exit t s s' : step t s = Some s' -> exit_status s = None.
Proof. unfold step. by destruct (exit_status s). Qed.

(** A step of one thread leaves the code of the others as it is. *)
Lemma step_other u t s s' :
  step u s = Some s' -> u <> t -> t < length (threads s) ->
  threads s' !! t = threads s !! t.
Proof.
  unfold step. destruct (exit_status s); [done|].
  destruct (threads s !! u) as [[|i k]|] eqn:Hu; try done.
  intros Hs Hne Hlt.
  assert (forall k' o, resume u k' s o = Some s' ->
                       threads s' !! t = threads s !! t) as Hres.
  { intros k' o. unfold resume. destruct o; try done. intros [= <-].
    simpl. by apply list_lookup_insert_ne. }
  destruct i; try (by eapply Hres).
  - destruct (k0 <? n); by eapply Hres.
  - injection Hs as <-. simpl.
    rewrite lookup_app_l by (by rewrite length_insert).
    by apply list_lookup_insert_ne.
  - destruct (threads s !! u0) as [[|]|]; try done. by eapply Hres.
  - injection Hs as <-. simpl. by apply list_lookup_insert_ne.
Qed.

(** A thread that does not own the mutex is outside [push_back] and
    [print]. *)
Lemma non_owner_outside css sched s u i :
  run sched (boot (guarded css)) = Some s ->
  mut (sh s) <> Some u -> next_instr u s = Some i ->
  critical i = false /\ touches_vec i = false /\ in_print i = false.
Proof.
  intros [p Inv]%vec_inv_run Hne Hi.
  pose proof (vi_str _ _ _ _ Inv) as St. destruct u as [|j].
  - destruct (main_next_instr _ _ _ _ _ St Hi)
      as [[? ->] | [[? ->] | [(? & -> & []%elem_of_nil) | ->]]]; done.
  - unfold next_instr in Hi.
    destruct (threads s !! S j) as [[|i' k]|] eqn:Ht; try done.
    injection Hi as ->.
    destruct (vi_at _ _ _ _ Inv _ _ Ht) as (pend & Hat & _).
    rewrite bool_decide_false in Hat by done.
    by apply vec_at_outside in Hat as [-> | ->].
Qed.

(** While a thread owns the mutex, no step of another thread changes the
    vector, the stream or the mutex. *)
Lemma owner_excludes css sched s t u s' :
  run sched (boot (guarded css)) = Some s ->
  mut (sh s) = Some t -> u <> t -> step u s = Some s' -> sh s' = sh s.
Proof.
  intros Hrun Hm Hne Hs. destruct (step_next_instr _ _ _ Hs) as [i Hi].
  destruct (non_owner_outside _ _ _ u i Hrun) as (Hc & _ & _);
    [congruence | done |].
  pose proof (step_exit _ _ _ Hs) as Hex.
  unfold next_instr in Hi.
  destruct (threads s !! u) as [[|i' k]|] eqn:Ht; try done.
  injection Hi as ->. rewrite (step_thread _ _ _ _ Hex Ht) in Hs.
  destruct i; try done; simpl in Hs.
  - unfold mut_lock in Hs. rewrite Hm in Hs.
    by rewrite decide_False in Hs by congruence.
  - by injection Hs as <-.
  - by injection Hs as <-.
  - destruct (threads s !! u0) as [[|]|]; try done. by injection Hs as <-.
  - by injection Hs as <-.
Qed.

Lemma render_snoc l x : render (l ++ [x]) = render l ++ dec x ++ sep.
Proof.
  unfold render. rewrite flat_map_app. cbn [flat_map].
  by rewrite app_nil_r.
Qed.

Lemma render_take_drop j v : render v = render (take j v) ++ render (drop j v).
Proof. unfold render. by rewrite <- flat_map_app, take_drop. Qed.

Lemma print_at_prefix v0 k w out :
  print_at v0 k w out -> out `prefix_of` render v0 ++ endl.
Proof.
  assert (forall j, render (take j v0) `prefix_of` render v0 ++ endl) as Hj.
  { intros j. rewrite (render_take_drop j v0), <- app_assoc. by eexists. }
  inversion 1 as [|j Hle|j x Hx|j x Hx| |]; subst; try apply Hj.
  - apply prefix_nil.
  - exists (sep ++ render (drop (S j) v0) ++ endl).
    rewrite (render_take_drop (S j) v0), (take_S_r _ _ _ Hx), render_snoc.
    by rewrite <- !app_assoc.
  - by eexists.
  - done.
Qed.

(** One call of [print] by thread [t], from the state [s1] in which it is
    about to take the mutex: as long as the call runs, [t] owns the mutex, the
    vector is as [t] found it, and the output is what was there followed by
    what the call has written; and the call returns with its whole line
    written and nothing else changed. *)
Lemma print_call css sched1 s1 t k sched2 s2 :
  run sched1 (boot (guarded css)) = Some s1 ->
  threads s1 !! t = Some (print_body ++ k) ->
  run (t :: sched2) s1 = Some s2 ->
  (mut (sh s2) = Some t /\ vec (sh s2) = vec (sh s1) /\
   exists w out,
     threads s2 !! t = Some w /\ print_at (vec (sh s1)) k w out /\
     cout (sh s2) = cout (sh s1) ++ out) \/
  (exists n sa,
     n <= length sched2 /\
     run (t :: take n sched2) s1 = Some sa /\
     run (drop n sched2) sa = Some s2 /\
     threads sa !! t = Some k /\
     sh sa = Shared None (vec (sh s1))
               (cout (sh s1) ++ render (vec (sh s1)) ++ endl)).
Proof.
  intros Hrun1 Ht. pose proof (lookup_lt_Some _ _ _ Ht) as Hlt1.
  revert s2. induction sched2 as [|u sched2 IH] using rev_ind; intros s3.
  - cbn [run]. destruct (step t s1) as [s2|] eqn:Hs; [|done].
    intros [= <-]. pose proof (step_exit _ _ _ Hs) as Hex.
    rewrite (step_thread _ _ _ _ Hex Ht) in Hs. unfold mut_lock in Hs.
    destruct (mut (sh s1)); [by case_decide|]. injection Hs as <-.
    left. cbn [sh threads mut vec cout]. split; [done|]. split; [done|].
    eexists _, []. split; [by apply list_lookup_insert_eq|].
    split; [constructor | by rewrite app_nil_r].
  - change (t :: sched2 ++ [u]) with ((t :: sched2) ++ [u]).
    intros (s2 & Hrun2 & Hs)%run_snoc.
    assert (run (sched1 ++ t :: sched2) (boot (guarded css)) = Some s2)
      as Hreach by (by rewrite run_app, Hrun1).
    pose proof (step_exit _ _ _ Hs) as Hex.
    destruct (IH _ Hrun2)
      as [(Hm & Hv & w & out & Hw & Hat & Hc)
         | (n & sa & Hn & Ha & Hb & Hk & Hsa)].
    + pose proof (lookup_lt_Some _ _ _ Hw) as Hlt.
      destruct (decide (u = t)) as [->|Hne].
      * inversion Hat as [|j Hj|j x Hx|j x Hx| |]; subst w out;
          rewrite (step_thread _ _ _ _ Hex Hw) in Hs.
        -- injection Hs as <-. left. cbn [sh threads mut vec cout].
           split; [done|]. split; [done|]. rewrite Hv.
           eexists _, _. split; [by apply list_lookup_insert_eq|].
           split; [apply (pa_next _ _ 0); lia | by rewrite Hc].
        -- destruct (decide (j < length (vec (sh s1)))) as [Hlt'|Hge].
           ++ rewrite (proj2 (Nat.ltb_lt _ _)) in Hs by done.
              injection Hs as <-. left. cbn [sh threads mut vec cout].
              split; [done|]. split; [done|]. rewrite Hv.
              destruct (lookup_lt_is_Some_2 _ _ Hlt') as [x Hx].
              rewrite (nth_lookup_Some _ _ _ _ Hx).
              eexists _, _. split; [by apply list_lookup_insert_eq|].
              split; [by apply (pa_int _ _ j x) | done].
           ++ rewrite (proj2 (Nat.ltb_ge _ _)) in Hs by lia.
              injection Hs as <-. left. cbn [sh threads mut vec cout].
              split; [done|]. split; [done|].
              eexists _, _. split; [by apply list_lookup_insert_eq|].
              split; [apply pa_endl|]. rewrite Hc.
              by rewrite take_ge by lia.
        -- injection Hs as <-. left. cbn [sh threads mut vec cout].
           split; [done|]. split; [done|].
           eexists _, _. split; [by apply list_lookup_insert_eq|].
           split; [by apply (pa_sep _ _ j x)|]. by rewrite Hc, <- app_assoc.
        -- injection Hs as <-. left. cbn [sh threads mut vec cout].
           split; [done|]. split; [done|].
           eexists _, _. split; [by apply list_lookup_insert_eq|].
           split; [apply (pa_next _ _ (S j)); by eapply lookup_lt_Some|].
           rewrite Hc, (take_S_r _ _ _ Hx), render_snoc.
           by rewrite <- !app_assoc.
        -- injection Hs as <-. left. cbn [sh threads mut vec cout].
           split; [done|]. split; [done|].
           eexists _, _. split; [by apply list_lookup_insert_eq|].
           split; [apply pa_unlock|]. by rewrite Hc, <- app_assoc.
        -- unfold mut_unlock in Hs. rewrite Hm, decide_True in Hs by done.
           injection Hs as <-. right.
           exists (length sched2 + 1), (State (Shared None (vec (sh s2))
                                    (cout (sh s2)))
                             (<[t:=k]> (threads s2)) (exit_status s2)).
           rewrite length_app. split; [simpl; lia|].
           rewrite take_ge, drop_ge by (rewrite length_app; simpl; lia).
           split.
           { change (t :: sched2 ++ [t]) with ((t :: sched2) ++ [t]).
             apply run_snoc. exists s2. split; [done|].
             rewrite (step_thread _ _ _ _ Hex Hw). unfold mut_unlock.
             by rewrite Hm, decide_True by done. }
           split; [done|]. cbn [sh threads].
           split; [by apply list_lookup_insert_eq|].
           by rewrite Hv, Hc.
      * left. rewrite (owner_excludes _ _ _ _ _ _ Hreach Hm Hne Hs).
        rewrite (step_other _ _ _ _ Hs Hne Hlt). eauto 10.
    + right. exists n, sa. rewrite length_app.
      rewrite take_app_le, drop_app_le by done.
      split; [lia|]. split; [done|]. split; [|done].
      apply run_snoc. eauto.
Qed.

Lemma print_at_suffix v0 k w out :
  print_at v0 k w out -> exists w', w = w' ++ IUnlock :: k.
Proof.
  inversion 1.
  - by exists [IForBegin; IPut endl].
  - by eexists [_; _].
  - by eexists [_; _; _; _].
  - by eexists [_; _; _].
  - by eexists [_].
  - by exists [].
Qed.

(** Along any continuation of a run the vector and the output only grow. *)
Lemma guarded_grows css sched1 s1 sched2 s2 :
  run sched1 (boot (guarded css)) = Some s1 -> run sched2 s1 = Some s2 ->
  vec (sh s1) `prefix_of` vec (sh s2) /\
  cout (sh s1) `prefix_of` cout (sh s2).
Proof.
  intros Hrun1 Hrun2. split.
  - revert s2 Hrun2.
    induction sched2 as [|u sched2 IH] using rev_ind; intros s2.
    + by intros [= <-].
    + intros (s & Hs & Hstep)%run_snoc. etrans; [by apply IH|].
      eapply (guarded_vec_prefix css (sched1 ++ sched2)); [|done].
      by rewrite run_app, Hrun1.
  - rewrite (cout_written _ _ _ Hrun2). by eexists.
Qed.

(** C5: every call of [print] shows exactly the values of the [push_back]s
    that had completed when it took the mutex.  In every run the vector holds
    the values of the [push_back]s that have stored, in that order, and the
    output is the lines of the [print]s that have started, each showing the
    values stored before it; in a finished run every call of every worker is
    among them.  And for a thread about to call [print] that takes the mutex:
    at that moment the mutex is free and no thread is inside [push_back] or
    [print], so the vector holds whole [push_back]s only; from then on either
    the thread still owns the mutex, the vector is unchanged and what has
    been added to the output is the beginning of the line of that vector, or
    the call has returned, having added exactly the line of that vector and
    left the vector as it was, both of which later steps only extend. *)
Theorem print_snapshot css sched s :
  run sched (boot (guarded css)) = Some s ->
  let h := (history sched (boot (guarded css))).*2 in
  vec (sh s) = pushes h /\
  cout (sh s) ++ debt s = snapshots [] h /\
  (mut (sh s) = None -> cout (sh s) = snapshots [] h) /\
  (finished s ->
   forall j, j < length css ->
     proj (S j) (history sched (boot (guarded css))) = sync (css !!! j)) /\
  (forall t k sched2 s2,
     threads s !! t = Some (print_body ++ k) ->
     run (t :: sched2) s = Some s2 ->
     (mut (sh s) = None /\
      forall u i, next_instr u s = Some i -> critical i = false) /\
     ((mut (sh s2) = Some t /\
       vec (sh s2) = pushes h /\
       exists out,
         cout (sh s2) = cout (sh s) ++ out /\
         out `prefix_of` render (pushes h) ++ endl) \/
      (exists n sa,
         n <= length sched2 /\
         run (t :: take n sched2) s = Some sa /\
         run (drop n sched2) sa = Some s2 /\
         threads sa !! t = Some k /\
         sh sa = Shared None (pushes h)
                   (cout (sh s) ++ render (pushes h) ++ endl) /\
         pushes h `prefix_of` vec (sh s2) /\
         cout (sh s) ++ render (pushes h) ++ endl `prefix_of` cout (sh s2)))).
Proof.
  intros Hrun. destruct (guarded_state _ _ _ Hrun) as [Hvec Hout]. simpl.
  split; [done|]. split; [done|]. split; [|split].
  - intros Hfree. rewrite <- Hout, debt_free by done. by rewrite app_nil_r.
  - intros Hfin. destruct (vec_inv_run _ _ _ Hrun) as [p Inv].
    by destruct (vec_inv_finished _ _ _ _ Inv Hfin) as (_ & _ & Hpo).
  - intros t k sched2 s2 Ht Hrun2.
    assert (mut (sh s) = None) as Hm.
    { cbn [run] in Hrun2. destruct (step t s) as [s'|] eqn:Hs; [|done].
      rewrite (step_thread _ _ _ _ (step_exit _ _ _ Hs) Ht) in Hs.
      unfold mut_lock in Hs. destruct (mut (sh s)); [by case_decide | done]. }
    split.
    { split; [done|]. intros u i Hi.
      eapply (non_owner_outside css sched s u); [done | congruence | done]. }
    rewrite <- Hvec.
    destruct (print_call _ _ _ _ _ _ _ Hrun Ht Hrun2)
      as [(Hm2 & Hv & w & out & Hw & Hat & Hc)
         | (n & sa & Hn & Ha & Hb & Hk & Hsa)].
    + left. split; [done|]. split; [done|]. exists out.
      split; [done | by eapply print_at_prefix].
    + right. exists n, sa. do 5 (split; [done|]).
      destruct (guarded_grows css (sched ++ t :: take n sched2) sa
                  (drop n sched2) s2) as [Hgv Hgc];
        [by rewrite run_app, Hrun | done |].
      by rewrite Hsa in Hgv, Hgc.
Qed.

Lemma print_snapshot_witness :
  cout (sh (outcome_of (round_robin 12 0 (boot main)) (boot main)))
    ++ render [0; 0]%Z ++ endl
  `prefix_of`
  cout (sh (outcome_of (1 :: replicate 10 1)
              (outcome_of (round_robin 12 0 (boot main)) (boot main)))).
Proof.
  assert (run (round_robin 12 0 (boot main))
            (boot (guarded [func_calls; func_calls; func_calls]))
          = Some (outcome_of (round_robin 12 0 (boot main)) (boot main)))
    as Hrun by (vm_compute; reflexivity).
  assert (threads (outcome_of (round_robin 12 0 (boot main)) (boot main)) !! 1
          = Some (print_body
                  ++ client (flat_map (fun i => [CPushBack i; CSleep; CPrint])
                               [1; 2; 3; 4]%Z)))
    as Ht by (vm_compute; reflexivity).
  assert (run (1 :: replicate 10 1)
            (outcome_of (round_robin 12 0 (boot main)) (boot main))
          = Some (outcome_of (1 :: replicate 10 1)
                    (outcome_of (round_robin 12 0 (boot main)) (boot main))))
    as Hrun2 by (vm_compute; reflexivity).
  destruct (proj2 (proj2 (proj2 (proj2 (proj2 (print_snapshot _ _ _ Hrun))))
                    1 _ _ _ Ht Hrun2))
    as [(Hm & _) | (n & sa & _ & _ & _ & _ & _ & _ & Hc)].
  - vm_compute in Hm. discriminate Hm.
  - exact Hc.
Defined.

(** C6: a call of [print] is one critical section.  From the step in which a
    thread about to call [print] takes the mutex, in every state that
    follows either the call is still under way, and then the thread owns the
    mutex and stands before the [unlock()] of this call, the vector is as it
    was when the mutex was taken, what has been added to the output is the
    beginning of the line of that vector, no other thread is at an access to
    the vector or the stream, and no step that another thread can take
    changes the vector, the stream or the mutex; or the call has returned,
    and at its return the mutex was free again, the vector unchanged and the
    output extended by exactly the line of that vector. *)
Theorem print_in_critical_section css sched s t k sched2 s2 :
  run sched (boot (guarded css)) = Some s ->
  threads s !! t = Some (print_body ++ k) ->
  run (t :: sched2) s = Some s2 ->
  (mut (sh s2) = Some t /\
   vec (sh s2) = vec (sh s) /\
   (exists w out,
      threads s2 !! t = Some (w ++ IUnlock :: k) /\
      cout (sh s2) = cout (sh s) ++ out /\
      out `prefix_of` render (vec (sh s)) ++ endl) /\
   (forall u i, u <> t -> next_instr u s2 = Some i ->
                critical i = false /\ touches_vec i = false /\
                in_print i = false) /\
   (forall u s', u <> t -> step u s2 = Some s' -> sh s' = sh s2)) \/
  (exists n sa,
     n <= length sched2 /\
     run (t :: take n sched2) s = Some sa /\
     run (drop n sched2) sa = Some s2 /\
     threads sa !! t = Some k /\
     sh sa = Shared None (vec (sh s))
               (cout (sh s) ++ render (vec (sh s)) ++ endl)).
Proof.
  intros Hrun Ht Hrun2.
  destruct (print_call _ _ _ _ _ _ _ Hrun Ht Hrun2)
    as [(Hm & Hv & w & out & Hw & Hat & Hc) | Hret]; [left | by right].
  assert (run (sched ++ t :: sched2) (boot (guarded css)) = Some s2)
    as Hreach by (by rewrite run_app, Hrun).
  split; [done|]. split; [done|]. split; [|split].
  - destruct (print_at_suffix _ _ _ _ Hat) as [w' ->].
    exists w', out. split; [done|]. split; [done|].
    by eapply print_at_prefix.
  - intros u i Hne Hi.
    eapply (non_owner_outside css _ s2 u); [done | congruence | done].
  - intros u s' Hne Hs. by eapply owner_excludes.
Qed.

Lemma print_in_critical_section_witness :
  exists sa,
    threads sa !! 1
    = Some (client (flat_map (fun i => [CPushBack i; CSleep; CPrint])
                      [1; 2; 3; 4]%Z)) /\
    sh sa
    = Shared None [0; 0]%Z
        (cout (sh (outcome_of (round_robin 12 0 (boot main)) (boot main)))
         ++ render [0; 0]%Z ++ endl).
Proof.
  assert (run (round_robin 12 0 (boot main))
            (boot (guarded [func_calls; func_calls; func_calls]))
          = Some (outcome_of (round_robin 12 0 (boot main)) (boot main)))
    as Hrun by (vm_compute; reflexivity).
  assert (threads (outcome_of (round_robin 12 0 (boot main)) (boot main)) !! 1
          = Some (print_body
                  ++ client (flat_map (fun i => [CPushBack i; CSleep; CPrint])
                               [1; 2; 3; 4]%Z)))
    as Ht by (vm_compute; reflexivity).
  assert (run (1 :: replicate 10 1 ++ [2])
            (outcome_of (round_robin 12 0 (boot main)) (boot main))
          = Some (outcome_of (1 :: replicate 10 1 ++ [2])
                    (outcome_of (round_robin 12 0 (boot main)) (boot main))))
    as Hrun2 by (vm_compute; reflexivity).
  destruct (print_in_critical_section _ _ _ 1 _ _ _ Hrun Ht Hrun2)
    as [(Hm & _) | (n & sa & _ & _ & _ & Hk & Hsa)].
  - vm_compute in Hm. discriminate Hm.
  - exists sa. split; [exact Hk | exact Hsa].
Defined.
